(** * WebScraper: the crawl engine of [main.py], embedded and verified

    The development follows the Python source:
    - [Str], [Float], [Urllib], [Re], [Fnmatch]: the parts of Python and
      of its standard library the scraper calls (strings and floats,
      [urlparse], [urlunparse], [fnmatch.translate] with [re.search]);
    - [Requests]: the network as an oracle, with a clock, and the
      requests of a session as its history;
    - section [WebScraper]: the methods of the class over an explicit
      session state, in a state-and-exception monad; the [while] loop of
      [crawl] runs on fuel, and every property is proved for any amount
      of it, that is, of every state a crawl passes through;
    - the vocabulary of the properties, the example sites, and then the
      proofs: the footprint of the methods, the invariants of the loop,
      and the properties of the crawl.

    Text is ASCII text: a string is a sequence of characters of one
    byte, and case is the case of the letters A to Z. *)

From Stdlib Require Import Ascii String QArith Lqa Sorted.
From stdpp Require Import gmap strings list fin_maps.

Local Open Scope string_scope.
Local Open Scope Z_scope.

(** ** Strings as Python uses them *)

Module Str.

(** [s.find(c)] *)
Fixpoint find (c : ascii) (s : string) : option nat :=
  match s with
  | EmptyString => None
  | String a s' => if Ascii.eqb a c then Some 0%nat else S <$> find c s'
  end.

(** [c in s] *)
Definition contains (c : ascii) (s : string) : bool :=
  bool_decide (is_Some (find c s)).

(** [s.split(c, 1)] when [c in s]: the text before and after the first [c] *)
Fixpoint split1 (c : ascii) (s : string) : option (string * string) :=
  match s with
  | EmptyString => None
  | String a s' =>
      if Ascii.eqb a c then Some (EmptyString, s')
      else '(l, r) ← split1 c s'; Some (String a l, r)
  end.

(** the longest prefix without a character of [stop], and the rest *)
Fixpoint span_until (stop : list ascii) (s : string) : string * string :=
  match s with
  | EmptyString => (EmptyString, EmptyString)
  | String a s' =>
      if bool_decide (a ∈ stop) then (EmptyString, s)
      else let '(l, r) := span_until stop s' in (String a l, r)
  end.

Definition is_upper (c : ascii) : bool :=
  let n := N_of_ascii c in ((65 <=? n) && (n <=? 90))%N.
Definition is_lower (c : ascii) : bool :=
  let n := N_of_ascii c in ((97 <=? n) && (n <=? 122))%N.
Definition is_digit (c : ascii) : bool :=
  let n := N_of_ascii c in ((48 <=? n) && (n <=? 57))%N.
Definition is_alpha (c : ascii) : bool := is_upper c || is_lower c.

Definition lower_char (c : ascii) : ascii :=
  if is_upper c then ascii_of_N (N_of_ascii c + 32) else c.

(** [s.lower()] on ASCII text *)
Fixpoint lower (s : string) : string :=
  match s with
  | EmptyString => EmptyString
  | String a s' => String (lower_char a) (lower s')
  end.

Fixpoint all (p : ascii → bool) (s : string) : bool :=
  match s with
  | EmptyString => true
  | String a s' => p a && all p s'
  end.

(** [s[:n]] and [s[n:]] *)
Fixpoint take (n : nat) (s : string) : string :=
  match n, s with
  | S n', String a s' => String a (take n' s')
  | _, _ => EmptyString
  end.
Fixpoint drop (n : nat) (s : string) : string :=
  match n, s with
  | S n', String _ s' => drop n' s'
  | _, _ => s
  end.

(** [needle in hay] *)
Fixpoint is_in (needle hay : string) : bool :=
  String.prefix needle hay
  || match hay with
     | String _ hay' => is_in needle hay'
     | EmptyString => false
     end.

(** Python truthiness of a string *)
Definition truthy (s : string) : bool :=
  match s with EmptyString => false | _ => true end.

Definition upper_char (c : ascii) : ascii :=
  if is_lower c then ascii_of_N (N_of_ascii c - 32) else c.

(** [s[i]], when [i < len(s)] *)
Fixpoint get (i : nat) (s : string) : option ascii :=
  match s, i with
  | EmptyString, _ => None
  | String a _, O => Some a
  | String _ s', S i' => get i' s'
  end.

(** [s[i:j]] *)
Definition slice (i j : nat) (s : string) : string := take (j - i) (drop i s).

(** [s.find(c, k, j)] *)
Definition find_in (c : ascii) (k j : nat) (s : string) : option nat :=
  (fun p => (k + p)%nat) <$> find c (slice k j s).

(** [s[0]] and [s[-1]] of a string that is not empty, [s[1:]] and
    [s[:-1]] *)
Definition first (s : string) : ascii :=
  match s with String a _ => a | EmptyString => "000"%char end.
Fixpoint last (s : string) : ascii :=
  match s with
  | EmptyString => "000"%char
  | String a EmptyString => a
  | String _ s' => last s'
  end.
Definition rest (s : string) : string := drop 1 s.
Definition most (s : string) : string := take (String.length s - 1) s.

(** [a > b] of two characters *)
Definition char_gt (a b : ascii) : bool := (N_of_ascii b <? N_of_ascii a)%N.

(** [s.isascii()] *)
Definition is_ascii (s : string) : bool :=
  all (fun c => (N_of_ascii c <? 128)%N) s.

End Str.

(** ** Floats

    The delays are Python floats: a finite number, an infinity or nan
    ([--delay inf] and [--delay nan] are accepted).  A finite float is
    taken as the rational it stands for: the rounding of the arithmetic
    is not modelled, and the times of the clock are finite. *)

Module Float.

Inductive float :=
| Fin (q : Q)
| PInf
| NInf
| NaN.

(** [a < b]: false when either is nan *)
Definition ltb (a b : float) : bool :=
  match a, b with
  | NaN, _ | _, NaN => false
  | Fin x, Fin y => if Qlt_le_dec x y then true else false
  | _, NInf => false
  | NInf, _ => true
  | PInf, _ => false
  | Fin _, PInf => true
  end.

(** [max(a, b)]: [b] when [b > a], else [a] *)
Definition max (a b : float) : float := if ltb a b then b else a.

(** [-a] *)
Definition opp (a : float) : float :=
  match a with
  | Fin x => Fin (- x)
  | PInf => NInf
  | NInf => PInf
  | NaN => NaN
  end.

(** [a + b], [a - b] *)
Definition add (a b : float) : float :=
  match a, b with
  | NaN, _ | _, NaN => NaN
  | Fin x, Fin y => Fin (x + y)
  | PInf, NInf | NInf, PInf => NaN
  | PInf, _ | _, PInf => PInf
  | NInf, _ | _, NInf => NInf
  end.

Definition sub (a b : float) : float := add a (opp b).

(** [a * b] *)
Definition mul (a b : float) : float :=
  match a, b with
  | NaN, _ | _, NaN => NaN
  | Fin x, Fin y => Fin (x * y)
  | Fin x, inf | inf, Fin x =>
      if Qeq_bool x 0 then NaN
      else if Qlt_le_dec x 0 then opp inf else inf
  | PInf, PInf | NInf, NInf => PInf
  | PInf, NInf | NInf, PInf => NInf
  end.

(** [a <= b] *)
Definition le (a b : float) : Prop :=
  match a, b with
  | NaN, _ | _, NaN => False
  | Fin x, Fin y => (x <= y)%Q
  | NInf, _ => True
  | _, PInf => True
  | _, _ => False
  end.

(** [float(n)] of an int: [OverflowError] beyond the largest float *)
Definition of_int (n : Z) : option Q :=
  if (Z.abs n <? 2 ^ 1024 - 2 ^ 970)%Z then Some (inject_Z n) else None.

End Float.

Import Float (float, Fin, PInf, NInf, NaN).

(** ** urllib.parse

    [urlsplit], [urlparse], [urlunsplit] and [urlunparse] after CPython
    3.11.  Left out: the stripping of leading control characters and of
    tab and newline, and the NFKC and bracketed-host checks of the network
    location.  [urlparse] raises [ValueError] on a network location with
    one bracket only; [valid] is that test.  The strings that reach the
    scraper's other calls of [urlparse] have been parsed once already (the
    constructor parses the start URL, [urljoin] every href), so the test
    is made where it can fire and [urlparse] itself is total. *)

Module Urllib.

Record ParseResult := {
  scheme : string;
  netloc : string;
  path : string;
  params : string;
  query : string;
  fragment : string;
}.

Definition scheme_char (c : ascii) : bool :=
  Str.is_alpha c || Str.is_digit c || bool_decide (c ∈ ["+"; "-"; "."]%char).

Definition uses_params : list string :=
  [""; "ftp"; "hdl"; "prospero"; "http"; "imap"; "https"; "shttp"; "rtsp";
   "rtspu"; "sip"; "sips"; "mms"; "sftp"; "tel"].

Definition uses_netloc : list string :=
  [""; "ftp"; "http"; "gopher"; "nntp"; "telnet"; "imap"; "wais"; "file";
   "mms"; "https"; "shttp"; "snews"; "prospero"; "rtsp"; "rtspu"; "rsync";
   "svn"; "svn+ssh"; "sftp"; "nfs"; "git"; "git+ssh"; "ws"; "wss"].

(** the scheme, when the text before the first colon is one *)
Definition split_scheme (url : string) : string * string :=
  match Str.find ":" url, url with
  | Some i, String c0 _ =>
      if bool_decide (0 < i)%nat && Str.is_alpha c0
         && Str.all scheme_char (Str.take i url)
      then (Str.lower (Str.take i url), Str.drop (S i) url)
      else ("", url)
  | _, _ => ("", url)
  end.

(** [_splitnetloc(url, 2)] *)
Definition splitnetloc (url : string) : string * string :=
  Str.span_until ["/"; "?"; "#"]%char (Str.drop 2 url).

Definition split_by (c : ascii) (url : string) : string * string :=
  match Str.split1 c url with
  | Some (l, r) => (l, r)
  | None => (url, "")
  end.

(** (scheme, netloc, path, query, fragment) *)
Definition urlsplit (url : string) : string * string * string * string * string :=
  let '(sch, url) := split_scheme url in
  let '(loc, url) :=
    if String.prefix "//" url then splitnetloc url else ("", url) in
  let '(url, frag) := split_by "#" url in
  let '(url, qry) := split_by "?" url in
  (sch, loc, url, qry, frag).

(** the position of the last [c] of [s], when there is one *)
Fixpoint rfind (c : ascii) (s : string) : option nat :=
  match s with
  | EmptyString => None
  | String a s' =>
      match rfind c s' with
      | Some i => Some (S i)
      | None => if Ascii.eqb a c then Some 0%nat else None
      end
  end.

(** [_splitparams]: the parameters of the last path segment *)
Definition splitparams (url : string) : string * string :=
  match rfind "/" url with
  | Some k =>
      match Str.split1 ";" (Str.drop k url) with
      | Some (l, r) => (Str.take k url +:+ l, r)
      | None => (url, "")
      end
  | None => split_by ";" url
  end.

Definition urlparse (url : string) : ParseResult :=
  let '(sch, loc, url, qry, frag) := urlsplit url in
  let '(url, prm) :=
    if bool_decide (sch ∈ uses_params) && Str.contains ";" url
    then splitparams url else (url, "") in
  {| scheme := sch; netloc := loc; path := url; params := prm;
     query := qry; fragment := frag |}.

(** [urlparse] raises [ValueError("Invalid IPv6 URL")] when this fails *)
Definition valid (url : string) : bool :=
  let loc := netloc (urlparse url) in
  bool_decide (Str.contains "[" loc = Str.contains "]" loc).

Definition urlunsplit (sch loc url qry frag : string) : string :=
  let url :=
    if Str.truthy loc
       || (Str.truthy sch && bool_decide (sch ∈ uses_netloc)
           && negb (String.eqb (Str.take 2 url) "//"))
    then
      let url :=
        if Str.truthy url && negb (String.eqb (Str.take 1 url) "/")
        then "/" +:+ url else url in
      "//" +:+ loc +:+ url
    else url in
  let url := if Str.truthy sch then sch +:+ ":" +:+ url else url in
  let url := if Str.truthy qry then url +:+ "?" +:+ qry else url in
  if Str.truthy frag then url +:+ "#" +:+ frag else url.

Definition urlunparse (p : ParseResult) : string :=
  let url :=
    if Str.truthy (params p) then path p +:+ ";" +:+ params p else path p in
  urlunsplit (scheme p) (netloc p) url (query p) (fragment p).

(** [parsed._replace(fragment='', query='')] *)
Definition strip_query_fragment (p : ParseResult) : ParseResult :=
  {| scheme := scheme p; netloc := netloc p; path := path p;
     params := params p; query := ""; fragment := "" |}.

End Urllib.


(** ** re and fnmatch

    The scraper holds compiled patterns and calls only their [search]
    method: a compiled pattern is modelled by that method.  [main] builds
    the patterns from the user's wildcards with
    [re.compile(fnmatch.translate(p), re.IGNORECASE)]; the constructor's
    [re.compile] of a compiled pattern returns it unchanged.

    [Re] has the expressions that [fnmatch.translate] of CPython 3.11
    writes, as [re.compile] reads them, and their matching; [Fnmatch]
    has the translation. *)

Module Re.

Record Pattern := { search : string → bool }.

(** the text of a character set, between the brackets and after the
    [^]: a character, escaped where it has to be, or a hyphen that is
    not escaped *)
Inductive settext :=
| Lit (c : ascii)
| Hyphen.

Definition code (t : settext) : ascii :=
  match t with Lit c => c | Hyphen => "-"%char end.

(** the set as [re] reads it, as ranges (lo, hi): a hyphen that is not
    escaped makes a range of its neighbours, and stands for itself at
    the end of the set *)
Fixpoint read_set (text : list settext) : list (ascii * ascii) :=
  match text with
  | [] => []
  | this :: text1 =>
      match text1 with
      | Hyphen :: [] => [(code this, code this); ("-", "-")]%char
      | Hyphen :: that :: text2 => (code this, code that) :: read_set text2
      | _ => (code this, code this) :: read_set text1
      end
  end.

(** the expressions that match one character *)
Inductive single :=
| Dot                  (* [.], any character under [(?s)] *)
| Chr (c : ascii)      (* [re.escape(c)] *)
| Never                (* [(?!)] *)
| In (negate : bool) (items : list (ascii * ascii)).   (* a set *)

(** what [fnmatch.translate] puts together, inside [(?s:] ... [)\Z] *)
Inductive atom :=
| One (x : single)
| Lazy (fixed : list single)   (* [(?>.*?fixed)] *)
| DotStar.                     (* [.*] *)

Definition char_eq (ignorecase : bool) (c a : ascii) : bool :=
  if ignorecase then Ascii.eqb (Str.lower_char c) (Str.lower_char a)
  else Ascii.eqb c a.

Definition in_items (items : list (ascii * ascii)) (c : ascii) : bool :=
  existsb (fun '(lo, hi) =>
             (N_of_ascii lo <=? N_of_ascii c)%N
             && (N_of_ascii c <=? N_of_ascii hi)%N) items.

(** under [re.IGNORECASE] a set is tried with the character in lower
    case, and holds the lower case of its members *)
Definition single_match (ignorecase : bool) (x : single) (a : ascii) : bool :=
  match x with
  | Dot => true
  | Chr c => char_eq ignorecase c a
  | Never => false
  | In negate items =>
      xorb negate
        (if ignorecase then
           let c := Str.lower_char a in
           in_items items c || in_items items (Str.upper_char c)
         else in_items items a)
  end.

(** the one-character expressions of [fixed] match the start of [s]:
    what is left of [s] *)
Fixpoint fixed_match (ignorecase : bool) (fixed : list single)
    (s : string) : option string :=
  match fixed with
  | [] => Some s
  | x :: fixed' =>
      match s with
      | String a s' =>
          if single_match ignorecase x a then fixed_match ignorecase fixed' s'
          else None
      | EmptyString => None
      end
  end.

(** a match of [(?s:re)\Z] that starts where [s] starts: the atoms
    consume [s], and [\Z] wants the end of the string after them.  The
    atomic group [(?>.*?fixed)] takes the first place where [fixed]
    matches, and does not come back for another *)
Fixpoint match_here (ignorecase : bool) (re : list atom) (s : string) : bool :=
  match re with
  | [] => bool_decide (s = "")
  | One x :: re' =>
      match s with
      | String a s' => single_match ignorecase x a && match_here ignorecase re' s'
      | EmptyString => false
      end
  | Lazy fixed :: re' =>
      (fix find (s : string) : bool :=
         match fixed_match ignorecase fixed s with
         | Some rest => match_here ignorecase re' rest
         | None =>
             match s with
             | String _ s' => find s'
             | EmptyString => false
             end
         end) s
  | DotStar :: re' =>
      (fix star (s : string) : bool :=
         match_here ignorecase re' s
         || match s with
            | String _ s' => star s'
            | EmptyString => false
            end) s
  end.

(** [pattern.search(s)]: a match that starts at some position of [s] *)
Fixpoint search_from (ignorecase : bool) (re : list atom) (s : string) : bool :=
  match_here ignorecase re s
  || match s with
     | String _ s' => search_from ignorecase re s'
     | EmptyString => false
     end.

(** [re.compile("(?s:" + re + ")\Z", flags)] *)
Definition compile (re : list atom) (ignorecase : bool) : Pattern :=
  {| search := search_from ignorecase re |}.

End Re.

Module Fnmatch.

(** the first pass of [translate]: [STAR], or the expression for one
    character *)
Inductive piece :=
| STAR
| Fixed (x : Re.single).

(** the index of the [']'] that closes the bracket opened before [i],
    or [len(pat)] when there is none: a [!] and a [']'] that come first
    do not close it *)
Definition closing (pat : string) (i : nat) : nat :=
  let j := i in
  let j := if bool_decide (Str.get j pat = Some "!"%char) then S j else j in
  let j := if bool_decide (Str.get j pat = Some "]"%char) then S j else j in
  match Str.find "]" (Str.drop j pat) with
  | Some p => (j + p)%nat
  | None => String.length pat
  end.

(** [while True: k = pat.find('-', k, j) ...]: the chunks before the
    hyphens found, and [i] after the loop *)
Fixpoint hyphens (fuel : nat) (pat : string) (i k j : nat) : list string * nat :=
  match fuel with
  | O => ([], i)
  | S fuel' =>
      match Str.find_in "-" k j pat with
      | None => ([], i)
      | Some k =>
          let '(chunks, i') := hyphens fuel' pat (k + 1) (k + 3) j in
          (Str.slice i k pat :: chunks, i')
      end
  end.

(** [chunks[-1] += '-'] *)
Fixpoint add_hyphen (chunks : list string) : list string :=
  match chunks with
  | [] => []
  | [s] => [s +:+ "-"]
  | s :: chunks' => s :: add_hyphen chunks'
  end.

(** [for k in range(len(chunks)-1, 0, -1)]: an empty range goes, with
    the two characters around its hyphen *)
Fixpoint remove_empty (chunks : list string) : list string :=
  match chunks with
  | [] => []
  | s :: chunks' =>
      match remove_empty chunks' with
      | [] => [s]
      | t :: chunks'' =>
          if Str.char_gt (Str.last s) (Str.first t)
          then (Str.most s +:+ Str.rest t) :: chunks''
          else s :: t :: chunks''
      end
  end.

(** the chunks of [pat[i:j]], which has a hyphen: the hyphens between
    them make ranges *)
Definition chunks_of (pat : string) (i j : nat) : list string :=
  let k := if bool_decide (Str.get i pat = Some "!"%char)
           then (i + 2)%nat else (i + 1)%nat in
  let '(chunks, i) := hyphens (S j) pat i k j in
  let chunk := Str.slice i j pat in
  remove_empty
    (if Str.truthy chunk then (chunks ++ [chunk])%list else add_hyphen chunks).

(** ['-'.join(...)] of the chunks, their backslashes and hyphens
    escaped, and the escape of [&], [~] and [|] *)
Fixpoint set_text (chunks : list string) : list Re.settext :=
  match chunks with
  | [] => []
  | [s] => Re.Lit <$> list_ascii_of_string s
  | s :: chunks' =>
      ((Re.Lit <$> list_ascii_of_string s) ++ Re.Hyphen :: set_text chunks')%list
  end.

(** [if not stuff: ... elif stuff == '!': ... else: ...] *)
Definition set_of (stuff : list Re.settext) : Re.single :=
  match stuff with
  | [] => Re.Never
  | [Re.Lit "!"%char] => Re.Dot
  | Re.Lit "!"%char :: stuff' => Re.In true (Re.read_set stuff')
  | _ => Re.In false (Re.read_set stuff)
  end.

(** the first loop of [translate], from index [i] on *)
Fixpoint scan_from (fuel : nat) (pat : string) (i : nat)
    (res : list piece) : list piece :=
  match fuel with
  | O => res
  | S fuel' =>
      match Str.get i pat with
      | None => res
      | Some c =>
          let i := S i in
          if Ascii.eqb c "*" then
            scan_from fuel' pat i
              (match List.last res (Fixed Re.Dot) with
               | STAR => res
               | _ => res ++ [STAR]
               end)%list
          else if Ascii.eqb c "?" then
            scan_from fuel' pat i (res ++ [Fixed Re.Dot])%list
          else if Ascii.eqb c "[" then
            let j := closing pat i in
            if (String.length pat <=? j)%nat then
              scan_from fuel' pat i (res ++ [Fixed (Re.Chr "[")])%list
            else
              let stuff := Str.slice i j pat in
              let chunks :=
                if Str.contains "-" stuff then chunks_of pat i j else [stuff] in
              scan_from fuel' pat (S j)
                (res ++ [Fixed (set_of (set_text chunks))])%list
          else scan_from fuel' pat i (res ++ [Fixed (Re.Chr c)])%list
      end
  end.

Definition scan (pat : string) : list piece :=
  scan_from (String.length pat) pat 0 [].

(** the second loop, after a [STAR] and the pieces [fixed] that follow
    it: [.*] and [fixed] at the end of the pattern, the atomic group
    before another [STAR] *)
Fixpoint after_star (fixed : list Re.single) (inp : list piece) : list Re.atom :=
  match inp with
  | [] => Re.DotStar :: (Re.One <$> fixed)
  | Fixed x :: inp' => after_star (fixed ++ [x]) inp'
  | STAR :: inp' => Re.Lazy fixed :: after_star [] inp'
  end.

(** the second loop: the pieces before the first [STAR] as they are *)
Fixpoint group (inp : list piece) : list Re.atom :=
  match inp with
  | [] => []
  | Fixed x :: inp' => Re.One x :: group inp'
  | STAR :: inp' => after_star [] inp'
  end.

(** [fnmatch.translate(pat)] *)
Definition translate (pat : string) : list Re.atom := group (scan pat).

End Fnmatch.

(** [wildcard_to_regex] of [main] *)
Definition wildcard_to_regex (p : string) : Re.Pattern :=
  Re.compile (Fnmatch.translate p) true.

(** ** requests, robotparser and the clock

    The network is an oracle: the [n]-th request of the session gets the
    reply [net n request], after [elapsed] seconds.  A document is what
    its two readers make of it: BeautifulSoup the [href]s of its anchors,
    [RobotFileParser] the rules of a robots.txt.  Times are rationals. *)

Module Requests.

Inductive method := HEAD | GET.

Record request := {
  req_method : method;
  req_url : string;
  req_timeout : Z;
}.

Inductive exn :=
| Timeout               (* requests.exceptions.Timeout *)
| ConnectionError       (* requests.exceptions.ConnectionError *)
| HTTPError             (* raise_for_status *)
| RequestException      (* the other request exceptions *)
| ValueError
| OverflowError
| PlainException.       (* any other Exception *)

Definition is_RequestException (e : exn) : bool :=
  match e with
  | Timeout | ConnectionError | HTTPError | RequestException => true
  | ValueError | OverflowError | PlainException => false
  end.

(** [rp.can_fetch(useragent, url)] and [rp.crawl_delay(useragent)] *)
Record RobotFileParser := {
  rp_can_fetch : string → string → bool;
  rp_crawl_delay : string → option Z;
}.

(** [rp.parse] raises on a [Crawl-delay] that [isdigit()] passes and
    [int()] refuses: there are no rules then *)
Record document := {
  anchors : list string;               (* soup.find_all('a', href=True) *)
  robots : option RobotFileParser;     (* rp.parse(response.text.splitlines()) *)
}.

Record response := {
  status_code : Z;
  content_type : string;        (* headers.get('content-type', '') *)
  content : document;
}.

Record reply := {
  outcome : exn + response;
  elapsed : Q;
}.

Definition network := nat → request → reply.

(** what a request is made for: the call site in [main.py] *)
Inductive purpose := Probe | Robots | Scrape | Links.

Record event := {
  ev_time : Q;                  (* the clock when the request starts *)
  ev_purpose : purpose;
  ev_request : request;
}.

End Requests.

Import Requests.

(** ** The session *)

(** the constructor's arguments (fields of [self] that are never
    assigned again); the headers and the output options play no part *)
Record config := {
  start_url : string;
  allow_exit : bool;
  external_links_depth : Z;
  max_depth : Z;
  delay : float;
  respect_robots : bool;
  user_agent : string;
  exclude_patterns : list Re.Pattern;
  include_patterns : list Re.Pattern;
}.

(** the dict [extract_data] builds; the fields read from the markup
    alone (title, meta tags, headings, images, text length) and the
    formatted timestamp are left out *)
Record page_data := {
  url : string;
  domain : string;
  links : list string;
  status : option Z;
}.

(** the mutable fields of [self], the clock and the requests sent so
    far (newest first) *)
Record state := {
  visited_urls : gset string;
  scraped_data : list page_data;
  max_external_hops : Z;
  current_domains : gset string;
  robots_cache : gmap string (option RobotFileParser);
  domain_delays : gmap string Q;
  now : Q;
  sent : list event;
}.

Definition with_visited (f : gset string → gset string) (st : state) : state :=
  {| visited_urls := f (visited_urls st); scraped_data := scraped_data st;
     max_external_hops := max_external_hops st;
     current_domains := current_domains st; robots_cache := robots_cache st;
     domain_delays := domain_delays st; now := now st; sent := sent st |}.

Definition with_scraped (f : list page_data → list page_data) (st : state) : state :=
  {| visited_urls := visited_urls st; scraped_data := f (scraped_data st);
     max_external_hops := max_external_hops st;
     current_domains := current_domains st; robots_cache := robots_cache st;
     domain_delays := domain_delays st; now := now st; sent := sent st |}.

Definition with_scope (h : Z) (ds : gset string) (st : state) : state :=
  {| visited_urls := visited_urls st; scraped_data := scraped_data st;
     max_external_hops := h; current_domains := ds;
     robots_cache := robots_cache st; domain_delays := domain_delays st;
     now := now st; sent := sent st |}.

Definition with_robots (c : gmap string (option RobotFileParser))
    (d : gmap string Q) (st : state) : state :=
  {| visited_urls := visited_urls st; scraped_data := scraped_data st;
     max_external_hops := max_external_hops st;
     current_domains := current_domains st; robots_cache := c;
     domain_delays := d; now := now st; sent := sent st |}.

Definition with_world (t : Q) (evs : list event) (st : state) : state :=
  {| visited_urls := visited_urls st; scraped_data := scraped_data st;
     max_external_hops := max_external_hops st;
     current_domains := current_domains st; robots_cache := robots_cache st;
     domain_delays := domain_delays st; now := t; sent := evs |}.

(** *** State and exceptions *)

Inductive Result (A : Type) :=
  | Ret (a : A) (st : state)
  | Raise (e : exn) (st : state).
Arguments Ret {A} a st.
Arguments Raise {A} e st.

Abbreviation M A := (state → Result A).

Definition ret {A} (a : A) : M A := fun st => Ret a st.

Definition bind {A B} (m : M A) (k : A → M B) : M B :=
  fun st =>
    match m st with
    | Ret a st' => k a st'
    | Raise e st' => Raise e st'
    end.

Definition raise {A} (e : exn) : M A := fun st => Raise e st.

(** [try: m  except <the classes of handles> as e: h e]; what [m] did to
    the state before it raised stays done *)
Definition try_except {A} (m : M A) (handles : exn → bool) (h : exn → M A) : M A :=
  fun st =>
    match m st with
    | Ret a st' => Ret a st'
    | Raise e st' => if handles e then h e st' else Raise e st'
    end.

Definition get : M state := fun st => Ret st st.
Definition modify (f : state → state) : M unit := fun st => Ret tt (f st).

Notation "x <- m ; k" := (bind m (fun x => k))
  (at level 20, m at level 100, k at level 200, only parsing).

Definition final {A} (r : Result A) : state :=
  match r with Ret _ st => st | Raise _ st => st end.

Definition any_exception (_ : exn) : bool := true.

(** the longest and the shortest time that fits the nanoseconds of a
    C [_PyTime_t] *)
Definition time_max : Q := Qmake (2 ^ 63 - 1) (10 ^ 9).
Definition time_min : Q := Qmake (- 2 ^ 63) (10 ^ 9).

(** [time.sleep(secs)]: [ValueError] for nan, [OverflowError] for a
    time that does not fit, [ValueError] for one below zero; a wait
    that fits is slept to its end.  (CPython may refuse a wait shortly
    below the bound as well, with [OSError], when its deadline on the
    monotonic clock does not fit; there is one clock here, and such a
    wait is slept.) *)
Definition sleep (secs : float) : M unit :=
  match secs with
  | NaN => raise ValueError
  | PInf | NInf => raise OverflowError
  | Fin q =>
      if Qlt_le_dec time_max q then raise OverflowError
      else if Qlt_le_dec q time_min then raise OverflowError
      else if Qlt_le_dec q 0 then raise ValueError
      else modify (fun st => with_world (now st + q) (sent st) st)
  end.

(** the local variables of [crawl]: the queue of (url, depth) and the
    time of the last rate-limited request of each domain *)
Record frontier := {
  queue : list (string * Z);
  last_request_time : gmap string Q;
}.

(** ** class WebScraper *)

Section WebScraper.

Context (net : network) (cfg : config).

Definition netloc_of (u : string) : string :=
  Urllib.netloc (Urllib.urlparse u).

Definition start_domain : string := netloc_of (start_url cfg).

(** [__init__]; the clock counts from the start of the session *)
Definition init : state :=
  {| visited_urls := ∅; scraped_data := []; max_external_hops := 0;
     current_domains := {[ start_domain ]}; robots_cache := ∅;
     domain_delays := ∅; now := 0%Q; sent := [] |}.

(** [requests.get] / [requests.head]: the request starts now, the reply
    comes [elapsed] seconds later *)
Definition sending (why : purpose) (r : request) (st : state) : state :=
  with_world (now st + elapsed (net (length (sent st)) r))
    ({| ev_time := now st; ev_purpose := why; ev_request := r |} :: sent st)
    st.

Definition send (why : purpose) (r : request) : M response :=
  fun st =>
    match outcome (net (length (sent st)) r) with
    | inl e => Raise e (sending why r st)
    | inr resp => Ret resp (sending why r st)
    end.

Definition raise_for_status (r : response) : M unit :=
  if (400 <=? status_code r) && (status_code r <? 600) then raise HTTPError
  else ret tt.

Definition is_html (r : response) : bool :=
  let content_type := Str.lower (content_type r) in
  Str.is_in "text/html" content_type
  || Str.is_in "application/xhtml+xml" content_type.

(** [f"{scheme}://{domain}/robots.txt"], with the scheme of the start
    URL, or https when it has none *)
Definition robots_url (domain : string) : string :=
  let parsed_start := Urllib.urlparse (start_url cfg) in
  let scheme :=
    if Str.truthy (Urllib.scheme parsed_start)
    then Urllib.scheme parsed_start else "https" in
  scheme +:+ "://" +:+ domain +:+ "/robots.txt".

(** [rp.parse(response.text.splitlines())] *)
Definition parse_robots (doc : document) : M RobotFileParser :=
  match robots doc with
  | Some rp => ret rp
  | None => raise ValueError
  end.

(** [float(crawl_delay)] *)
Definition float_of_int (n : Z) : M Q :=
  match Float.of_int n with
  | Some q => ret q
  | None => raise OverflowError
  end.

Definition get_robots_parser (domain : string) : M (option RobotFileParser) :=
  if negb (respect_robots cfg) then ret None
  else
    st <- get ;
    match robots_cache st !! domain with
    | Some rp => ret rp
    | None =>
        try_except
          (response <- send Robots
             {| req_method := GET; req_url := robots_url domain;
                req_timeout := 5 |} ;
           if status_code response =? 200 then
             rp <- parse_robots (content response) ;
             _ <- modify (fun st =>
               with_robots (<[domain := Some rp]> (robots_cache st))
                 (domain_delays st) st) ;
             _ <- match rp_crawl_delay rp (user_agent cfg) with
             | Some crawl_delay =>
                 if negb (crawl_delay =? 0) then
                   d <- float_of_int crawl_delay ;
                   modify (fun st =>
                     with_robots (robots_cache st)
                       (<[domain := d]> (domain_delays st)) st)
                 else ret tt
             | None => ret tt
             end ;
             ret (Some rp)
           else
             _ <- modify (fun st =>
               with_robots (<[domain := None]> (robots_cache st))
                 (domain_delays st) st) ;
             ret None)
          any_exception
          (fun _ =>
             _ <- modify (fun st =>
               with_robots (<[domain := None]> (robots_cache st))
                 (domain_delays st) st) ;
             ret None)
    end.

Definition can_fetch (u : string) : M bool :=
  if negb (respect_robots cfg) then ret true
  else
    let domain := netloc_of u in
    rp <- get_robots_parser domain ;
    match rp with
    | None => ret true
    | Some rp => ret (rp_can_fetch rp (user_agent cfg) u)
    end.

Definition get_crawl_delay (u : string) : M float :=
  let domain := netloc_of u in
  st <- get ;
  match domain_delays st !! domain with
  | Some d => ret (Float.max (delay cfg) (Fin d))
  | None => ret (delay cfg)
  end.

Definition is_valid_url (u : string) : M bool :=
  ok <- can_fetch u ;
  if negb ok then ret false
  else if existsb (fun pattern => Re.search pattern u) (exclude_patterns cfg)
  then ret false
  else
    match include_patterns cfg with
    | [] => ret true
    | _ => ret (existsb (fun pattern => Re.search pattern u) (include_patterns cfg))
    end.

Definition is_same_domain (u : string) : M bool :=
  let domain := netloc_of u in
  if String.eqb domain start_domain then ret true
  else if allow_exit cfg then
    st <- get ;
    if negb (bool_decide (domain ∈ current_domains st)) then
      if max_external_hops st <? external_links_depth cfg then
        _ <- modify (fun st =>
          with_scope (max_external_hops st + 1)
            (current_domains st ∪ {[ domain ]}) st) ;
        ret true
      else ret false
    else ret true
  else ret false.

(** [urljoin(url, href)] for an absolute [href]: it parses [href], and
    raises where [urlparse] does *)
Definition urljoin (base href : string) : M string :=
  if Urllib.valid href then ret href else raise ValueError.

(** the loop of [extract_data] over [links[:50]] *)
Fixpoint extract_links (u : string) (hrefs : list string)
    (acc : list string) : M (list string) :=
  match hrefs with
  | [] => ret acc
  | href :: hrefs' =>
      absolute_url <- urljoin u href ;
      ok <- is_same_domain absolute_url ;
      extract_links u hrefs' (if ok then (acc ++ [absolute_url])%list else acc)
  end.

Definition extract_data (soup : document) (u : string) : M page_data :=
  ls <- extract_links u (take 50 (anchors soup)) [] ;
  ret {| url := u; domain := netloc_of u; links := ls; status := None |}.

Definition scrape_url (u : string) : M (option page_data) :=
  try_except
    (response <- send Scrape
       {| req_method := GET; req_url := u; req_timeout := 15 |} ;
     if status_code response =? 429 then
       _ <- sleep (Float.mul (delay cfg) (Fin 3)) ;
       ret None
     else
       _ <- raise_for_status response ;
       if negb (is_html response) then ret None
       else
         data <- extract_data (content response) u ;
         ret (Some {| url := url data; domain := domain data;
                      links := links data;
                      status := Some (status_code response) |}))
    any_exception
    (fun _ => ret None).

Definition clean (absolute_url : string) : string :=
  Urllib.urlunparse (Urllib.strip_query_fragment (Urllib.urlparse absolute_url)).

(** the loop of [get_links_from_page] over all the anchors *)
Fixpoint filter_links (u : string) (hrefs : list string)
    (acc : list string) : M (list string) :=
  match hrefs with
  | [] => ret acc
  | href :: hrefs' =>
      absolute_url <- urljoin u href ;
      let clean_url := clean absolute_url in
      if Str.truthy clean_url && negb (String.eqb clean_url u) then
        valid <- is_valid_url clean_url ;
        if valid then
          same <- is_same_domain clean_url ;
          filter_links u hrefs' (if same then (acc ++ [clean_url])%list else acc)
        else filter_links u hrefs' acc
      else filter_links u hrefs' acc
  end.

(** deduplicate, keeping the first of each *)
Fixpoint unique (seen : gset string) (ls : list string) : list string :=
  match ls with
  | [] => []
  | link :: ls' =>
      if bool_decide (link ∈ seen) then unique seen ls'
      else link :: unique (seen ∪ {[ link ]}) ls'
  end.

Definition get_links_from_page (u : string) : M (list string) :=
  try_except
    (response <- send Links
       {| req_method := GET; req_url := u; req_timeout := 10 |} ;
     _ <- raise_for_status response ;
     if negb (is_html response) then ret []
     else
       ls <- filter_links u (anchors (content response)) [] ;
       ret (unique ∅ ls))
    is_RequestException
    (fun _ => ret []).

(** the inner [try] of [crawl]: HEAD, and GET when HEAD fails *)
Definition test_start_url : M Z :=
  try_except
    (test_response <- send Probe
       {| req_method := HEAD; req_url := start_url cfg; req_timeout := 10 |} ;
     let status := status_code test_response in
     if (400 <=? status) || (status =? 405) then raise PlainException
     else ret status)
    any_exception
    (fun _ =>
       r <- send Probe
         {| req_method := GET; req_url := start_url cfg; req_timeout := 10 |} ;
       ret (status_code r)).

(** the outer [try] of [crawl]; [false] when [crawl] returns there *)
Definition check_start_url : M bool :=
  try_except
    (_ <- test_start_url ;
     ok <- can_fetch (start_url cfg) ;
     if negb ok then
       if respect_robots cfg then ret false else ret true
     else ret true)
    any_exception
    (fun _ => ret true).

(** the wait before a request to [domain], and the time it starts *)
Definition rate_limit (domain : string) (crawl_delay : float)
    (last : gmap string Q) : M (gmap string Q) :=
  _ <- match last !! domain with
       | Some t =>
           st <- get ;
           let time_since_last := (now st - t)%Q in
           if Float.ltb (Fin time_since_last) crawl_delay then
             sleep (Float.sub crawl_delay (Fin time_since_last))
           else ret tt
       | None => ret tt
       end ;
  st <- get ;
  ret (<[domain := now st]> last).

(** [for link in links: if link not in self.visited_urls: queue.append] *)
Definition enqueue (visited : gset string) (depth : Z)
    (ls : list string) (q : list (string * Z)) : list (string * Z) :=
  (q ++ ((fun link => (link, depth + 1)) <$>
         filter (fun link => link ∉ visited) ls))%list.

(** the three [continue]s at the top of the loop body: the entry is
    skipped when it is visited already, too deep, or out of scope *)
Definition skip_entry (current_url : string) (depth : Z) : M bool :=
  st <- get ;
  if bool_decide (current_url ∈ visited_urls st) then ret true
  else if max_depth cfg <? depth then ret true
  else
    same <- is_same_domain current_url ;
    ret (negb same).

(** [if data:] and what follows: the page is recorded and, above the
    depth limit, its links are queued *)
Definition harvest (current_url : string) (depth : Z) (fr : frontier)
    (last : gmap string Q) (data : option page_data) : M frontier :=
  match data with
  | Some data =>
      _ <- modify (with_scraped (fun l => (l ++ [data])%list)) ;
      if depth <? max_depth cfg then
        ls <- get_links_from_page current_url ;
        st <- get ;
        ret {| queue := enqueue (visited_urls st) depth ls (queue fr);
               last_request_time := last |}
      else ret {| queue := queue fr; last_request_time := last |}
  | None => ret {| queue := queue fr; last_request_time := last |}
  end.

(** the loop body after the three checks *)
Definition visit (current_url : string) (depth : Z)
    (fr : frontier) : M frontier :=
  _ <- modify (with_visited (fun v => v ∪ {[ current_url ]})) ;
  let domain := netloc_of current_url in
  crawl_delay <- get_crawl_delay current_url ;
  last <- rate_limit domain crawl_delay (last_request_time fr) ;
  data <- scrape_url current_url ;
  harvest current_url depth fr last data.

(** the body of the [while] loop, after [popleft] *)
Definition crawl_step (current_url : string) (depth : Z)
    (fr : frontier) : M frontier :=
  skip <- skip_entry current_url depth ;
  if skip then ret fr else visit current_url depth fr.

(** [while queue:], for at most [fuel] entries *)
Fixpoint crawl_loop (fuel : nat) (fr : frontier) : M frontier :=
  match fuel with
  | O => ret fr
  | S fuel' =>
      match queue fr with
      | [] => ret fr
      | (current_url, depth) :: rest =>
          fr' <- crawl_step current_url depth
                   {| queue := rest;
                      last_request_time := last_request_time fr |} ;
          crawl_loop fuel' fr'
      end
  end.

(** [crawl]: [None] when it returns before the queue is made; a
    frontier with an empty queue when the loop has run to its end *)
Definition crawl (fuel : nat) : M (option frontier) :=
  go <- check_start_url ;
  if go then
    fr <- crawl_loop fuel
            {| queue := [(start_url cfg, 0)]; last_request_time := ∅ |} ;
    ret (Some fr)
  else ret None.

End WebScraper.

(** * The vocabulary of the properties *)

(** what holds of the outcome of a computation, returned or raised *)
Definition post {A} (r : Result A) (K : A → state → Prop)
    (E : exn → state → Prop) : Prop :=
  match r with
  | Ret a st => K a st
  | Raise e st => E e st
  end.

(** [m] takes every state to one related to it by [R], whether it
    returns or raises *)
Definition respects (R : state → state → Prop) {A} (m : M A) : Prop :=
  ∀ st, R st (final (m st)).

(** ** How the state moves *)

Section Relations.

Context (cfg : config).

(** the scope guard's state moves one way, and stays within the budget
    once it is within it *)
Record scope_le (st st' : state) : Prop := {
  hops_le : max_external_hops st ≤ max_external_hops st';
  hops_bound :
    max_external_hops st ≤ external_links_depth cfg →
    max_external_hops st' ≤ external_links_depth cfg;
  domains_le : current_domains st ⊆ current_domains st';
}.

(** what every step of a session does: the scope guard moves one way,
    the robots cache keeps its entries, requests are added, and the
    added ones satisfy [P]; no URL leaves the visited set *)
Record evolves (P : event → Prop) (st st' : state) : Prop := {
  ev_scope : scope_le st st';
  ev_robots : robots_cache st ⊆ robots_cache st';
  ev_sent : ∃ new, sent st' = (new ++ sent st)%list ∧ Forall P new;
  ev_visited : visited_urls st ⊆ visited_urls st';
}.

(** the same, for the steps that leave the visited set and the results
    alone *)
Record grows (P : event → Prop) (st st' : state) : Prop := {
  grows_visited : visited_urls st' = visited_urls st;
  grows_scraped : scraped_data st' = scraped_data st;
  grows_evolves : evolves P st st';
}.

End Relations.

(** nothing but a robots.txt request is sent *)
Definition robots_event (e : event) : Prop := ev_purpose e = Robots.

(** the scope check sends nothing *)
Definition no_event (_ : event) : Prop := False.

(** anything may be sent *)
Definition any_event (_ : event) : Prop := True.

(** ** The pattern filter, by the words of the specification *)

(** a piece of a wildcard matches a character: [?] any character, a
    character itself, a bracket expression the characters of its
    ranges, or with [!] the others, all without regard to case *)
Definition glob_char (x : Re.single) (a : ascii) : Prop :=
  match x with
  | Re.Dot => True
  | Re.Chr c => Str.lower_char c = Str.lower_char a
  | Re.Never => False
  | Re.In negate items =>
      (∃ lo hi c,
         (lo, hi) ∈ items ∧
         (N_of_ascii lo ≤ N_of_ascii c ≤ N_of_ascii hi)%N ∧
         Str.lower_char c = Str.lower_char a)
      ↔ negate = false
  end.

(** a wildcard, in pieces, matches a whole string: [*] is any run of
    characters, each other piece one character *)
Inductive glob_match : list Fnmatch.piece → string → Prop :=
| glob_nil : glob_match [] ""
| glob_one x a p s :
    glob_char x a → glob_match p s →
    glob_match (Fnmatch.Fixed x :: p) (String a s)
| glob_star_none p s :
    glob_match p s → glob_match (Fnmatch.STAR :: p) s
| glob_star_more a p s :
    glob_match (Fnmatch.STAR :: p) s →
    glob_match (Fnmatch.STAR :: p) (String a s).

(** exclude first; then, when there are include patterns, one of them
    must match *)
Definition pattern_filter (cfg : config) (u : string) : bool :=
  if existsb (fun p => Re.search p u) (exclude_patterns cfg) then false
  else if bool_decide (include_patterns cfg = []) then true
  else existsb (fun p => Re.search p u) (include_patterns cfg).

(** ** Admission *)

Section Admission.

Context (cfg : config).

(** robots.txt disallows [u]: the policy cached for its domain says so *)
Definition robots_disallows (st : state) (u : string) : Prop :=
  respect_robots cfg = true ∧
  ∃ rp, robots_cache st !! netloc_of u = Some (Some rp) ∧
        rp_can_fetch rp (user_agent cfg) u = false.

(** the robots check has been made for [u] and has passed: the policy of
    its domain is cached and allows it, or there is none to be had *)
Definition cleared (st : state) (u : string) : Prop :=
  respect_robots cfg = false ∨
  ∃ policy, robots_cache st !! netloc_of u = Some policy ∧
            match policy with
            | Some rp => rp_can_fetch rp (user_agent cfg) u = true
            | None => True
            end.

(** the scope guard lets [u] through without spending anything *)
Definition in_scope (st : state) (u : string) : Prop :=
  netloc_of u = start_domain cfg ∨
  (allow_exit cfg = true ∧ netloc_of u ∈ current_domains st).

(** [u] came out of the canonicalizer *)
Definition canonical (u : string) : Prop :=
  ∃ absolute_url, u = clean absolute_url.

(** the whole admission decision, as it stands in state [st] *)
Record admitted (st : state) (u : string) : Prop := {
  adm_canonical : canonical u;
  adm_patterns : pattern_filter cfg u = true;
  adm_robots : cleared st u;
  adm_scope : in_scope st u;
}.

(** a request for a page: the fetch of [scrape_url] or the one of
    [get_links_from_page] *)
Definition page_request (e : event) : Prop :=
  ev_purpose e = Scrape ∨ ev_purpose e = Links.

(** what holds of the session between two turns of the loop *)
Record crawl_inv (st : state) : Prop := {
  inv_nodup : NoDup (url <$> scraped_data st);
  inv_visited : ∀ d, d ∈ scraped_data st → url d ∈ visited_urls st;
  inv_results :
    ∀ d, d ∈ scraped_data st →
         url d = start_url cfg ∨ admitted st (url d);
  inv_requests :
    ∀ e, e ∈ sent st → page_request e →
         req_method (ev_request e) = GET ∧
         (req_url (ev_request e) = start_url cfg ∨
          admitted st (req_url (ev_request e)));
}.

(** and of an entry of the queue: the seed at depth 0, or below it a
    link that was admitted when it was found *)
Definition entry_ok (st : state) (u : string) (d : Z) : Prop :=
  (u = start_url cfg ∧ d = 0) ∨ (0 < d ∧ admitted st u).

Definition queue_inv (st : state) (q : list (string * Z)) : Prop :=
  ∀ u d, (u, d) ∈ q → entry_ok st u d.

End Admission.

(** the requests [scrape_url u] and [get_links_from_page u] may send *)
Definition scrape_event (u : string) (e : event) : Prop :=
  ev_purpose e = Scrape ∧
  ev_request e = {| req_method := GET; req_url := u; req_timeout := 15 |}.

Definition links_event (u : string) (e : event) : Prop :=
  ev_purpose e = Robots ∨
  (ev_purpose e = Links ∧
   ev_request e = {| req_method := GET; req_url := u; req_timeout := 10 |}).

Definition probe_event (e : event) : Prop :=
  ev_purpose e = Robots ∨ ev_purpose e = Probe.

(** the request [scrape_url u] sends, at time [t] *)
Definition scrape_request (t : Q) (u : string) : event :=
  {| ev_time := t; ev_purpose := Scrape;
     ev_request := {| req_method := GET; req_url := u; req_timeout := 15 |} |}.

(** ** The rate limiter *)

Section Spacing.

Context (cfg : config).

Definition is_scrape (e : event) : Prop := ev_purpose e = Scrape.

Definition event_domain (e : event) : string :=
  netloc_of (req_url (ev_request e)).

(** the delay of a domain: the default delay, or the robots-declared
    delay if greater *)
Definition effective_delay (st : state) (domain : string) : float :=
  match domain_delays st !! domain with
  | Some d => Float.max (delay cfg) (Fin d)
  | None => delay cfg
  end.

(** the robots policy of the domain has been asked for, or none ever
    is *)
Definition settled (st : state) (domain : string) : Prop :=
  respect_robots cfg = false ∨ is_Some (robots_cache st !! domain).

(** the delay of a settled domain stays what it is *)
Record keeps_delays (st st' : state) : Prop := {
  kd_robots : robots_cache st ⊆ robots_cache st';
  kd_delays :
    ∀ domain, settled st domain →
              domain_delays st' !! domain = domain_delays st !! domain;
}.

(** the time of the last scrape of each domain is on record *)
Definition stamped (last : gmap string Q) (st : state) : Prop :=
  ∀ e, e ∈ sent st → is_scrape e →
       ∃ t, last !! event_domain e = Some t ∧ (ev_time e <= t)%Q.

(** two scrapes of one domain start at least the effective delay of the
    domain apart, and the domain is settled by the second *)
Definition spaced (st : state) : Prop :=
  ∀ later e2 earlier e1,
    sent st = (later ++ e2 :: earlier)%list → e1 ∈ earlier →
    is_scrape e1 → is_scrape e2 → event_domain e1 = event_domain e2 →
    settled st (event_domain e2) ∧
    Float.le (Float.add (Fin (ev_time e1)) (effective_delay st (event_domain e2)))
      (Fin (ev_time e2)).

(** the queue holds the seed alone, before any scrape, or links that
    were admitted *)
Definition frontier_inv (st : state) (q : list (string * Z)) : Prop :=
  (q = [(start_url cfg, 0)] ∧ ∀ e, e ∈ sent st → ¬ is_scrape e) ∨
  (∀ u d, (u, d) ∈ q → 0 < d ∧ admitted cfg st u).

End Spacing.

(** * Example sites *)

Definition allow_all : RobotFileParser :=
  {| rp_can_fetch := fun _ _ => true; rp_crawl_delay := fun _ => None |}.

(** an HTML page with the given anchors, served in [secs] seconds *)
Definition html_page (hrefs : list string) (secs : Q) : reply :=
  {| outcome := inr {| status_code := 200;
                       content_type := "text/html; charset=utf-8";
                       content := {| anchors := hrefs; robots := Some allow_all |} |};
     elapsed := secs |}.

(** a robots.txt with the given rules *)
Definition robots_txt (rp : RobotFileParser) (secs : Q) : reply :=
  {| outcome := inr {| status_code := 200; content_type := "text/plain";
                       content := {| anchors := []; robots := Some rp |} |};
     elapsed := secs |}.

(** a reply with a status and no content *)
Definition bare (code : Z) (secs : Q) : reply :=
  {| outcome := inr {| status_code := code; content_type := "text/html";
                       content := {| anchors := []; robots := Some allow_all |} |};
     elapsed := secs |}.

Definition failing (e : exn) (secs : Q) : reply :=
  {| outcome := inl e; elapsed := secs |}.

Definition basic_config (seed : string) : config :=
  {| start_url := seed; allow_exit := false; external_links_depth := 0;
     max_depth := 3; delay := Fin 1; respect_robots := true; user_agent := "*";
     exclude_patterns := []; include_patterns := [] |}.

(** ** A site that asks for five seconds between requests

    robots.txt: [User-agent: *], [Crawl-delay: 5]; the start page links
    to [/b]; default delay 1.0 *)

Definition slow_site : network := fun _ r =>
  if String.eqb (req_url r) "http://slow.example/robots.txt" then
    robots_txt {| rp_can_fetch := fun _ _ => true;
                  rp_crawl_delay := fun _ => Some 5 |} (1 # 10)
  else if String.eqb (req_url r) "http://slow.example/" then
    html_page ["http://slow.example/b"] (1 # 10)
  else html_page [] (1 # 10).

Definition slow_config : config := basic_config "http://slow.example/".

(** ** A budget below zero

    [WebScraper(url, allow_exit=True, external_links_depth=-1)], which
    [main] lets through as [--allow-exit --external-links-depth -1] *)

Definition lone_site : network := fun _ r =>
  if String.eqb (req_url r) "http://a.example/" then html_page [] (1 # 10)
  else bare 404 (1 # 10).

Definition negative_budget : config :=
  {| start_url := "http://a.example/"; allow_exit := true;
     external_links_depth := -1; max_depth := 3; delay := Fin 1;
     respect_robots := true; user_agent := "*";
     exclude_patterns := []; include_patterns := [] |}.

(** ** A wildcard without a leading star

    [--exclude /private] *)

Definition exclude_private : config :=
  {| start_url := "http://a.example/"; allow_exit := false;
     external_links_depth := 0; max_depth := 3; delay := Fin 1;
     respect_robots := false; user_agent := "*";
     exclude_patterns := [wildcard_to_regex "/private"];
     include_patterns := [] |}.

(** ** A page with one link, every reply a tenth of a second away *)

Definition quick_site : network := fun _ r =>
  if String.eqb (req_url r) "http://a.example/" then
    html_page ["http://a.example/b"] (1 # 10)
  else if String.eqb (req_url r) "http://a.example/b" then
    html_page [] (1 # 10)
  else bare 404 (1 # 10).

(** ** An excluded link to another domain, before an allowed one

    [--allow-exit --external-links-depth 1 --exclude "*ads*"] *)

Definition ads_site : network := fun _ r =>
  if String.eqb (req_url r) "http://a.example/" then
    html_page ["http://ads.example/track"; "http://b.example/"] (1 # 10)
  else if String.eqb (req_url r) "http://b.example/" then
    html_page [] (1 # 10)
  else bare 404 (1 # 10).

Definition one_hop_no_ads : config :=
  {| start_url := "http://a.example/"; allow_exit := true;
     external_links_depth := 1; max_depth := 3; delay := Fin 1;
     respect_robots := true; user_agent := "*";
     exclude_patterns := [wildcard_to_regex "*ads*"];
     include_patterns := [] |}.

(** ** A page whose fifty-first anchor does not parse

    [<a href="http://[bad">] after fifty links to [/p] *)

Definition long_page_site : network := fun _ r =>
  if String.eqb (req_url r) "http://a.example/" then
    html_page (replicate 50 "http://a.example/p" ++ ["http://[bad"])%list (1 # 10)
  else if String.eqb (req_url r) "http://a.example/p" then
    html_page [] (1 # 10)
  else bare 404 (1 # 10).

(** ** A seed with a query, and a link to the same page with another *)

Definition paged_site : network := fun _ r =>
  if String.prefix "http://a.example/" (req_url r)
     && negb (String.eqb (req_url r) "http://a.example/robots.txt")
  then html_page ["http://a.example/?page=2"] (1 # 10)
  else bare 404 (1 # 10).

Definition paged_config : config := basic_config "http://a.example/?page=1".

(** ** A site that disallows everything

    robots.txt: [User-agent: *], [Disallow: /]; the server answers HEAD
    with 405 *)

Definition disallow_all : RobotFileParser :=
  {| rp_can_fetch := fun _ _ => false; rp_crawl_delay := fun _ => None |}.

Definition forbidden_site : network := fun _ r =>
  if String.eqb (req_url r) "http://a.example/robots.txt" then
    robots_txt disallow_all (1 # 10)
  else
    match req_method r with
    | HEAD => bare 405 (1 # 10)
    | GET => html_page ["http://a.example/more"] (1 # 10)
    end.

(** the same site when its first two replies are lost: HEAD fails, and
    the GET of the probe times out *)
Definition flaky_forbidden_site : network := fun n r =>
  match n with
  | 0%nat => failing ConnectionError 1
  | 1%nat => failing Timeout 10
  | _ => forbidden_site n r
  end.

(** ** Excluding everything

    [--exclude "*"] *)


(** * More vocabulary: the history by purpose, pages, the end of a crawl *)

#[global] Instance purpose_eq_dec : EqDecision purpose.
Proof. solve_decision. Defined.

(** the URLs requested for [why], newest first *)
Definition urls_for (why : purpose) (evs : list event) : list string :=
  (fun e => req_url (ev_request e)) <$>
  filter (fun e => ev_purpose e = why) evs.

Definition requested (why : purpose) (st : state) : list string :=
  urls_for why (sent st).

(** the request [get_links_from_page u] sends, at time [t] *)
Definition links_request (t : Q) (u : string) : event :=
  {| ev_time := t; ev_purpose := Links;
     ev_request := {| req_method := GET; req_url := u; req_timeout := 10 |} |}.

(** what [scrape_url u] returns when it returns a page: the page of [u],
    with a status that [raise_for_status] lets through, and of the first
    fifty anchors those the scope guard let through *)
Record page_of (cfg : config) (st : state) (u : string) (p : page_data) : Prop := {
  page_url : url p = u;
  page_domain : domain p = netloc_of u;
  page_status : ∃ c, status p = Some c ∧ (c < 400 ∨ 600 ≤ c);
  page_links_count : (length (links p) ≤ 50)%nat;
  page_links_scope : ∀ l, l ∈ links p → in_scope cfg st l;
}.

(** the crawl has come to its end: it returned before the loop, the loop
    has emptied the queue, or an exception has ended it *)
Definition finished (r : Result (option frontier)) : Prop :=
  match r with
  | Ret (Some fr) _ => queue fr = []
  | Ret None _ => True
  | Raise _ _ => True
  end.

(** every request of link extraction comes directly after the scrape of
    the same URL (the history is newest first) *)
Fixpoint links_follow (evs : list event) : Prop :=
  match evs with
  | [] => True
  | e :: earlier =>
      (ev_purpose e = Links →
       ∃ t, head earlier = Some (scrape_request t (req_url (ev_request e)))) ∧
      links_follow earlier
  end.

(** the books of a crawl: what was requested, what was visited and what
    was recorded agree *)
Record ledger (cfg : config) (st : state) : Prop := {
  led_scrapes : NoDup (requested Scrape st);
  led_visited : ∀ u, u ∈ requested Scrape st → u ∈ visited_urls st;
  led_links : NoDup (requested Links st);
  led_recorded : ∀ u, u ∈ requested Links st → u ∈ url <$> scraped_data st;
  led_results : ∀ p, p ∈ scraped_data st → url p ∈ visited_urls st;
  led_pages : ∀ p, p ∈ scraped_data st → page_of cfg st (url p) p;
  led_follow : links_follow (sent st);
}.

(** every visited URL has been scraped *)
Definition all_scraped (st : state) : Prop :=
  ∀ u, u ∈ visited_urls st → u ∈ requested Scrape st.

(** every visited URL but one, at most *)
Definition all_scraped_but_one (st : state) : Prop :=
  ∃ missed, ∀ u, u ∈ visited_urls st → u ∈ requested Scrape st ∨ u = missed.

(** the loop has come to its end *)
Definition emptied (r : Result frontier) : Prop :=
  match r with
  | Ret fr _ => queue fr = []
  | Raise _ _ => True
  end.

(** the levels the depth limit leaves below an entry of depth [d] *)
Definition levels_left (cfg : config) (d : Z) : nat :=
  Z.to_nat (max_depth cfg + 1 - d).



(** ** The scope guard's books *)

(** the count of hops is the number of admitted domains beside the start
    domain *)
Definition counted (cfg : config) (st : state) : Prop :=
  start_domain cfg ∈ current_domains st ∧
  Z.of_nat (size (current_domains st)) = max_external_hops st + 1.

(** once the budget is spent the scope guard's state stays as it is *)
Definition frozen (cfg : config) (st st' : state) : Prop :=
  external_links_depth cfg ≤ max_external_hops st →
  max_external_hops st' = max_external_hops st ∧
  current_domains st' = current_domains st.

(** ** The robots cache's books *)

(** the delay [get_robots_parser] records for a policy *)
Definition declared_delay (cfg : config) (policy : option RobotFileParser) : option Q :=
  match policy with
  | Some rp =>
      match rp_crawl_delay rp (user_agent cfg) with
      | Some c => if c =? 0 then None else Some (inject_Z c)
      | None => None
      end
  | None => None
  end.



Record robots_book (cfg : config) (st : state) : Prop := {
  book_once : NoDup (requested Robots st);
  book_cached :
    ∀ u, u ∈ requested Robots st ↔
         ∃ d, u = robots_url cfg d ∧ is_Some (robots_cache st !! d);
  book_delays :
    ∀ d, domain_delays st !! d =
         policy ← robots_cache st !! d; declared_delay cfg policy;
  book_off : respect_robots cfg = false → robots_cache st = ∅;
}.

(** ** print_summary

    [print_summary] as the figures it prints: nothing when nothing was
    scraped.  The count of images is left out with the images, and the
    text with its layout. *)

Record summary := {
  pages_scraped : nat;               (* len(self.scraped_data) *)
  urls_visited : nat;                (* len(self.visited_urls) *)
  domains_scraped : gset string;     (* set(item['domain'] ...) *)
  total_links : nat;                 (* sum(len(item['links']) ...) *)
  robots_compliance : bool;
  custom_delays : option (gmap string Q);   (* if self.domain_delays: *)
}.

Definition print_summary (cfg : config) (st : state) : option summary :=
  match scraped_data st with
  | [] => None
  | _ =>
      Some {| pages_scraped := length (scraped_data st);
              urls_visited := size (visited_urls st);
              domains_scraped := list_to_set (domain <$> scraped_data st);
              total_links :=
                foldr (fun item n => (length (links item) + n)%nat) 0%nat
                  (scraped_data st);
              robots_compliance := respect_robots cfg;
              custom_delays :=
                if decide (domain_delays st = ∅) then None
                else Some (domain_delays st) |}
  end.

(** ** More example configurations *)

(** [--depth 0] *)
Definition depth_zero (seed : string) : config :=
  {| start_url := seed; allow_exit := false; external_links_depth := 0;
     max_depth := 0; delay := Fin 1; respect_robots := true; user_agent := "*";
     exclude_patterns := []; include_patterns := [] |}.

(** ** URLs *)

(** a scheme as [urlsplit] returns it: in lower case, a letter first *)
Definition is_scheme (sch : string) : Prop :=
  (∃ c0 s0, sch = String c0 s0 ∧ Str.is_alpha c0 = true) ∧
  Str.all Urllib.scheme_char sch = true ∧ Str.lower sch = sch.

(** ** The queue *)

(** the queue is in breadth-first order: the depths do not go down along
    it, they are at most two, one after the other, and every entry
    below the seed is within the depth limit *)
Record breadth_first (cfg : config) (q : list (string * Z)) : Prop := {
  bf_sorted : StronglySorted (fun a b => a.2 ≤ b.2) q;
  bf_levels : ∀ a b, a ∈ q → b ∈ q → b.2 ≤ a.2 + 1;
  bf_limit : ∀ a, a ∈ q → a.2 = 0 ∨ 0 < a.2 ≤ max_depth cfg;
}.

(** ** More example sites *)




(** a server that answers every request with 429 (Too Many Requests) *)
Definition busy_site : network := fun _ _ => bare 429 (1 # 10).

(** * Reasoning about the session *)


Lemma post_bind {A B} (m : M A) (k : A → M B) (st : state)
    (K : B → state → Prop) (E : exn → state → Prop) :
  post (m st) (fun a st' => post (k a st') K E) E → post (bind m k st) K E.
Proof. unfold bind. destruct (m st); simpl; auto. Qed.

Lemma post_try {A} (m : M A) (handles : exn → bool) (h : exn → M A) (st : state)
    (K : A → state → Prop) (E : exn → state → Prop) :
  post (m st) K (fun e st' => if handles e then post (h e st') K E else E e st' : Prop) →
  post (try_except m handles h st) K E.
Proof. unfold try_except. destruct (m st); simpl; auto. destruct (handles e); auto. Qed.

Lemma post_mono {A} (r : Result A) (K K' : A → state → Prop) (E E' : exn → state → Prop) :
  post r K E → (∀ a st, K a st → K' a st) → (∀ e st, E e st → E' e st) →
  post r K' E'.
Proof. destruct r; simpl; auto. Qed.




Section Respects.

Context (R : state → state → Prop) `{!Reflexive R} `{!Transitive R}.

Lemma respects_ret {A} (a : A) : respects R (ret a).
Proof. intros st. simpl. reflexivity. Qed.


Lemma respects_get : respects R get.
Proof. intros st. simpl. reflexivity. Qed.

Lemma respects_bind {A B} (m : M A) (k : A → M B) :
  respects R m → (∀ a, respects R (k a)) → respects R (bind m k).
Proof.
  intros Hm Hk st. unfold bind. specialize (Hm st).
  destruct (m st) as [a st'|e st']; simpl in *; [|done].
  etransitivity; [exact Hm | apply Hk].
Qed.

Lemma respects_try {A} (m : M A) handles (h : exn → M A) :
  respects R m → (∀ e, respects R (h e)) → respects R (try_except m handles h).
Proof.
  intros Hm Hh st. unfold try_except. specialize (Hm st).
  destruct (m st) as [a st'|e st']; simpl in *; [done|].
  destruct (handles e); [|done].
  etransitivity; [exact Hm | apply Hh].
Qed.


End Respects.

(** ** The footprint of the methods

    [get_robots_parser] changes the state by sending the request for
    robots.txt and caching the policy and its delay.  The other methods
    below [crawl] change it only through [get_robots_parser], by
    admitting an external domain, by sending their request and by
    sleeping.  A relation closed under these steps is respected by all
    of them. *)

Section Robots.

Context (net : network) (cfg : config).
Context (R : state → state → Prop) `{!Reflexive R} `{!Transitive R}.

Hypothesis R_cache : ∀ st d rp,
  respect_robots cfg = true → robots_cache st !! d = None →
  R st (with_robots (<[d := rp]> (robots_cache st)) (domain_delays st) st).

Hypothesis R_delay : ∀ st d rp crawl_delay,
  robots_cache st !! d = Some (Some rp) →
  rp_crawl_delay rp (user_agent cfg) = Some crawl_delay → crawl_delay ≠ 0 →
  R st (with_robots (robots_cache st)
          (<[d := inject_Z crawl_delay]> (domain_delays st)) st).

Hypothesis R_robots_txt : ∀ st r,
  req_method r = GET → R st (sending net Robots r st).

(** what [get_robots_parser] does for a domain it has not asked for:
    one request, and the policy, or the lack of one, goes to the cache
    with the delay it declares.  There is no policy when the request
    fails, when the status is not 200, when the rules do not parse and
    when the delay does not fit a float. *)
Lemma get_robots_parser_miss d st :
  respect_robots cfg = true → robots_cache st !! d = None →
  ∃ policy,
    get_robots_parser net cfg d st =
    Ret policy
      (with_robots (<[d := policy]> (robots_cache st))
         (match declared_delay cfg policy with
          | Some q => <[d := q]> (domain_delays st)
          | None => domain_delays st
          end)
         (sending net Robots
            {| req_method := GET; req_url := robots_url cfg d;
               req_timeout := 5 |} st)).
Proof.
  intros Hrr Hc. unfold get_robots_parser. rewrite Hrr. simpl.
  unfold bind at 1, get. rewrite Hc.
  unfold try_except, bind, send.
  destruct (outcome _) as [e|resp]; simpl; [by exists None|].
  destruct (status_code resp =? 200); simpl; [|by exists None].
  unfold parse_robots. destruct (robots (content resp)) as [rp|]; simpl;
    [|by exists None].
  destruct (rp_crawl_delay rp (user_agent cfg)) as [c|] eqn:Ec; simpl.
  2: { exists (Some rp). unfold declared_delay. by rewrite Ec. }
  destruct (c =? 0) eqn:Ez; simpl.
  { exists (Some rp). unfold declared_delay. by rewrite Ec, Ez. }
  unfold float_of_int, Float.of_int.
  destruct (Z.abs c <? 2 ^ 1024 - 2 ^ 970) eqn:Ef; simpl.
  - exists (Some rp). unfold declared_delay. by rewrite Ec, Ez.
  - exists None. simpl. by rewrite insert_insert_eq.
Qed.

Lemma get_robots_parser_respects domain :
  respects R (get_robots_parser net cfg domain).
Proof.
  intros st. case_eq (respect_robots cfg); intros Hrr.
  2: { unfold get_robots_parser. rewrite Hrr. simpl. reflexivity. }
  destruct (robots_cache st !! domain) as [rp|] eqn:Hc.
  { unfold get_robots_parser. rewrite Hrr. simpl. unfold bind, get.
    rewrite Hc. simpl. reflexivity. }
  destruct (get_robots_parser_miss domain st Hrr Hc) as (policy & ->). simpl.
  set (r := {| req_method := GET; req_url := _; req_timeout := 5 |}).
  assert (Hn : R st (with_robots (<[domain := policy]> (robots_cache st))
                       (domain_delays st) (sending net Robots r st))).
  { etransitivity; [by apply (R_robots_txt st r)|].
    by apply (R_cache (sending net Robots r st)). }
  unfold declared_delay. destruct policy as [rp|]; [|exact Hn].
  destruct (rp_crawl_delay rp (user_agent cfg)) as [c|] eqn:Ec; [|exact Hn].
  destruct (Z.eqb_spec c 0) as [|Hnz]; [exact Hn|].
  etransitivity; [exact Hn|].
  pose proof (R_delay (with_robots (<[domain := Some rp]> (robots_cache st))
                         (domain_delays st) (sending net Robots r st))
                domain rp c) as Hd.
  simpl in Hd. apply Hd; [apply lookup_insert_eq|done|done].
Qed.

End Robots.

Section Footprint.

Context (net : network) (cfg : config).
Context (R : state → state → Prop) `{!Reflexive R} `{!Transitive R}.

Hypothesis R_scope : ∀ st d,
  allow_exit cfg = true → d ≠ start_domain cfg → d ∉ current_domains st →
  max_external_hops st < external_links_depth cfg →
  R st (with_scope (max_external_hops st + 1) (current_domains st ∪ {[ d ]}) st).

Hypothesis R_robots : ∀ domain, respects R (get_robots_parser net cfg domain).

Hypothesis R_sleep : ∀ st secs,
  (0 <= secs)%Q → R st (with_world (now st + secs) (sent st) st).

Lemma can_fetch_respects u : respects R (can_fetch net cfg u).
Proof.
  unfold can_fetch. case (respect_robots cfg); simpl.
  - apply respects_bind; [done|apply R_robots|].
    intros [rp|]; by apply respects_ret.
  - by apply respects_ret.
Qed.

Lemma get_crawl_delay_respects u : respects R (get_crawl_delay cfg u).
Proof.
  intros st. unfold get_crawl_delay, bind, get.
  destruct (domain_delays st !! _); simpl; reflexivity.
Qed.

Lemma is_valid_url_respects u : respects R (is_valid_url net cfg u).
Proof.
  unfold is_valid_url. apply respects_bind; [done|apply can_fetch_respects|].
  intros ok. destruct ok; simpl; [|by apply respects_ret].
  destruct (existsb _ _); [by apply respects_ret|].
  destruct (include_patterns cfg); by apply respects_ret.
Qed.

Lemma is_same_domain_respects u : respects R (is_same_domain cfg u).
Proof.
  intros st. unfold is_same_domain.
  destruct (String.eqb_spec (netloc_of u) (start_domain cfg)) as [|Hne];
    simpl; [reflexivity|].
  case_eq (allow_exit cfg); intros Hexit; simpl; [|reflexivity].
  unfold bind at 1, get.
  destruct (bool_decide_reflect (netloc_of u ∈ current_domains st)) as [|Hnin];
    simpl; [reflexivity|].
  destruct (Z.ltb_spec (max_external_hops st) (external_links_depth cfg));
    simpl; [|reflexivity].
  by apply R_scope.
Qed.

Lemma urljoin_respects base href : respects R (urljoin base href).
Proof. unfold urljoin. destruct (Urllib.valid href); intros st; simpl; reflexivity. Qed.

Lemma extract_links_respects u hrefs acc :
  respects R (extract_links cfg u hrefs acc).
Proof.
  revert acc. induction hrefs as [|href hrefs IH]; intros acc; simpl.
  - by apply respects_ret.
  - apply respects_bind; [done|apply urljoin_respects|]. intros a.
    apply respects_bind; [done|apply is_same_domain_respects|]. intros ok.
    apply IH.
Qed.

Lemma extract_data_respects soup u : respects R (extract_data cfg soup u).
Proof.
  unfold extract_data. apply respects_bind; [done|apply extract_links_respects|].
  intros ls. by apply respects_ret.
Qed.

Lemma filter_links_respects u hrefs acc :
  respects R (filter_links net cfg u hrefs acc).
Proof.
  revert acc. induction hrefs as [|href hrefs IH]; intros acc; simpl.
  - by apply respects_ret.
  - apply respects_bind; [done|apply urljoin_respects|]. intros a.
    destruct (_ && _); [|apply IH].
    apply respects_bind; [done|apply is_valid_url_respects|]. intros valid.
    destruct valid; [|apply IH].
    apply respects_bind; [done|apply is_same_domain_respects|]. intros same.
    apply IH.
Qed.

Lemma sleep_respects secs : respects R (sleep secs).
Proof.
  intros st. unfold sleep. destruct secs as [q| | |]; simpl; try reflexivity.
  destruct (Qlt_le_dec time_max q); simpl; [reflexivity|].
  destruct (Qlt_le_dec q time_min); simpl; [reflexivity|].
  destruct (Qlt_le_dec q 0); simpl; [reflexivity|].
  by apply R_sleep.
Qed.

Lemma rate_limit_respects domain crawl_delay last :
  respects R (rate_limit domain crawl_delay last).
Proof.
  unfold rate_limit. apply respects_bind; [done| |].
  - destruct (last !! domain); [|by apply respects_ret].
    intros st. unfold bind, get. destruct (Float.ltb _ _); [|simpl; reflexivity].
    apply sleep_respects.
  - intros _. apply respects_bind; [done|by apply respects_get|].
    intros st. by apply respects_ret.
Qed.

Lemma raise_for_status_respects r : respects R (raise_for_status r).
Proof.
  unfold raise_for_status. destruct (_ && _); intros st; simpl; reflexivity.
Qed.

Lemma send_respects why r :
  (∀ st, R st (sending net why r st)) → respects R (send net why r).
Proof. intros H st. unfold send. destruct (outcome _); simpl; apply H. Qed.

Lemma scrape_url_respects u :
  (∀ st, R st (sending net Scrape
                 {| req_method := GET; req_url := u; req_timeout := 15 |} st)) →
  respects R (scrape_url net cfg u).
Proof.
  intros Hsend. unfold scrape_url.
  apply respects_try; [done| |intros; by apply respects_ret].
  apply respects_bind; [done|by apply send_respects|]. intros resp.
  destruct (status_code resp =? 429).
  - apply respects_bind; [done|apply sleep_respects|]. intros; by apply respects_ret.
  - apply respects_bind; [done|apply raise_for_status_respects|]. intros _.
    destruct (negb _); [by apply respects_ret|].
    apply respects_bind; [done|apply extract_data_respects|].
    intros; by apply respects_ret.
Qed.

Lemma get_links_from_page_respects u :
  (∀ st, R st (sending net Links
                 {| req_method := GET; req_url := u; req_timeout := 10 |} st)) →
  respects R (get_links_from_page net cfg u).
Proof.
  intros Hsend. unfold get_links_from_page.
  apply respects_try; [done| |intros; by apply respects_ret].
  apply respects_bind; [done|by apply send_respects|]. intros resp.
  apply respects_bind; [done|apply raise_for_status_respects|]. intros _.
  destruct (negb _); [by apply respects_ret|].
  apply respects_bind; [done|apply filter_links_respects|].
  intros; by apply respects_ret.
Qed.

Lemma check_start_url_respects :
  (∀ st r, req_url r = start_url cfg → R st (sending net Probe r st)) →
  respects R (check_start_url net cfg).
Proof.
  intros Hsend. unfold check_start_url.
  apply respects_try; [done| |intros; by apply respects_ret].
  apply respects_bind; [done| |].
  - unfold test_start_url. apply respects_try; [done| |].
    + apply respects_bind; [done|apply send_respects; intros; by apply Hsend|].
      intros resp. destruct (_ || _); intros st; simpl; reflexivity.
    + intros _. apply respects_bind; [done|apply send_respects; intros; by apply Hsend|].
      intros; by apply respects_ret.
  - intros _. apply respects_bind; [done|apply can_fetch_respects|].
    intros ok. destruct (negb ok); [case (respect_robots cfg)|]; by apply respects_ret.
Qed.

(** [crawl] itself also marks URLs visited, appends results and
    sends the requests for the pages *)

Hypothesis R_visited : ∀ st u, R st (with_visited (fun v => v ∪ {[ u ]}) st).
Hypothesis R_scraped : ∀ st d, R st (with_scraped (fun l => (l ++ [d])%list) st).
Hypothesis R_send : ∀ st why r, R st (sending net why r st).

Lemma skip_entry_respects u depth : respects R (skip_entry cfg u depth).
Proof.
  unfold skip_entry. apply respects_bind; [done|by apply respects_get|].
  intros st0. destruct (bool_decide _); [by apply respects_ret|].
  destruct (_ <? _); [by apply respects_ret|].
  apply respects_bind; [done|apply is_same_domain_respects|].
  intros; by apply respects_ret.
Qed.

Lemma harvest_respects u depth fr last data :
  respects R (harvest net cfg u depth fr last data).
Proof.
  unfold harvest. destruct data as [data|]; [|by apply respects_ret].
  apply respects_bind; [done|intros st; apply R_scraped|]. intros _.
  destruct (_ <? _); [|by apply respects_ret].
  apply respects_bind;
    [done|apply get_links_from_page_respects; intros; apply R_send|].
  intros ls. apply respects_bind; [done|by apply respects_get|].
  intros; by apply respects_ret.
Qed.

Lemma visit_respects u depth fr : respects R (visit net cfg u depth fr).
Proof.
  unfold visit.
  apply respects_bind; [done|intros st; apply R_visited|]. intros _.
  apply respects_bind; [done|apply get_crawl_delay_respects|]. intros cd.
  apply respects_bind; [done|apply rate_limit_respects|]. intros last.
  apply respects_bind; [done|apply scrape_url_respects; intros; apply R_send|].
  intros data. apply harvest_respects.
Qed.

Lemma crawl_step_respects u depth fr :
  respects R (crawl_step net cfg u depth fr).
Proof.
  unfold crawl_step. apply respects_bind; [done|apply skip_entry_respects|].
  intros skip. destruct skip; [by apply respects_ret|apply visit_respects].
Qed.

Lemma crawl_loop_respects fuel fr : respects R (crawl_loop net cfg fuel fr).
Proof.
  revert fr. induction fuel as [|fuel IH]; intros fr; simpl.
  - by apply respects_ret.
  - destruct (queue fr) as [|[u d] rest]; [by apply respects_ret|].
    apply respects_bind; [done|apply crawl_step_respects|]. intros fr'. apply IH.
Qed.

Lemma crawl_respects fuel : respects R (crawl net cfg fuel).
Proof.
  unfold crawl.
  apply respects_bind; [done|apply check_start_url_respects; intros; apply R_send|].
  intros go. destruct go; [|by apply respects_ret].
  apply respects_bind; [done|apply crawl_loop_respects|].
  intros; by apply respects_ret.
Qed.

End Footprint.


Section Relations.

Context (cfg : config).


Global Instance scope_le_refl : Reflexive (scope_le cfg).
Proof. intros st. split; [lia|done|done]. Qed.

Global Instance scope_le_trans : Transitive (scope_le cfg).
Proof.
  intros a b c [] []. split; [lia|auto|]. etransitivity; eauto.
Qed.

Global Instance evolves_refl P : Reflexive (evolves cfg P).
Proof. intros st. split; [reflexivity|done|by exists []|done]. Qed.

Global Instance evolves_trans P : Transitive (evolves cfg P).
Proof.
  intros a b c [? ? (n1 & E1 & F1) ?] [? ? (n2 & E2 & F2) ?].
  split; [by etransitivity|by etransitivity| |by etransitivity].
  exists (n2 ++ n1)%list. split; [by rewrite E2, E1, app_assoc|].
  by apply Forall_app.
Qed.

Global Instance grows_refl P : Reflexive (grows cfg P).
Proof. intros st. split; [done|done|reflexivity]. Qed.

Global Instance grows_trans P : Transitive (grows cfg P).
Proof.
  intros a b c [E1 E2 ?] [E3 E4 ?].
  split; [congruence|congruence|by etransitivity].
Qed.

Lemma scope_le_same st st' :
  max_external_hops st' = max_external_hops st →
  current_domains st' = current_domains st → scope_le cfg st st'.
Proof. intros E1 E2. split; rewrite ?E1, ?E2; [lia|done|done]. Qed.

Lemma evolves_weaken (P P' : event → Prop) st st' :
  (∀ e, P e → P' e) → evolves cfg P st st' → evolves cfg P' st st'.
Proof.
  intros HP [? ? (new & E & F) ?]. split; [done|done| |done].
  exists new. split; [done|]. eapply Forall_impl; eauto.
Qed.


End Relations.

Section Steps.

Context (net : network) (cfg : config) (P : event → Prop).

Lemma grows_with_scope st d :
  allow_exit cfg = true → d ≠ start_domain cfg → d ∉ current_domains st →
  max_external_hops st < external_links_depth cfg →
  grows cfg P st
    (with_scope (max_external_hops st + 1) (current_domains st ∪ {[ d ]}) st).
Proof.
  intros _ _ _ Hlt. split; [done|done|]. split; [|done|by exists []|done].
  split; simpl; [lia|lia|set_solver].
Qed.

Lemma grows_with_cache st d rp :
  respect_robots cfg = true → robots_cache st !! d = None →
  grows cfg P st (with_robots (<[d := rp]> (robots_cache st)) (domain_delays st) st).
Proof.
  intros _ Hd. split; [done|done|].
  split; [by apply scope_le_same| |by exists []|done].
  simpl. by apply insert_subseteq.
Qed.

Lemma grows_with_delay st d rp crawl_delay :
  robots_cache st !! d = Some (Some rp) →
  rp_crawl_delay rp (user_agent cfg) = Some crawl_delay → crawl_delay ≠ 0 →
  grows cfg P st
    (with_robots (robots_cache st)
       (<[d := inject_Z crawl_delay]> (domain_delays st)) st).
Proof.
  intros _ _ _. split; [done|done|]. split; [by apply scope_le_same|done|by exists []|done].
Qed.

Lemma grows_sleep st secs :
  (0 <= secs)%Q → grows cfg P st (with_world (now st + secs) (sent st) st).
Proof.
  intros _. split; [done|done|]. split; [by apply scope_le_same|done|by exists []|done].
Qed.

Lemma grows_sending st why r :
  P {| ev_time := now st; ev_purpose := why; ev_request := r |} →
  grows cfg P st (sending net why r st).
Proof.
  intros HP. split; [done|done|]. split; [by apply scope_le_same|done| |done].
  eexists [_]. split; [done|]. by constructor.
Qed.

Lemma evolves_grows st st' : grows cfg P st st' → evolves cfg P st st'.
Proof. by intros []. Qed.

Lemma evolves_with_visited st u :
  evolves cfg P st (with_visited (fun v => v ∪ {[ u ]}) st).
Proof.
  split; [by apply scope_le_same|done|by exists []|].
  simpl. apply union_subseteq_l.
Qed.

Lemma evolves_with_scraped st f : evolves cfg P st (with_scraped f st).
Proof. split; [by apply scope_le_same|done|by exists []|done]. Qed.

End Steps.

Create HintDb footprint discriminated.
#[export] Hint Resolve grows_with_scope grows_with_cache grows_with_delay
  grows_sleep grows_sending evolves_grows evolves_with_visited
  evolves_with_scraped : footprint.
#[export] Hint Extern 1 (Reflexive _) => typeclasses eauto : footprint.
#[export] Hint Extern 1 (Transitive _) => typeclasses eauto : footprint.


Section Instances.

Context (net : network) (cfg : config).

Lemma get_robots_parser_grows (P : event → Prop) domain :
  (∀ e, robots_event e → P e) →
  respects (grows cfg P) (get_robots_parser net cfg domain).
Proof.
  intros HP.
  apply (get_robots_parser_respects net cfg (grows cfg P)); eauto with footprint.
  intros. apply grows_sending. by apply HP.
Qed.

Lemma get_robots_parser_evolves domain :
  respects (evolves cfg any_event) (get_robots_parser net cfg domain).
Proof.
  intros st. apply evolves_weaken with any_event; [done|].
  by apply evolves_grows, get_robots_parser_grows.
Qed.

Lemma is_same_domain_grows u st :
  grows cfg no_event st (final (is_same_domain cfg u st)).
Proof.
  apply (is_same_domain_respects cfg (grows cfg no_event)); eauto with footprint.
Qed.


Lemma is_valid_url_grows u st :
  grows cfg robots_event st (final (is_valid_url net cfg u st)).
Proof.
  apply (is_valid_url_respects net cfg (grows cfg robots_event));
    eauto with footprint.
  intros. by apply get_robots_parser_grows.
Qed.

End Instances.


Section Session.

Context (net : network) (cfg : config).

Local Ltac session_steps :=
  eauto with footprint;
  try (intros; apply evolves_grows; eauto with footprint; fail);
  try (intros; apply evolves_grows, grows_sending; done);
  try (intros; apply get_robots_parser_evolves).

Lemma crawl_step_evolves u depth fr st :
  evolves cfg any_event st (final (crawl_step net cfg u depth fr st)).
Proof.
  apply (crawl_step_respects net cfg (evolves cfg any_event)); session_steps.
Qed.

Lemma crawl_loop_evolves fuel fr st :
  evolves cfg any_event st (final (crawl_loop net cfg fuel fr st)).
Proof.
  apply (crawl_loop_respects net cfg (evolves cfg any_event)); session_steps.
Qed.

Lemma crawl_evolves fuel st :
  evolves cfg any_event st (final (crawl net cfg fuel st)).
Proof.
  apply (crawl_respects net cfg (evolves cfg any_event)); session_steps.
Qed.

End Session.

(** ** The delay between requests *)

Section Delay.

Context (net : network) (cfg : config).

Lemma get_crawl_delay_eq u st :
  get_crawl_delay cfg u st = Ret (effective_delay cfg st (netloc_of u)) st.
Proof.
  unfold get_crawl_delay, effective_delay, bind, get.
  by destruct (domain_delays st !! _).
Qed.

(** a wait that is due and fits is slept to its end *)
Lemma sleep_fits q st :
  (0 < q)%Q → (q <= time_max)%Q →
  sleep (Fin q) st = Ret tt (with_world (now st + q) (sent st) st).
Proof.
  intros Hpos Hfit. unfold sleep.
  destruct (Qlt_le_dec time_max q) as [H|_]; [exfalso; lra|].
  destruct (Qlt_le_dec q time_min) as [H|_].
  { exfalso. assert (time_min < 0)%Q by done. lra. }
  destruct (Qlt_le_dec q 0) as [H|_]; [exfalso; lra|done].
Qed.

(** the rate limiter, case by case: no wait before the first request to
    a domain, nor when the delay has passed, nor for a delay that is nan
    or minus infinity; else the wait for what is left of the delay, or
    [OverflowError] when [time.sleep] cannot take it *)
Lemma rate_limit_spec domain cd last st :
  rate_limit domain cd last st =
  match last !! domain with
  | Some t =>
      match cd with
      | Fin c =>
          if Qlt_le_dec (now st - t) c then
            if Qlt_le_dec time_max (c - (now st - t)) then Raise OverflowError st
            else
              let st' := with_world (now st + (c - (now st - t))) (sent st) st in
              Ret (<[domain := now st']> last) st'
          else Ret (<[domain := now st]> last) st
      | PInf => Raise OverflowError st
      | NInf | NaN => Ret (<[domain := now st]> last) st
      end
  | None => Ret (<[domain := now st]> last) st
  end.
Proof.
  unfold rate_limit. destruct (last !! domain) as [t|]; [|done].
  unfold bind at 1 2, get. destruct cd as [c| | |]; simpl; try done.
  destruct (Qlt_le_dec (now st - t) c) as [Hlt|Hge]; [|done].
  change (c + - (now st - t))%Q with (c - (now st - t))%Q.
  destruct (Qlt_le_dec time_max (c - (now st - t))) as [Hbig|Hfit]; [done|].
  destruct (Qlt_le_dec (c - (now st - t)) time_min) as [H|_].
  { exfalso. assert (time_min < 0)%Q by done. lra. }
  destruct (Qlt_le_dec (c - (now st - t)) 0) as [H|_]; [exfalso; lra|done].
Qed.

(** the rate limiter raises only when a wait is due, and leaves the
    state as it is then; when it returns it has sent and recorded
    nothing, it stamps the domain with the time, and the delay has
    passed since the stamp it found, unless the delay is nan *)
Lemma rate_limit_cases domain cd last st :
  (rate_limit domain cd last st = Raise OverflowError st ∧
   ∃ t, last !! domain = Some t ∧ Float.ltb (Fin (now st - t)) cd = true) ∨
  (∃ st', rate_limit domain cd last st = Ret (<[domain := now st']> last) st' ∧
          st' = with_world (now st') (sent st) st ∧
          (now st' = now st ∨
           ∃ t c, last !! domain = Some t ∧ cd = Fin c ∧
                  (now st < t + c)%Q ∧ (now st' == t + c)%Q) ∧
          ∀ t, last !! domain = Some t →
               cd = NaN ∨ Float.le (Float.add (Fin t) cd) (Fin (now st'))).
Proof.
  assert (Hst : st = with_world (now st) (sent st) st) by (by destruct st).
  rewrite rate_limit_spec. destruct (last !! domain) as [t|].
  2: { right. exists st. split; [done|]. split; [done|]. split; [by left|done]. }
  destruct cd as [c| | |]; simpl.
  - destruct (Qlt_le_dec (now st - t) c) as [Hlt|Hge].
    + destruct (Qlt_le_dec time_max (c - (now st - t))) as [Hbig|Hfit].
      * left. split; [done|]. exists t. split; [done|]. simpl.
        by destruct (Qlt_le_dec (now st - t) c); [|exfalso; lra].
      * right. exists (with_world (now st + (c - (now st - t))) (sent st) st).
        split; [done|]. split; [done|]. split.
        -- right. exists t, c. simpl. repeat split_and; try done; lra.
        -- intros ? [= <-]. right. simpl. lra.
    + right. exists st. split; [done|]. split; [done|]. split; [by left|].
      intros ? [= <-]. right. simpl. lra.
  - left. split; [done|]. by exists t.
  - right. exists st. split; [done|]. split; [done|]. split; [by left|].
    intros ? [= <-]. by right.
  - right. exists st. split; [done|]. split; [done|]. split; [by left|].
    intros ? [= <-]. by left.
Qed.

End Delay.

(** ** The scope guard *)

Section Scope.

Context (net : network) (cfg : config).

Lemma is_same_domain_known u st :
  netloc_of u ∈ current_domains st → final (is_same_domain cfg u st) = st.
Proof.
  intros Hin. unfold is_same_domain.
  destruct (String.eqb _ _); [done|]. destruct (allow_exit cfg); [|done].
  unfold bind, get. by rewrite bool_decide_true.
Qed.

Lemma is_same_domain_scope u st :
  scope_le cfg st (final (is_same_domain cfg u st)).
Proof. apply ev_scope with no_event, grows_evolves, is_same_domain_grows. Qed.

End Scope.

(** ** Wildcards and the pattern filter *)

Section Patterns.

Lemma append_nil_l (s : string) : "" +:+ s = s.
Proof. reflexivity. Qed.

Lemma append_cons a (s t : string) : String a s +:+ t = String a (s +:+ t).
Proof. reflexivity. Qed.

Lemma match_here_dotstar ic re s :
  Re.match_here ic (Re.DotStar :: re) s = true ↔
  ∃ pre suf, s = pre +:+ suf ∧ Re.match_here ic re suf = true.
Proof.
  induction s as [|a s IH].
  - cbn. rewrite orb_false_r. split.
    + intros H. by exists "", "".
    + intros (pre & suf & E & H). destruct pre; rewrite ?append_nil_l, ?append_cons in E; [|done]. by subst.
  - cbn. rewrite orb_true_iff. split.
    + intros [H|H].
      * by exists "", (String a s).
      * apply IH in H as (pre & suf & -> & H). by exists (String a pre), suf.
    + intros (pre & suf & E & H). destruct pre as [|b pre]; rewrite ?append_nil_l, ?append_cons in E.
      * left. by subst.
      * right. simplify_eq. apply IH. by exists pre, suf.
Qed.

Lemma search_from_spec ic re s :
  Re.search_from ic re s = true ↔
  ∃ pre suf, s = pre +:+ suf ∧ Re.match_here ic re suf = true.
Proof.
  induction s as [|a s IH]; simpl; rewrite orb_true_iff.
  - split.
    + intros [H|H]; [|done]. by exists "", "".
    + intros (pre & suf & E & H). destruct pre; rewrite ?append_nil_l, ?append_cons in E; [|done]. subst. by left.
  - split.
    + intros [H|H].
      * by exists "", (String a s).
      * apply IH in H as (pre & suf & -> & H). by exists (String a pre), suf.
    + intros (pre & suf & E & H). destruct pre as [|b pre]; rewrite ?append_nil_l, ?append_cons in E.
      * left. by subst.
      * right. simplify_eq. apply IH. by exists pre, suf.
Qed.

Lemma glob_match_star p s :
  glob_match (Fnmatch.STAR :: p) s ↔
  ∃ pre suf, s = pre +:+ suf ∧ glob_match p suf.
Proof.
  split.
  - intros H. remember (Fnmatch.STAR :: p) as q eqn:Eq.
    induction H as [|x a p' s Hc H IH|p' s H IH|a p' s H IH];
      try discriminate.
    + simplify_eq. by exists "", s.
    + destruct (IH Eq) as (pre & suf & -> & Hs).
      by exists (String a pre), suf.
  - intros (pre & suf & -> & H).
    induction pre as [|a pre IH]; rewrite ?append_nil_l, ?append_cons.
    + by apply glob_star_none.
    + by apply glob_star_more.
Qed.

Lemma append_assoc (a b c : string) : (a +:+ b) +:+ c = a +:+ (b +:+ c).
Proof.
  induction a as [|x a IH]; rewrite ?append_nil_l, ?append_cons; [done|].
  by rewrite IH.
Qed.

Lemma glob_match_nil s : glob_match [] s ↔ s = "".
Proof. split; [by inversion 1|intros ->; constructor]. Qed.

Lemma glob_match_fixed x p s :
  glob_match (Fnmatch.Fixed x :: p) s ↔
  ∃ a s', s = String a s' ∧ glob_char x a ∧ glob_match p s'.
Proof.
  split.
  - inversion 1; subst. eauto.
  - intros (a & s' & -> & ? & ?). by constructor.
Qed.

(** the case of a letter *)
Lemma lower_char_idem a : Str.lower_char (Str.lower_char a) = Str.lower_char a.
Proof. by destruct a as [[] [] [] [] [] [] [] []]. Qed.

Lemma lower_upper_lower a :
  Str.lower_char (Str.upper_char (Str.lower_char a)) = Str.lower_char a.
Proof. by destruct a as [[] [] [] [] [] [] [] []]. Qed.

Lemma lower_char_of c :
  c = Str.lower_char c ∨ c = Str.upper_char (Str.lower_char c).
Proof. destruct c as [[] [] [] [] [] [] [] []]; by auto. Qed.

Lemma in_items_spec items c :
  Re.in_items items c = true ↔
  ∃ lo hi, (lo, hi) ∈ items ∧ (N_of_ascii lo ≤ N_of_ascii c ≤ N_of_ascii hi)%N.
Proof.
  unfold Re.in_items. rewrite existsb_exists. split.
  - intros ([lo hi] & Hin%list_elem_of_In & [?%N.leb_le ?%N.leb_le]%andb_true_iff).
    by exists lo, hi.
  - intros (lo & hi & Hin%list_elem_of_In & Hlo & Hhi). exists (lo, hi).
    split; [done|]. apply andb_true_iff. by split; apply N.leb_le.
Qed.

(** one character: the expression matches it, under [re.IGNORECASE],
    when the piece of the wildcard does *)
Lemma single_match_glob x a : Re.single_match true x a = true ↔ glob_char x a.
Proof.
  destruct x as [|c| |negate items]; simpl.
  - done.
  - unfold Re.char_eq. by rewrite Ascii.eqb_eq.
  - done.
  - set (P := ∃ lo hi c, (lo, hi) ∈ items ∧
                (N_of_ascii lo ≤ N_of_ascii c ≤ N_of_ascii hi)%N ∧
                Str.lower_char c = Str.lower_char a).
    assert (HP : Re.in_items items (Str.lower_char a)
                 || Re.in_items items (Str.upper_char (Str.lower_char a)) = true
                 ↔ P).
    { rewrite orb_true_iff, !in_items_spec. unfold P. split.
      - intros [(lo & hi & Hin & Hr)|(lo & hi & Hin & Hr)].
        + exists lo, hi, (Str.lower_char a). by rewrite lower_char_idem.
        + exists lo, hi, (Str.upper_char (Str.lower_char a)).
          by rewrite lower_upper_lower.
      - intros (lo & hi & c & Hin & Hr & Hc).
        destruct (lower_char_of c) as [E|E]; rewrite Hc in E; subst c;
          [left|right]; by exists lo, hi. }
    destruct (_ || _), negate; simpl; intuition congruence.
Qed.

Lemma glob_fixed f p s :
  glob_match ((Fnmatch.Fixed <$> f) ++ p) s ↔
  ∃ rest, Re.fixed_match true f s = Some rest ∧ glob_match p rest.
Proof.
  revert s. induction f as [|x f IH]; intros s; simpl.
  - split; [by eauto|]. by intros (rest & [= <-] & ?).
  - rewrite glob_match_fixed. split.
    + intros (a & s' & -> & Hc%single_match_glob & H%IH). by rewrite Hc.
    + destruct s as [|a s']; [by intros (? & ? & _)|].
      destruct (Re.single_match true x a) eqn:Hc; [|by intros (? & ? & _)].
      intros H%IH. exists a, s'. split; [done|]. split; [|done].
      by apply single_match_glob.
Qed.

Lemma ones_match f s :
  Re.match_here true (Re.One <$> f) s = true ↔ glob_match (Fnmatch.Fixed <$> f) s.
Proof.
  revert s. induction f as [|x f IH]; intros s; simpl.
  - by rewrite bool_decide_eq_true, glob_match_nil.
  - rewrite glob_match_fixed. destruct s as [|a s'].
    + split; [done|]. by intros (? & ? & ? & _).
    + rewrite andb_true_iff, single_match_glob, IH. split.
      * intros [? ?]. by exists a, s'.
      * by intros (? & ? & [= <- <-] & ? & ?).
Qed.

(** what [fixed] leaves of a string *)
Lemma fixed_match_drop ic f s rest :
  Re.fixed_match ic f s = Some rest →
  rest = Str.drop (length f) s ∧ (length f ≤ String.length s)%nat.
Proof.
  revert s. induction f as [|x f IH]; intros s; simpl.
  - intros [= <-]. split; [by destruct s|lia].
  - destruct s as [|a s']; [done|]. destruct (Re.single_match ic x a); [|done].
    intros [-> ?]%IH. simpl. split; [done|lia].
Qed.

Lemma drop_next n s :
  (S n ≤ String.length s)%nat → ∃ c, Str.drop n s = String c (Str.drop (S n) s).
Proof.
  revert s. induction n as [|n IH]; intros [|a s] H; simpl in *; try lia.
  - by exists a.
  - apply IH. lia.
Qed.

Lemma drop_append_suffix n x s :
  (n ≤ String.length s)%nat → ∃ y, Str.drop n (x +:+ s) = y +:+ Str.drop n s.
Proof.
  revert n. induction x as [|b x IH]; intros n Hn.
  - by exists "".
  - rewrite append_cons. destruct n as [|n].
    + exists (String b x). by destruct s.
    + simpl. destruct (IH n) as (y & ->); [lia|].
      destruct (drop_next n s Hn) as (c & ->). exists (y +:+ String c "").
      by rewrite append_assoc.
Qed.

Lemma match_here_lazy ic f re s :
  Re.match_here ic (Re.Lazy f :: re) s =
  match Re.fixed_match ic f s with
  | Some rest => Re.match_here ic re rest
  | None =>
      match s with
      | String _ s' => Re.match_here ic (Re.Lazy f :: re) s'
      | EmptyString => false
      end
  end.
Proof. by destruct s. Qed.

(** the atomic group takes the first place where [fixed] matches; when
    what follows can start later as well, any place will do *)
Lemma match_here_lazy_spec ic f re s :
  (∀ a t, Re.match_here ic re t = true → Re.match_here ic re (String a t) = true) →
  Re.match_here ic (Re.Lazy f :: re) s = true ↔
  ∃ pre suf rest,
    s = pre +:+ suf ∧ Re.fixed_match ic f suf = Some rest ∧
    Re.match_here ic re rest = true.
Proof.
  intros Hmono.
  assert (Hmore : ∀ y t, Re.match_here ic re t = true →
                         Re.match_here ic re (y +:+ t) = true).
  { intros y t Ht. induction y as [|b y IH]; [done|].
    rewrite append_cons. by apply Hmono. }
  induction s as [|a s IH]; rewrite match_here_lazy.
  - split.
    + destruct (Re.fixed_match ic f "") as [rest|] eqn:Ef; [|done].
      intros H. by exists "", "", rest.
    + intros (pre & suf & rest & E & Ef & H).
      destruct pre; rewrite ?append_nil_l, ?append_cons in E; [|done].
      subst suf. by rewrite Ef.
  - split.
    + destruct (Re.fixed_match ic f (String a s)) as [rest|] eqn:Ef.
      * intros H. by exists "", (String a s), rest.
      * intros (pre & suf & rest & -> & ? & ?)%IH.
        by exists (String a pre), suf, rest.
    + intros (pre & suf & rest & E & Ef & H).
      destruct pre as [|b pre]; rewrite ?append_nil_l, ?append_cons in E.
      { subst suf. by rewrite Ef. }
      simplify_eq.
      destruct (Re.fixed_match ic f (String b (pre +:+ suf))) as [rest0|] eqn:Ef0.
      * apply fixed_match_drop in Ef0 as [-> _].
        apply fixed_match_drop in Ef as [-> Hlen].
        destruct (drop_append_suffix (length f) (String b pre) suf Hlen)
          as (y & Ey).
        rewrite append_cons in Ey. rewrite Ey. by apply Hmore.
      * apply IH. by exists pre, suf, rest.
Qed.

(** after a star: the expression matches what the star and the pieces
    that follow it match *)
Lemma after_star_match f inp s :
  Re.match_here true (Fnmatch.after_star f inp) s = true ↔
  glob_match (Fnmatch.STAR :: (Fnmatch.Fixed <$> f) ++ inp) s.
Proof.
  revert f s. induction inp as [|[|x] inp IH]; intros f s;
    cbn [Fnmatch.after_star].
  - rewrite match_here_dotstar, glob_match_star.
    setoid_rewrite ones_match. by rewrite app_nil_r.
  - rewrite match_here_lazy_spec.
    + rewrite glob_match_star. setoid_rewrite glob_fixed.
      setoid_rewrite (IH []). simpl. split.
      * intros (pre & suf & rest & -> & ? & ?). exists pre, suf. eauto.
      * intros (pre & suf & -> & rest & ? & ?). by exists pre, suf, rest.
    + intros a t. rewrite !(IH []). simpl. apply glob_star_more.
  - rewrite IH. by rewrite fmap_app, <- app_assoc.
Qed.

(** a whole string: the expression of a wildcard matches it when the
    wildcard does *)
Lemma translate_match inp s :
  Re.match_here true (Fnmatch.group inp) s = true ↔ glob_match inp s.
Proof.
  revert s. induction inp as [|[|x] inp IH]; intros s; cbn [Fnmatch.group].
  - simpl. by rewrite bool_decide_eq_true, glob_match_nil.
  - apply (after_star_match []).
  - rewrite glob_match_fixed. destruct s as [|a s']; simpl.
    + split; [done|]. by intros (? & ? & ? & _).
    + rewrite andb_true_iff, single_match_glob, IH. split.
      * intros [? ?]. by exists a, s'.
      * by intros (? & ? & [= <- <-] & ? & ?).
Qed.

Lemma wildcard_search p u :
  Re.search (wildcard_to_regex p) u = true ↔
  ∃ pre suf, u = pre +:+ suf ∧ glob_match (Fnmatch.scan p) suf.
Proof.
  unfold wildcard_to_regex, Re.compile, Fnmatch.translate. simpl.
  rewrite search_from_spec. by setoid_rewrite translate_match.
Qed.

(** the first loop of [translate] adds to what it has *)
Lemma scan_from_head fuel pat i x res :
  ∃ more, Fnmatch.scan_from fuel pat i (x :: res) = x :: more.
Proof.
  revert i res. induction fuel as [|fuel IH]; intros i res;
    cbn [Fnmatch.scan_from]; [by eauto|].
  destruct (Str.get i pat) as [c|]; [|by eauto].
  destruct (Ascii.eqb c "*").
  { destruct (List.last (x :: res) (Fnmatch.Fixed Re.Dot)); [apply IH|].
    rewrite <- app_comm_cons. apply IH. }
  destruct (Ascii.eqb c "?"); [rewrite <- app_comm_cons; apply IH|].
  destruct (Ascii.eqb c "[").
  - destruct (_ <=? _)%nat; rewrite <- app_comm_cons; apply IH.
  - rewrite <- app_comm_cons. apply IH.
Qed.

Lemma scan_star p : ∃ ps, Fnmatch.scan (String "*" p) = Fnmatch.STAR :: ps.
Proof.
  unfold Fnmatch.scan. cbn [String.length Fnmatch.scan_from Str.get].
  apply scan_from_head.
Qed.

Context (net : network) (cfg : config).

Lemma is_valid_url_eq u st :
  is_valid_url net cfg u st =
  bind (can_fetch net cfg u) (fun ok => ret (ok && pattern_filter cfg u)) st.
Proof.
  unfold is_valid_url, bind, pattern_filter.
  destruct (can_fetch net cfg u st) as [[|] st'|e st']; simpl; [|done|done].
  destruct (existsb _ (exclude_patterns cfg)); [done|].
  by destruct (include_patterns cfg).
Qed.

Lemma pattern_filter_spec u :
  pattern_filter cfg u = true ↔
  (∀ p, p ∈ exclude_patterns cfg → Re.search p u = false) ∧
  (include_patterns cfg = [] ∨
   ∃ p, p ∈ include_patterns cfg ∧ Re.search p u = true).
Proof.
  unfold pattern_filter.
  destruct (existsb _ (exclude_patterns cfg)) eqn:Hex.
  - split; [done|]. intros [Hno _].
    apply existsb_exists in Hex as (p & Hin%list_elem_of_In & Hp).
    by rewrite (Hno p Hin) in Hp.
  - assert (Hno : ∀ p, p ∈ exclude_patterns cfg → Re.search p u = false).
    { intros p Hin%list_elem_of_In. apply not_true_is_false. intros Hp.
      assert (existsb (fun p => Re.search p u) (exclude_patterns cfg) = true)
        by (apply existsb_exists; eauto).
      congruence. }
    case_bool_decide as Hinc.
    + split; [|done]. intros _. split; [done|by left].
    + rewrite existsb_exists. split.
      * intros (p & Hin%list_elem_of_In & Hp). split; [done|]. right. eauto.
      * intros [_ [?|(p & Hin%list_elem_of_In & Hp)]]; [done|eauto].
Qed.

End Patterns.

(** ** Admission is made when a link is found *)

Section Admission.

Context (net : network) (cfg : config).

Lemma cleared_not_disallowed st u :
  cleared cfg st u → ¬ robots_disallows cfg st u.
Proof.
  intros [Hoff|(policy & Hp & Hok)] (Hon & rp & Hrp & Hno); [congruence|].
  rewrite Hp in Hrp. simplify_eq. congruence.
Qed.

Lemma admitted_evolves P st st' u :
  evolves cfg P st st' → admitted cfg st u → admitted cfg st' u.
Proof.
  intros [[_ _ Hdom] Hrob _ _] [Hc Hp Hr Hs]. split; [done|done| |].
  - destruct Hr as [?|(policy & Hl & Hok)]; [by left|right].
    exists policy. split; [|done]. by eapply lookup_weaken.
  - destruct Hs as [?|[? ?]]; [by left|right]. split; [done|]. set_solver.
Qed.

Lemma admitted_grows P st st' u :
  grows cfg P st st' → admitted cfg st u → admitted cfg st' u.
Proof. intros []. by eapply admitted_evolves. Qed.

(** the robots policy of a domain is in the cache once it has been asked
    for, and [get_robots_parser] never raises *)
Lemma get_robots_parser_cached domain st :
  respect_robots cfg = true →
  post (get_robots_parser net cfg domain st)
    (fun rp st' => robots_cache st' !! domain = Some rp)
    (fun _ _ => False).
Proof.
  intros Hrr. destruct (robots_cache st !! domain) as [rp|] eqn:Hc.
  - unfold get_robots_parser. rewrite Hrr. simpl. unfold bind, get.
    by rewrite Hc.
  - destruct (get_robots_parser_miss net cfg domain st Hrr Hc) as (policy & ->).
    simpl. apply lookup_insert_eq.
Qed.

Lemma can_fetch_cleared u st :
  post (can_fetch net cfg u st)
    (fun ok st' => ok = true → cleared cfg st' u)
    (fun _ _ => False).
Proof.
  unfold can_fetch. destruct (respect_robots cfg) eqn:Hrr; simpl.
  - apply post_bind.
    eapply post_mono; [by apply get_robots_parser_cached| |done].
    intros [rp|] st' Hc; simpl; intros Hok; right;
      eexists; (split; [exact Hc|done]).
  - intros _. by left.
Qed.

Lemma is_valid_url_admits u st :
  post (is_valid_url net cfg u st)
    (fun ok st' => ok = true → pattern_filter cfg u = true ∧ cleared cfg st' u)
    (fun _ _ => False).
Proof.
  rewrite is_valid_url_eq. apply post_bind.
  eapply post_mono; [apply can_fetch_cleared| |done].
  intros ok st' Hc. simpl. intros [-> Hp]%andb_true_iff. auto.
Qed.

Lemma is_same_domain_in_scope u st :
  post (is_same_domain cfg u st)
    (fun ok st' => ok = true → in_scope cfg st' u)
    (fun _ _ => False).
Proof.
  unfold is_same_domain, in_scope.
  destruct (String.eqb_spec (netloc_of u) (start_domain cfg)) as [|Hne];
    simpl; [auto|].
  destruct (allow_exit cfg); simpl; [|done].
  unfold bind, get.
  destruct (bool_decide_reflect (netloc_of u ∈ current_domains st)) as [|Hnin];
    simpl; [auto|].
  destruct (_ <? _); simpl; [|done].
  intros _. right. split; [done|set_solver].
Qed.

Lemma in_scope_passes u st :
  in_scope cfg st u → is_same_domain cfg u st = Ret true st.
Proof.
  intros Hs. unfold is_same_domain.
  destruct (String.eqb_spec (netloc_of u) (start_domain cfg)) as [|Hne]; [done|].
  destruct Hs as [?|[-> Hin]]; [done|].
  unfold bind, get. by rewrite bool_decide_true.
Qed.

Lemma unique_subset seen ls l : l ∈ unique seen ls → l ∈ ls.
Proof.
  revert seen. induction ls as [|x ls IH]; intros seen; simpl; [done|].
  case_bool_decide.
  - intros ?%IH. by right.
  - intros [->|?%IH]%elem_of_cons; [by left|by right].
Qed.

Lemma filter_links_admits u hrefs acc st :
  (∀ l, l ∈ acc → admitted cfg st l) →
  post (filter_links net cfg u hrefs acc st)
    (fun ls st' => ∀ l, l ∈ ls → admitted cfg st' l)
    (fun _ _ => True).
Proof.
  revert acc st. induction hrefs as [|href hrefs IH]; intros acc st Hacc; simpl.
  - done.
  - unfold bind at 1, urljoin. destruct (Urllib.valid href); simpl; [|done].
    destruct (_ && _); [|by apply IH].
    unfold bind at 1.
    pose proof (is_valid_url_admits (clean href) st) as Hv.
    pose proof (is_valid_url_grows net cfg (clean href) st) as Gv.
    destruct (is_valid_url net cfg (clean href) st) as [valid st1|e st1];
      simpl in *; [|done].
    assert (Hacc1 : ∀ l, l ∈ acc → admitted cfg st1 l)
      by (intros; eapply admitted_grows; eauto).
    destruct valid; [|by apply IH].
    destruct (Hv eq_refl) as [Hp Hc].
    unfold bind at 1.
    pose proof (is_same_domain_in_scope (clean href) st1) as Hs.
    pose proof (is_same_domain_grows cfg (clean href) st1) as Gs.
    destruct (is_same_domain cfg (clean href) st1) as [same st2|e st2];
      simpl in *; [|done].
    apply IH. intros l Hl.
    assert (Hold : l ∈ acc → admitted cfg st2 l)
      by (intros; eapply admitted_grows; eauto).
    destruct same; [|by apply Hold].
    apply elem_of_app in Hl as [?|Hl%list_elem_of_singleton]; [by apply Hold|].
    subst l.
    split; [by exists href|done| |by apply Hs].
    destruct Gs as [_ _ [_ Hrob _ _]].
    destruct Hc as [?|(policy & Hl & Hok)]; [by left|right].
    exists policy. split; [|done]. by eapply lookup_weaken.
Qed.

Lemma get_links_from_page_admits u st :
  post (get_links_from_page net cfg u st)
    (fun ls st' => ∀ l, l ∈ ls → admitted cfg st' l)
    (fun _ _ => True).
Proof.
  unfold get_links_from_page. apply post_try. unfold bind at 1, send.
  destruct (outcome _) as [e|resp]; simpl.
  { destruct (is_RequestException e); simpl; [|done]. intros l. by inversion 1. }
  unfold bind at 1, raise_for_status.
  destruct (_ && _); simpl; [intros l; by inversion 1|].
  destruct (negb _); simpl; [intros l; by inversion 1|].
  apply post_bind.
  eapply post_mono; [apply filter_links_admits; intros l; by inversion 1| |].
  - intros ls st' Hls. simpl. intros l Hl%unique_subset. by apply Hls.
  - intros e st' _. by destruct (is_RequestException e); simpl;
      [intros l; inversion 1|].
Qed.

End Admission.

(** ** The invariant of the loop *)

Section Invariant.

Context (net : network) (cfg : config).

Lemma rate_limit_grows domain crawl_delay last st :
  grows cfg no_event st (final (rate_limit domain crawl_delay last st)).
Proof.
  apply (rate_limit_respects (grows cfg no_event)); eauto with footprint.
Qed.

Lemma scrape_url_grows u st :
  grows cfg (scrape_event u) st (final (scrape_url net cfg u st)).
Proof.
  apply (scrape_url_respects net cfg (grows cfg (scrape_event u)));
    eauto with footprint.
  intros. by apply grows_sending.
Qed.

Lemma get_links_from_page_grows u st :
  grows cfg (links_event u) st (final (get_links_from_page net cfg u st)).
Proof.
  apply (get_links_from_page_respects net cfg (grows cfg (links_event u)));
    eauto with footprint.
  - intros. apply get_robots_parser_grows. intros e He. by left.
  - intros. apply grows_sending. by right.
Qed.

Lemma check_start_url_grows st :
  grows cfg probe_event st (final (check_start_url net cfg st)).
Proof.
  apply (check_start_url_respects net cfg (grows cfg probe_event));
    eauto with footprint.
  - intros. apply get_robots_parser_grows. intros e He. by left.
  - intros. apply grows_sending. by right.
Qed.

(** [scrape_url] never raises, and the page it returns is the page asked
    for *)
Lemma scrape_url_result u st :
  post (scrape_url net cfg u st)
    (fun r _ => ∀ d, r = Some d → url d = u)
    (fun _ _ => False).
Proof.
  unfold scrape_url. apply post_try.
  apply post_mono with
    (K := fun r _ => ∀ d, r = Some d → url d = u) (E := fun _ _ => True);
    [|done|done].
  apply post_bind. unfold send. destruct (outcome _) as [e|resp]; simpl; [done|].
  destruct (status_code resp =? 429).
  - apply post_bind. by destruct (sleep _ _).
  - apply post_bind. unfold raise_for_status.
    destruct (_ && _); simpl; [done|].
    destruct (negb _); simpl; [done|].
    apply post_bind. unfold extract_data. apply post_bind.
    destruct (extract_links _ _ _ _ _) as [ls st'|e st']; simpl; [|done].
    intros d [= <-]. done.
Qed.

Lemma crawl_inv_grows P st st' :
  grows cfg P st st' →
  (∀ e, P e → page_request e →
        req_method (ev_request e) = GET ∧
        (req_url (ev_request e) = start_url cfg ∨
         admitted cfg st' (req_url (ev_request e)))) →
  crawl_inv cfg st → crawl_inv cfg st'.
Proof.
  intros G HP [Hn Hv Hr Hs].
  pose proof G as [Ev Es Ge]. pose proof Ge as [_ _ (new & Enew & Fnew) _].
  split.
  - by rewrite Es.
  - rewrite Es, Ev. done.
  - rewrite Es. intros d Hd. destruct (Hr d Hd) as [?|?]; [by left|right].
    by eapply admitted_evolves.
  - rewrite Enew. intros e [He|He]%elem_of_app Hp.
    + rewrite Forall_forall in Fnew. apply HP; [|done]. by apply Fnew.
    + destruct (Hs e He Hp) as [? [?|?]]; split; [done|by left|done|right].
      by eapply admitted_evolves.
Qed.

Lemma queue_inv_evolves P st st' q :
  evolves cfg P st st' → queue_inv cfg st q → queue_inv cfg st' q.
Proof.
  intros Ev Hq u d Hin. destruct (Hq u d Hin) as [?|[? ?]]; [by left|right].
  split; [done|]. by eapply admitted_evolves.
Qed.

Lemma crawl_inv_init : crawl_inv cfg (init cfg).
Proof.
  split; simpl.
  - constructor.
  - intros d. by inversion 1.
  - intros d. by inversion 1.
  - intros e. by inversion 1.
Qed.

(** a step from [a] to [b] and one from [b] to [c] make one from [a] to
    [c], whatever they send *)
Lemma evolves_any P st st' :
  evolves cfg P st st' → evolves cfg any_event st st'.
Proof. apply evolves_weaken. done. Qed.

Lemma grows_any P st st' : grows cfg P st st' → evolves cfg any_event st st'.
Proof. intros []. by eapply evolves_any. Qed.

Lemma entry_ok_evolves P st st' u d :
  evolves cfg P st st' → entry_ok cfg st u d → entry_ok cfg st' u d.
Proof.
  intros Ev [?|[? ?]]; [by left|right]. split; [done|]. by eapply admitted_evolves.
Qed.

Lemma visit_inv u d fr st :
  crawl_inv cfg st → u ∉ visited_urls st → entry_ok cfg st u d →
  queue_inv cfg st (queue fr) →
  post (visit net cfg u d fr st)
    (fun fr' st' => crawl_inv cfg st' ∧ queue_inv cfg st' (queue fr'))
    (fun _ st' => crawl_inv cfg st').
Proof.
  intros Hinv Hnew Hentry Hq. unfold visit.
  unfold bind at 1, modify.
  set (st1 := with_visited _ st).
  assert (E1 : evolves cfg any_event st st1) by apply evolves_with_visited.
  assert (Hinv1 : crawl_inv cfg st1).
  { destruct Hinv as [Hn Hv Hr Hs]. split; simpl; [done| | |].
    - intros x Hx. apply elem_of_union_l. by apply Hv.
    - intros x Hx. destruct (Hr x Hx) as [?|?]; [by left|right].
      by eapply admitted_evolves.
    - intros e' He' Hp. destruct (Hs e' He' Hp) as [? [?|?]];
        split; [done|by left|done|right]. by eapply admitted_evolves. }
  unfold bind at 1. rewrite get_crawl_delay_eq.
  set (cd := effective_delay cfg _ _).
  unfold bind at 1.
  pose proof (rate_limit_grows (netloc_of u) cd (last_request_time fr) st1) as G2.
  destruct (rate_limit _ _ _ st1) as [last st2|e st2]; simpl in G2.
  2: { simpl. eapply crawl_inv_grows; [exact G2| |done]. by intros e' []. }
  assert (Hinv2 : crawl_inv cfg st2).
  { eapply crawl_inv_grows; [exact G2| |done]. by intros e' []. }
  assert (E2 : evolves cfg any_event st st2).
  { etransitivity; [exact E1|]. by eapply grows_any. }
  unfold bind at 1.
  pose proof (scrape_url_grows u st2) as G3.
  pose proof (scrape_url_result u st2) as R3.
  destruct (scrape_url net cfg u st2) as [data st3|e st3]; simpl in G3, R3; [|done].
  assert (E3 : evolves cfg any_event st st3).
  { etransitivity; [exact E2|]. by eapply grows_any. }
  assert (Hu3 : entry_ok cfg st3 u d) by (by eapply entry_ok_evolves).
  assert (Hfetch : ∀ st', evolves cfg any_event st3 st' →
            u = start_url cfg ∨ admitted cfg st' u).
  { intros st' Ev. destruct Hu3 as [[? _]|[_ ?]]; [by left|right].
    by eapply admitted_evolves. }
  assert (Hinv3 : crawl_inv cfg st3).
  { eapply crawl_inv_grows; [exact G3| |done].
    intros e' [_ Hreq] _. rewrite Hreq. simpl. split; [done|].
    apply Hfetch. reflexivity. }
  assert (Hq3 : queue_inv cfg st3 (queue fr)) by (by eapply queue_inv_evolves).
  unfold harvest. destruct data as [data|]; simpl; [|done].
  specialize (R3 data eq_refl).
  unfold bind at 1, modify.
  set (st4 := with_scraped _ st3).
  assert (E4 : evolves cfg any_event st3 st4) by apply evolves_with_scraped.
  assert (Hvis : visited_urls st3 = visited_urls st ∪ {[ u ]}).
  { destruct G3 as [-> _ _]. by destruct G2 as [-> _ _]. }
  assert (Hscr : scraped_data st3 = scraped_data st).
  { destruct G3 as [_ -> _]. by destruct G2 as [_ -> _]. }
  assert (Hinv4 : crawl_inv cfg st4).
  { destruct Hinv3 as [Hn Hv Hr Hs]. split; simpl.
    - rewrite fmap_app. apply NoDup_app. split; [done|]. split.
      + intros x Hx. simpl. rewrite R3. intros ->%list_elem_of_singleton.
        apply Hnew. rewrite Hscr in Hx.
        apply list_elem_of_fmap in Hx as (p & -> & Hp).
        by apply (inv_visited _ _ Hinv).
      + apply NoDup_singleton.
    - intros x [Hx| ->%list_elem_of_singleton]%elem_of_app; [by apply Hv|].
      rewrite R3, Hvis. apply elem_of_union_r. by apply elem_of_singleton.
    - intros x [Hx| ->%list_elem_of_singleton]%elem_of_app.
      + destruct (Hr x Hx) as [?|?]; [by left|right].
        by eapply admitted_evolves.
      + rewrite R3. by apply Hfetch.
    - intros e' He' Hp. destruct (Hs e' He' Hp) as [? [?|?]];
        split; [done|by left|done|right]. by eapply admitted_evolves. }
  assert (Hq4 : queue_inv cfg st4 (queue fr)) by (by eapply queue_inv_evolves).
  destruct (d <? max_depth cfg); simpl; [|done].
  unfold bind at 1.
  pose proof (get_links_from_page_grows u st4) as G5.
  pose proof (get_links_from_page_admits net cfg u st4) as A5.
  assert (Hinv5 : crawl_inv cfg (final (get_links_from_page net cfg u st4))).
  { eapply crawl_inv_grows; [exact G5| |done].
    intros e' [Hrob|[_ Hreq]] Hp.
    - destruct Hp as [Hp|Hp]; rewrite Hrob in Hp; discriminate.
    - rewrite Hreq. simpl. split; [done|]. apply Hfetch.
      etransitivity; [exact E4|]. by eapply grows_any. }
  destruct (get_links_from_page net cfg u st4) as [ls st5|e st5];
    simpl in G5, A5, Hinv5; [|done].
  unfold bind, get. simpl. split; [done|].
  intros x dx [Hx|Hx]%elem_of_app.
  - eapply queue_inv_evolves; [by eapply grows_any|exact Hq4|exact Hx].
  - apply list_elem_of_fmap in Hx as (l & [= -> ->] & Hl).
    apply list_elem_of_filter in Hl as [_ Hl]. right. split.
    + destruct Hentry as [[_ ->]|[? _]]; lia.
    + by apply A5.
Qed.

Lemma crawl_step_inv u d fr st :
  crawl_inv cfg st → entry_ok cfg st u d → queue_inv cfg st (queue fr) →
  post (crawl_step net cfg u d fr st)
    (fun fr' st' => crawl_inv cfg st' ∧ queue_inv cfg st' (queue fr'))
    (fun _ st' => crawl_inv cfg st').
Proof.
  intros Hinv Hentry Hq. unfold crawl_step, skip_entry.
  unfold bind at 1 2, get.
  case_bool_decide as Hvis; simpl; [done|].
  destruct (_ <? _); simpl; [done|].
  unfold bind at 1.
  pose proof (is_same_domain_grows cfg u st) as G.
  destruct (is_same_domain cfg u st) as [same st1|e st1]; simpl in *.
  2: { eapply crawl_inv_grows; [exact G| |done]. by intros e' []. }
  assert (Hinv1 : crawl_inv cfg st1).
  { eapply crawl_inv_grows; [exact G| |done]. by intros e' []. }
  assert (Hq1 : queue_inv cfg st1 (queue fr)).
  { eapply queue_inv_evolves; [by eapply grows_any|done]. }
  destruct same; simpl; [|done].
  apply visit_inv; [done| | |done].
  2: { eapply entry_ok_evolves; [eapply grows_any; exact G|done]. }
  by destruct G as [-> _ _].
Qed.

Lemma crawl_loop_inv fuel fr st :
  crawl_inv cfg st → queue_inv cfg st (queue fr) →
  post (crawl_loop net cfg fuel fr st)
    (fun fr' st' => crawl_inv cfg st' ∧ queue_inv cfg st' (queue fr'))
    (fun _ st' => crawl_inv cfg st').
Proof.
  revert fr st. induction fuel as [|fuel IH]; intros fr st Hinv Hq; simpl.
  - done.
  - destruct (queue fr) as [|[u d] rest] eqn:Eq; simpl.
    { split; [done|by rewrite Eq]. }
    apply post_bind.
    eapply post_mono; [apply crawl_step_inv| |done]; simpl.
    + done.
    + apply Hq. by left.
    + intros x dx Hx. apply Hq. by right.
    + intros fr' st' [? ?]. by apply IH.
Qed.

Lemma crawl_inv_holds fuel :
  post (crawl net cfg fuel (init cfg))
    (fun r st => crawl_inv cfg st ∧
                 ∀ fr, r = Some fr → queue_inv cfg st (queue fr))
    (fun _ st => crawl_inv cfg st).
Proof.
  unfold crawl. unfold bind at 1.
  pose proof (check_start_url_grows (init cfg)) as G.
  assert (Hinv : crawl_inv cfg (final (check_start_url net cfg (init cfg)))).
  { eapply crawl_inv_grows; [exact G| |apply crawl_inv_init].
    intros e [He|He] [Hp|Hp]; rewrite He in Hp; discriminate. }
  destruct (check_start_url net cfg (init cfg)) as [go st1|e st1];
    simpl in *; [|done].
  destruct go; simpl; [|done].
  apply post_bind.
  eapply post_mono; [apply crawl_loop_inv| |done]; simpl.
  - done.
  - intros u d Hin%list_elem_of_singleton. simplify_eq. by left.
  - intros fr st [? ?]. simpl. split; [done|]. by intros ? [= <-].
Qed.

End Invariant.

(** ** What a visit sends and records *)

Section Visit.

Context (net : network) (cfg : config).

Lemma try_bind_send {A} why r (k : response → M A) handles h st :
  try_except (bind (send net why r) k) handles h st =
  match outcome (net (length (sent st)) r) with
  | inl e =>
      if handles e then h e (sending net why r st)
      else Raise e (sending net why r st)
  | inr resp => try_except (k resp) handles h (sending net why r st)
  end.
Proof. unfold try_except, bind, send. by destruct (outcome _). Qed.

Local Ltac session_steps :=
  eauto with footprint;
  try (intros; apply evolves_grows; eauto with footprint; fail);
  try (intros; apply evolves_grows, grows_sending; done);
  try (intros; apply get_robots_parser_evolves).

Lemma no_new_events (new : list event) : Forall no_event new → new = [].
Proof. destruct new as [|e new]; [done|]. by inversion 1. Qed.


Lemma harvest_evolves u depth fr last data st :
  evolves cfg any_event st (final (harvest net cfg u depth fr last data st)).
Proof.
  apply (harvest_respects net cfg (evolves cfg any_event)); session_steps.
Qed.

Lemma visit_eq u d fr st :
  visit net cfg u d fr st =
  bind (rate_limit (netloc_of u) (effective_delay cfg st (netloc_of u))
          (last_request_time fr))
    (fun last =>
       bind (scrape_url net cfg u)
         (fun data => harvest net cfg u d fr last data))
    (with_visited (fun v => v ∪ {[ u ]}) st).
Proof.
  unfold visit. unfold bind at 1, modify. unfold bind at 1.
  by rewrite get_crawl_delay_eq.
Qed.

(** a visit marks the URL visited and waits; the wait may raise, when
    it is due and [time.sleep] cannot take it, and that ends the visit
    with nothing sent; else the page is scraped, which does not raise,
    and harvested *)
Lemma visit_unfold u d fr st :
  let st1 := with_visited (fun v => v ∪ {[ u ]}) st in
  (visit net cfg u d fr st = Raise OverflowError st1 ∧
   rate_limit (netloc_of u) (effective_delay cfg st (netloc_of u))
     (last_request_time fr) st1 = Raise OverflowError st1 ∧
   ∃ t, last_request_time fr !! netloc_of u = Some t ∧
        Float.ltb (Fin (now st - t)) (effective_delay cfg st (netloc_of u))
        = true) ∨
  (∃ last st2 data st3,
     grows cfg no_event st1 st2 ∧
     rate_limit (netloc_of u) (effective_delay cfg st (netloc_of u))
       (last_request_time fr) st1 = Ret last st2 ∧
     scrape_url net cfg u st2 = Ret data st3 ∧
     visit net cfg u d fr st = harvest net cfg u d fr last data st3).
Proof.
  cbv zeta. set (st1 := with_visited _ st).
  set (cd := effective_delay cfg st (netloc_of u)).
  rewrite visit_eq. fold st1 cd. unfold bind at 1 3.
  pose proof (rate_limit_grows cfg (netloc_of u) cd (last_request_time fr) st1)
    as G2.
  destruct (rate_limit_cases (netloc_of u) cd (last_request_time fr) st1)
    as [[E Ht]|(st2 & E & _)]; rewrite E in G2 |- *.
  { left. by repeat split. }
  right. simpl in G2. unfold bind.
  pose proof (scrape_url_result net cfg u st2) as R3.
  destruct (scrape_url net cfg u st2) as [data st3|e st3] eqn:E3;
    simpl in R3; [|done].
  by eexists _, st2, data, st3.
Qed.



(** the loop itself asks three things of an entry: is it visited, is it
    too deep, does the scope guard pass it *)
Lemma crawl_step_skips u d fr st :
  u ∈ visited_urls st ∨ max_depth cfg < d →
  crawl_step net cfg u d fr st = Ret fr st.
Proof.
  intros H. unfold crawl_step, skip_entry, bind, get.
  case_bool_decide; [done|]. destruct H as [?|H]; [done|].
  by destruct (Z.ltb_spec (max_depth cfg) d); [|lia].
Qed.


Lemma crawl_inv_final fuel :
  crawl_inv cfg (final (crawl net cfg fuel (init cfg))).
Proof.
  pose proof (crawl_inv_holds net cfg fuel) as H.
  destruct (crawl net cfg fuel (init cfg)); simpl in *; [by destruct H|done].
Qed.

End Visit.

(** ** The crawl as a whole *)

Section Crawl.

Context (net : network) (cfg : config).

Lemma cleared_evolves P st st' u :
  evolves cfg P st st' → cleared cfg st u → cleared cfg st' u.
Proof.
  intros [_ Hrob _ _] [?|(policy & Hl & Hok)]; [by left|right].
  exists policy. split; [|done]. by eapply lookup_weaken.
Qed.

Lemma not_page_request_probe (e : event) : probe_event e → ¬ page_request e.
Proof. intros [He|He] [Hp|Hp]; rewrite He in Hp; discriminate. Qed.

(** the start URL is checked against robots.txt when the probe returns *)
Lemma check_start_url_clears status st st0 :
  test_start_url net cfg st = Ret status st0 →
  ∃ go st1, check_start_url net cfg st = Ret go st1 ∧
            (go = true → cleared cfg st1 (start_url cfg)).
Proof.
  intros Et. unfold check_start_url, try_except. unfold bind at 1. rewrite Et.
  unfold bind.
  pose proof (can_fetch_cleared net cfg (start_url cfg) st0) as Hcf.
  destruct (can_fetch net cfg (start_url cfg) st0) as [ok st1|e st1];
    simpl in Hcf; [|done].
  destruct ok; simpl.
  - eexists _, _. split; [done|]. auto.
  - destruct (respect_robots cfg) eqn:Hrr; eexists _, _; (split; [done|]).
    + by intros [=].
    + intros _. by left.
Qed.

Lemma seed_disallowed_aborts fuel :
  (∃ status st0, test_start_url net cfg (init cfg) = Ret status st0) →
  robots_disallows cfg (final (crawl net cfg fuel (init cfg))) (start_url cfg) →
  ∃ st, crawl net cfg fuel (init cfg) = Ret None st ∧
        visited_urls st = ∅ ∧ scraped_data st = [] ∧
        ∀ e, e ∈ sent st → ¬ page_request e.
Proof.
  intros (status & st0 & Et).
  destruct (check_start_url_clears status (init cfg) st0 Et)
    as (go & st1 & Ec & Hgo).
  pose proof (check_start_url_grows net cfg (init cfg)) as G.
  rewrite Ec in G. simpl in G.
  unfold crawl. unfold bind at 1 3. rewrite Ec. destruct go.
  - intros Hdis. exfalso.
    eapply cleared_not_disallowed; [|exact Hdis].
    eapply cleared_evolves; [|by apply Hgo].
    pose proof (crawl_loop_evolves net cfg fuel
                  {| queue := [(start_url cfg, 0)]; last_request_time := ∅ |} st1)
      as Ev.
    unfold bind. by destruct (crawl_loop _ _ _ _ _).
  - intros _. exists st1. destruct G as [Ev Es [_ _ (new & En & Fn) _]].
    split; [done|]. split; [done|]. split; [done|].
    rewrite En. simpl. rewrite app_nil_r. intros e He.
    apply not_page_request_probe. rewrite Forall_forall in Fn. by apply Fn.
Qed.


End Crawl.

(** ** What the rate limiter does achieve *)

Section Spacing.

Context (net : network) (cfg : config).

Global Instance keeps_delays_refl : Reflexive (keeps_delays cfg).
Proof. intros st. by split. Qed.

Global Instance keeps_delays_trans : Transitive (keeps_delays cfg).
Proof.
  intros a b c [R1 D1] [R2 D2]. split; [by etransitivity|].
  intros d Hd. rewrite D2, D1; [done|done|].
  destruct Hd as [?|[x Hx]]; [by left|right]. exists x. by eapply lookup_weaken.
Qed.

Lemma keeps_delays_same st st' :
  robots_cache st' = robots_cache st → domain_delays st' = domain_delays st →
  keeps_delays cfg st st'.
Proof. intros E1 E2. split; by rewrite ?E1, ?E2. Qed.

Lemma settled_keeps st st' domain :
  keeps_delays cfg st st' → settled cfg st domain →
  settled cfg st' domain ∧
  effective_delay cfg st' domain = effective_delay cfg st domain.
Proof.
  intros [Hr Hd] Hs. split.
  - destruct Hs as [?|[x Hx]]; [by left|right]. exists x. by eapply lookup_weaken.
  - unfold effective_delay. by rewrite Hd.
Qed.

(** [get_robots_parser] asks once for a domain, and touches the delay of
    that domain only *)
Lemma get_robots_parser_keeps domain :
  respects (keeps_delays cfg) (get_robots_parser net cfg domain).
Proof.
  intros st. destruct (respect_robots cfg) eqn:Hrr.
  2: { unfold get_robots_parser. rewrite Hrr. simpl. reflexivity. }
  destruct (robots_cache st !! domain) as [rp|] eqn:Hc.
  { unfold get_robots_parser. rewrite Hrr. simpl. unfold bind, get.
    rewrite Hc. simpl. reflexivity. }
  assert (Hother : ∀ d, settled cfg st d → d ≠ domain).
  { intros d [?|[x Hx]] ->; congruence. }
  destruct (get_robots_parser_miss net cfg domain st Hrr Hc) as (policy & ->).
  split; simpl; [by apply insert_subseteq|].
  intros d Hd. destruct (declared_delay cfg policy); [|done].
  rewrite lookup_insert_ne; [done|]. intros ->. by eapply Hother.
Qed.

Local Ltac keeps_steps :=
  try apply _;
  try (intros; apply get_robots_parser_keeps);
  try (intros; by apply keeps_delays_same).

Lemma is_same_domain_keeps u st :
  keeps_delays cfg st (final (is_same_domain cfg u st)).
Proof. apply (is_same_domain_respects cfg (keeps_delays cfg)); keeps_steps. Qed.

Lemma rate_limit_keeps domain crawl_delay last st :
  keeps_delays cfg st (final (rate_limit domain crawl_delay last st)).
Proof. apply (rate_limit_respects (keeps_delays cfg)); keeps_steps. Qed.

Lemma scrape_url_keeps u st :
  keeps_delays cfg st (final (scrape_url net cfg u st)).
Proof. apply (scrape_url_respects net cfg (keeps_delays cfg)); keeps_steps. Qed.

Lemma harvest_keeps u d fr last data st :
  keeps_delays cfg st (final (harvest net cfg u d fr last data st)).
Proof. apply (harvest_respects net cfg (keeps_delays cfg)); keeps_steps. Qed.

Lemma check_start_url_keeps st :
  keeps_delays cfg st (final (check_start_url net cfg st)).
Proof. apply (check_start_url_respects net cfg (keeps_delays cfg)); keeps_steps. Qed.

Lemma scrape_url_sends_one u st :
  sent (final (scrape_url net cfg u st)) = scrape_request (now st) u :: sent st.
Proof.
  unfold scrape_url. rewrite try_bind_send.
  destruct (outcome _) as [e|resp]; [done|].
  match goal with
  | |- context [try_except ?m ?hs ?h (sending _ _ _ _)] =>
      assert (H : respects (grows cfg no_event) (try_except m hs h))
  end.
  { apply respects_try; [apply _| |intros; apply respects_ret; apply _].
    destruct (status_code resp =? 429).
    - apply respects_bind;
        [apply _|apply sleep_respects; eauto with footprint|].
      intros; apply respects_ret; apply _.
    - apply respects_bind; [apply _|apply raise_for_status_respects; apply _|].
      intros _. destruct (negb _); [apply respects_ret; apply _|].
      apply respects_bind;
        [apply _|apply extract_data_respects; eauto with footprint|].
      intros; apply respects_ret; apply _. }
  destruct (H (sending net Scrape
                 {| req_method := GET; req_url := u; req_timeout := 15 |} st))
    as [_ _ [_ _ (new & E & ->%no_new_events) _]].
  by rewrite E.
Qed.

Lemma harvest_quiet u d fr last data st :
  ∃ new, sent (final (harvest net cfg u d fr last data st))
         = (new ++ sent st)%list ∧
         Forall (fun e => ¬ is_scrape e) new.
Proof.
  unfold harvest. destruct data as [data|]; [|by exists []].
  unfold bind at 1, modify. destruct (d <? max_depth cfg); [|by exists []].
  unfold bind at 1.
  pose proof (get_links_from_page_grows net cfg u
                (with_scraped (fun l => (l ++ [data])%list) st))
    as [_ _ [_ _ (new & En & Fn) _]].
  exists new. split.
  - by destruct (get_links_from_page _ _ _ _).
  - eapply Forall_impl; [exact Fn|]. intros e [He|[He _]] Hs;
      unfold is_scrape in Hs; rewrite He in Hs; discriminate.
Qed.

(** what [harvest] returns: the stamps it was given, and a queue with
    admitted links of the next depth at its end *)
Lemma harvest_frontier u d fr last data st :
  post (harvest net cfg u d fr last data st)
    (fun fr' st' =>
       last_request_time fr' = last ∧
       ∀ x dx, (x, dx) ∈ queue fr' →
               (x, dx) ∈ queue fr ∨ (dx = d + 1 ∧ admitted cfg st' x))
    (fun _ _ => True).
Proof.
  unfold harvest. destruct data as [data|]; simpl; [|by auto].
  unfold bind at 1, modify. destruct (d <? max_depth cfg); simpl; [|by auto].
  unfold bind at 1.
  pose proof (get_links_from_page_admits net cfg u
                (with_scraped (fun l => (l ++ [data])%list) st)) as A.
  destruct (get_links_from_page _ _ _ _) as [ls st'|e st']; simpl in *; [|done].
  split; [done|]. intros x dx [Hx|Hx]%elem_of_app; [by left|right].
  apply list_elem_of_fmap in Hx as (l & [= -> ->] & Hl).
  apply list_elem_of_filter in Hl as [_ Hl]. auto.
Qed.

Lemma split_after_quiet (new l later earlier : list event) e2 :
  (new ++ l = later ++ e2 :: earlier)%list →
  Forall (fun e => ¬ is_scrape e) new → is_scrape e2 →
  ∃ later', l = (later' ++ e2 :: earlier)%list.
Proof.
  revert later. induction new as [|x new IH]; intros later E Fn H2.
  - by exists later.
  - destruct later as [|y later]; simpl in E; simplify_eq.
    + by inversion Fn.
    + inversion Fn; subst. by eapply IH.
Qed.

Lemma spaced_quiet new st st' :
  sent st' = (new ++ sent st)%list → Forall (fun e => ¬ is_scrape e) new →
  keeps_delays cfg st st' → spaced cfg st → spaced cfg st'.
Proof.
  intros En Fn K Hs later e2 earlier e1 E Hin H1 H2 Hd. rewrite En in E.
  destruct (split_after_quiet new (sent st) later earlier e2 E Fn H2)
    as (later' & E').
  destruct (Hs later' e2 earlier e1 E' Hin H1 H2 Hd) as [Hset Hle].
  destruct (settled_keeps st st' _ K Hset) as [? ->]. done.
Qed.

Lemma stamped_quiet new last st st' :
  sent st' = (new ++ sent st)%list → Forall (fun e => ¬ is_scrape e) new →
  stamped last st → stamped last st'.
Proof.
  intros En Fn Hs e He Hsc. rewrite En in He.
  apply elem_of_app in He as [He|He]; [|by apply Hs].
  rewrite Forall_forall in Fn. by destruct (Fn e He).
Qed.

Lemma effective_delay_nonneg st domain :
  Float.le (Fin 0) (delay cfg) → Float.le (Fin 0) (effective_delay cfg st domain).
Proof.
  intros H. unfold effective_delay.
  destruct (domain_delays st !! domain) as [q|]; [|done].
  unfold Float.max. destruct (delay cfg) as [x| | |]; simpl in *; try done.
  destruct (Qlt_le_dec x q); simpl; [lra|done].
Qed.

(** a delay that is not negative has passed since [t], and since any
    time before [t] *)
Lemma passed_since t cd T :
  Float.le (Fin 0) cd →
  cd = NaN ∨ Float.le (Float.add (Fin t) cd) (Fin T) →
  (t <= T)%Q ∧
  ∀ t0, (t0 <= t)%Q → Float.le (Float.add (Fin t0) cd) (Fin T).
Proof.
  intros Hcd [->|Hw]; [done|].
  destruct cd as [c| | |]; simpl in *; try done.
  split; [lra|]. intros t0 Ht0. lra.
Qed.

(** what [visit] adds to the queue was admitted *)
Lemma visit_frontier u d fr st :
  post (visit net cfg u d fr st)
    (fun fr' st' =>
       ∀ x dx, (x, dx) ∈ queue fr' →
               (x, dx) ∈ queue fr ∨ (dx = d + 1 ∧ admitted cfg st' x))
    (fun _ _ => True).
Proof.
  destruct (visit_unfold net cfg u d fr st)
    as [[-> _]|(last & st2 & data & st3 & _ & _ & _ & ->)]; [done|].
  eapply post_mono; [apply harvest_frontier| |done].
  by intros fr' st' [_ ?].
Qed.

Hypothesis delay_nonneg : Float.le (Fin 0) (delay cfg).

Lemma visit_spaced u d fr st :
  stamped (last_request_time fr) st → spaced cfg st →
  (∀ e, e ∈ sent st → ¬ is_scrape e) ∨ settled cfg st (netloc_of u) →
  post (visit net cfg u d fr st)
    (fun fr' st' => stamped (last_request_time fr') st' ∧ spaced cfg st')
    (fun _ st' => spaced cfg st').
Proof.
  intros Hst Hsp Hentry. rewrite visit_eq.
  set (st1 := with_visited _ st).
  set (cd := effective_delay cfg st (netloc_of u)).
  assert (Hcd : Float.le (Fin 0) cd) by (by apply effective_delay_nonneg).
  assert (Hsp1 : spaced cfg st1).
  { eapply (spaced_quiet []); [done|done| |done]. by apply keeps_delays_same. }
  unfold bind at 1.
  pose proof (rate_limit_keeps (netloc_of u) cd (last_request_time fr) st1) as K2.
  destruct (rate_limit_cases (netloc_of u) cd (last_request_time fr) st1)
    as [[E _]|(st2 & E & Est2 & _ & Hwait)]; rewrite E in K2 |- *; [done|].
  assert (En2 : sent st2 = sent st) by (by rewrite Est2).
  simpl in K2. unfold bind at 1.
  pose proof (scrape_url_sends_one u st2) as En3.
  pose proof (scrape_url_result net cfg u st2) as R3.
  pose proof (scrape_url_keeps u st2) as K3.
  destruct (scrape_url net cfg u st2) as [data st3|e st3];
    simpl in En3, R3, K3; [|done].
  rewrite En2 in En3.
  assert (K03 : keeps_delays cfg st st3).
  { etransitivity; [|exact K3]. etransitivity; [|exact K2].
    by apply keeps_delays_same. }
  set (last := <[netloc_of u := now st2]> (last_request_time fr)).
  assert (Hst3 : stamped last st3).
  { intros e He Hsc. rewrite En3 in He.
    apply elem_of_cons in He as [->|He].
    - exists (now st2). split; [apply lookup_insert_eq|simpl; lra].
    - destruct (Hst e He Hsc) as (t & Ht & Hle).
      destruct (decide (event_domain e = netloc_of u)) as [Heq|Hne].
      + exists (now st2). rewrite Heq. split; [apply lookup_insert_eq|].
        rewrite Heq in Ht.
        destruct (passed_since t cd (now st2) Hcd (Hwait t Ht)) as [? _]. lra.
      + exists t. split; [|done]. unfold last. by rewrite lookup_insert_ne. }
  assert (Hsp3 : spaced cfg st3).
  { intros later e2 earlier e1 E' Hin H1 H2 Hd. rewrite En3 in E'.
    destruct later as [|y later]; simpl in E'.
    - assert (E1 : e2 = scrape_request (now st2) u) by (by inversion E').
      assert (E2' : earlier = sent st) by (by inversion E'). subst e2 earlier.
      destruct Hentry as [Hnone|Hset]; [by destruct (Hnone e1 Hin)|].
      destruct (settled_keeps st st3 _ K03 Hset) as [Hset3 Heff].
      change (event_domain (scrape_request (now st2) u)) with (netloc_of u) in *.
      split; [done|]. rewrite Heff.
      destruct (Hst e1 Hin H1) as (t & Ht & Hle).
      rewrite Hd in Ht.
      destruct (passed_since t cd (now st2) Hcd (Hwait t Ht)) as [_ Hp].
      by apply Hp.
    - assert (E'' : sent st = (later ++ e2 :: earlier)%list) by (by inversion E').
      destruct (Hsp later e2 earlier e1 E'' Hin H1 H2 Hd) as [Hset Hle].
      destruct (settled_keeps st st3 _ K03 Hset) as [? ->]. done. }
  destruct (harvest_quiet u d fr last data st3) as (new & En4 & Fn4).
  pose proof (harvest_frontier u d fr last data st3) as Hl.
  pose proof (harvest_keeps u d fr last data st3) as K4.
  fold last.
  destruct (harvest net cfg u d fr last data st3) as [fr' st4|e st4];
    simpl in En4, Hl, K4; simpl.
  - destruct Hl as [-> _].
    split; [by eapply stamped_quiet|by eapply spaced_quiet].
  - by eapply spaced_quiet.
Qed.

Lemma crawl_step_spaced u d fr st :
  stamped (last_request_time fr) st → spaced cfg st →
  frontier_inv cfg st ((u, d) :: queue fr) →
  post (crawl_step net cfg u d fr st)
    (fun fr' st' =>
       stamped (last_request_time fr') st' ∧ spaced cfg st' ∧
       frontier_inv cfg st' (queue fr'))
    (fun _ st' => spaced cfg st').
Proof.
  intros Hst Hsp Hfr.
  assert (Hrest : ∀ st', evolves cfg any_event st st' →
            queue fr = [] ∨ ∀ x dx, (x, dx) ∈ queue fr →
                                    0 < dx ∧ admitted cfg st' x).
  { intros st' Ev. destruct Hfr as [[E _]|Hall].
    - left. by simplify_eq.
    - right. intros x dx Hx. destruct (Hall x dx) as [? ?]; [by right|].
      split; [done|]. by eapply admitted_evolves. }
  assert (Hdepth : 0 ≤ d).
  { destruct Hfr as [[E _]|Hall]; [by simplify_eq|].
    destruct (Hall u d) as [? _]; [by left|lia]. }
  assert (Hentry : (∀ e, e ∈ sent st → ¬ is_scrape e) ∨
                   settled cfg st (netloc_of u)).
  { destruct Hfr as [[_ ?]|Hall]; [by left|right].
    destruct (Hall u d) as [_ [_ _ Hc _]]; [by left|].
    destruct Hc as [?|(policy & Hp & _)]; [by left|right]. by exists policy. }
  assert (Hkeep : ∀ st', evolves cfg any_event st st' →
            frontier_inv cfg st' (queue fr)).
  { intros st' Ev. right. destruct (Hrest st' Ev) as [->|?]; [|done].
    intros x dx Hx. by apply elem_of_nil in Hx. }
  unfold crawl_step, skip_entry. unfold bind at 1 2, get.
  case_bool_decide; simpl.
  { split; [done|]. split; [done|]. apply Hkeep. reflexivity. }
  destruct (_ <? _); simpl.
  { split; [done|]. split; [done|]. apply Hkeep. reflexivity. }
  unfold bind at 1.
  pose proof (is_same_domain_grows cfg u st) as G.
  pose proof (is_same_domain_keeps u st) as K.
  destruct G as [_ _ Ev]. pose proof Ev as [_ _ (new & En & ->%no_new_events) _].
  destruct (is_same_domain cfg u st) as [same st1|e st1]; simpl in En, K, Ev.
  2: { simpl. by eapply (spaced_quiet []). }
  assert (Hst1 : stamped (last_request_time fr) st1)
    by (by eapply (stamped_quiet [])).
  assert (Hsp1 : spaced cfg st1) by (by eapply (spaced_quiet [])).
  assert (Ev1 : evolves cfg any_event st st1) by (by eapply evolves_any).
  destruct same; simpl.
  2: { split; [done|]. split; [done|]. by apply Hkeep. }
  assert (Hentry1 : (∀ e, e ∈ sent st1 → ¬ is_scrape e) ∨
                    settled cfg st1 (netloc_of u)).
  { destruct Hentry as [?|Hset]; [left; by rewrite En|right].
    by apply (settled_keeps st st1 _ K Hset). }
  pose proof (visit_spaced u d fr st1 Hst1 Hsp1 Hentry1) as Hv.
  assert (Ev3 : evolves cfg any_event st
                  (final (visit net cfg u d fr st1))).
  { etransitivity; [exact Ev1|].
    apply (visit_respects net cfg (evolves cfg any_event));
      eauto with footprint;
      try (intros; apply evolves_grows; eauto with footprint; fail);
      try (intros; apply evolves_grows, grows_sending; done);
      try (intros; apply get_robots_parser_evolves). }
  pose proof (visit_frontier u d fr st1) as Hq.
  destruct (visit net cfg u d fr st1) as [fr' st4|e st4];
    simpl in *; [|done].
  destruct Hv as [? ?]. split; [done|]. split; [done|].
  right. intros x dx Hx.
  destruct (Hq x dx Hx) as [Hold|[-> Hadm]].
  - destruct (Hrest st4 Ev3) as [Hnil|Hall]; [|by apply Hall].
    rewrite Hnil in Hold. by apply elem_of_nil in Hold.
  - split; [lia|done].
Qed.

Lemma crawl_loop_spaced fuel fr st :
  stamped (last_request_time fr) st → spaced cfg st →
  frontier_inv cfg st (queue fr) →
  spaced cfg (final (crawl_loop net cfg fuel fr st)).
Proof.
  revert fr st. induction fuel as [|fuel IH]; intros fr st Hst Hsp Hfr; simpl.
  - done.
  - destruct (queue fr) as [|[u d] rest]; simpl; [done|].
    pose proof (crawl_step_spaced u d
                  {| queue := rest; last_request_time := last_request_time fr |}
                  st Hst Hsp Hfr) as H.
    unfold bind.
    destruct (crawl_step _ _ _ _ _ _) as [fr' st'|e st']; simpl in H |- *.
    + destruct H as (? & ? & ?). by apply IH.
    + done.
Qed.

(** between the starts of two scrapes of pages of one domain at least
    the effective delay of the domain passes, in every crawl *)
Lemma scrapes_spaced fuel :
  spaced cfg (final (crawl net cfg fuel (init cfg))).
Proof.
  unfold crawl. unfold bind at 1.
  pose proof (check_start_url_grows net cfg (init cfg))
    as [_ _ [_ _ (new & En & Fn) _]].
  pose proof (check_start_url_keeps (init cfg)) as K.
  assert (Fq : Forall (fun e => ¬ is_scrape e) new).
  { eapply Forall_impl; [exact Fn|]. intros e [He|He] Hs;
      unfold is_scrape in Hs; rewrite He in Hs; discriminate. }
  assert (H0 : spaced cfg (init cfg)).
  { intros later e2 earlier e1 E. by destruct later. }
  assert (S0 : stamped ∅ (init cfg)).
  { intros e He. by apply elem_of_nil in He. }
  destruct (check_start_url net cfg (init cfg)) as [go st1|e st1];
    cbn [final] in En, K.
  2: { exact (spaced_quiet new (init cfg) st1 En Fq K H0). }
  pose proof (spaced_quiet new (init cfg) st1 En Fq K H0) as H1.
  pose proof (stamped_quiet new ∅ (init cfg) st1 En Fq S0) as S1.
  destruct go; [|done].
  assert (F1 : frontier_inv cfg st1 [(start_url cfg, 0)]).
  { left. split; [done|]. rewrite En. simpl. rewrite app_nil_r.
    rewrite Forall_forall in Fq. exact Fq. }
  pose proof (crawl_loop_spaced fuel
                {| queue := [(start_url cfg, 0)]; last_request_time := ∅ |} st1
                S1 H1 F1) as H.
  unfold bind. by destruct (crawl_loop _ _ _ _ _).
Qed.

End Spacing.


(** * More of the crawl

    What the methods do one by one, and what that makes of a crawl. *)

(** ** What one page costs *)

Section Pages.

Context (net : network) (cfg : config).

Lemma in_scope_evolves P st st' u :
  evolves cfg P st st' → in_scope cfg st u → in_scope cfg st' u.
Proof.
  intros [[_ _ Hdom] _ _ _] [?|[? ?]]; [by left|right]. split; [done|]. set_solver.
Qed.

Lemma extract_links_grows u hrefs acc st :
  grows cfg no_event st (final (extract_links cfg u hrefs acc st)).
Proof.
  apply (extract_links_respects cfg (grows cfg no_event)); eauto with footprint.
Qed.

(** the links [extract_data] keeps: among the anchors it was given, in
    their order, those the scope guard passed *)
Lemma extract_links_spec u hrefs acc st :
  post (extract_links cfg u hrefs acc st)
    (fun ls st' =>
       ∃ kept, ls = (acc ++ kept)%list ∧ kept `sublist_of` hrefs ∧
               ∀ l, l ∈ kept → in_scope cfg st' l)
    (fun _ _ => True).
Proof.
  revert acc st. induction hrefs as [|href hrefs IH]; intros acc st; simpl.
  - exists []. rewrite app_nil_r. split; [done|]. split; [done|].
    intros l. by inversion 1.
  - unfold bind at 1, urljoin. destruct (Urllib.valid href); simpl; [|done].
    unfold bind at 1.
    pose proof (is_same_domain_in_scope cfg href st) as Hs.
    destruct (is_same_domain cfg href st) as [ok st1|e st1]; simpl in Hs; [|done].
    specialize (IH (if ok then (acc ++ [href])%list else acc) st1).
    pose proof (extract_links_grows u hrefs
                  (if ok then (acc ++ [href])%list else acc) st1) as G.
    destruct (extract_links cfg u hrefs _ st1) as [ls st2|e st2];
      simpl in *; [|done].
    destruct IH as (kept & -> & Hsub & Hk). destruct ok.
    + exists (href :: kept). rewrite <- app_assoc. split; [done|].
      split; [by constructor|].
      intros l [->|Hl]%elem_of_cons; [|by apply Hk].
      eapply in_scope_evolves; [eapply grows_evolves; exact G|by apply Hs].
    + exists kept. split; [done|]. split; [by constructor|done].
Qed.

(** [scrape_url] never raises; a page it returns is the page of the URL
    it was given *)
Lemma scrape_url_page u st :
  post (scrape_url net cfg u st)
    (fun r st' => ∀ p, r = Some p → page_of cfg st' u p)
    (fun _ _ => False).
Proof.
  unfold scrape_url. apply post_try.
  apply post_mono with
    (K := fun r st' => ∀ p, r = Some p → page_of cfg st' u p)
    (E := fun _ _ => True); [|done|done].
  apply post_bind. unfold send. destruct (outcome _) as [e|resp]; simpl; [done|].
  destruct (status_code resp =? 429) eqn:E429.
  - apply post_bind. by destruct (sleep _ _).
  - apply post_bind. unfold raise_for_status.
    destruct (_ && _) eqn:Eerr; simpl; [done|].
    destruct (negb _); simpl; [done|].
    apply post_bind. unfold extract_data. apply post_bind.
    eapply post_mono; [apply extract_links_spec| |done].
    intros ls st' (kept & -> & Hsub & Hk). simpl. intros p [= <-].
    split; simpl; [done|done| | |done].
    + exists (status_code resp). split; [done|].
      apply andb_false_iff in Eerr as [?%Z.leb_gt|?%Z.ltb_ge]; lia.
    + apply sublist_length in Hsub. rewrite length_take in Hsub. lia.
Qed.

(** [get_links_from_page] sends its request first, and after it only
    requests for robots.txt *)
Lemma get_links_from_page_sends u st :
  ∃ robots,
    sent (final (get_links_from_page net cfg u st)) =
    (robots ++ links_request (now st) u :: sent st)%list ∧
    Forall robots_event robots.
Proof.
  unfold get_links_from_page. rewrite try_bind_send.
  destruct (outcome _) as [e|resp].
  { exists []. split; [|done]. by destruct (is_RequestException e). }
  match goal with
  | |- context [try_except ?m ?hs ?h (sending _ _ _ _)] =>
      assert (H : respects (grows cfg robots_event) (try_except m hs h))
  end.
  { apply respects_try; [apply _| |intros; apply respects_ret; apply _].
    apply respects_bind; [apply _|apply raise_for_status_respects; apply _|].
    intros _. destruct (negb _); [apply respects_ret; apply _|].
    apply respects_bind; [apply _| |intros; apply respects_ret; apply _].
    apply filter_links_respects; eauto with footprint.
    intros. by apply get_robots_parser_grows. }
  destruct (H (sending net Links
                 {| req_method := GET; req_url := u; req_timeout := 10 |} st))
    as [_ _ [_ _ (new & E & F) _]].
  exists new. by rewrite E.
Qed.

(** ** The links of a page *)

Lemma unique_fresh seen ls l : l ∈ unique seen ls → l ∉ seen.
Proof.
  revert seen. induction ls as [|x ls IH]; intros seen; simpl.
  - by inversion 1.
  - case_bool_decide as Hx; [apply IH|].
    intros [->|Hl%IH]%elem_of_cons; [done|]. set_solver.
Qed.

Lemma unique_NoDup seen ls : NoDup (unique seen ls).
Proof.
  revert seen. induction ls as [|x ls IH]; intros seen; simpl.
  - constructor.
  - case_bool_decide; [apply IH|]. constructor; [|apply IH].
    intros Hx%unique_fresh. set_solver.
Qed.

Lemma unique_elem_of seen ls l :
  l ∈ unique seen ls ↔ l ∈ ls ∧ l ∉ seen.
Proof.
  split.
  - intros H. split; [by eapply unique_subset|by eapply unique_fresh].
  - revert seen. induction ls as [|x ls IH]; intros seen [Hin Hs]; simpl.
    + by inversion Hin.
    + case_bool_decide as Hx.
      * apply IH. split; [|done]. by apply elem_of_cons in Hin as [->|?].
      * destruct (decide (l = x)) as [->|Hne]; [by left|].
        right. apply IH. apply elem_of_cons in Hin as [?|?]; [done|].
        split; [done|]. rewrite elem_of_union, elem_of_singleton. tauto.
Qed.

Lemma unique_sublist seen ls : unique seen ls `sublist_of` ls.
Proof.
  revert seen. induction ls as [|x ls IH]; intros seen; simpl; [done|].
  case_bool_decide; by constructor.
Qed.

Lemma unique_id seen ls :
  NoDup ls → (∀ l, l ∈ ls → l ∉ seen) → unique seen ls = ls.
Proof.
  revert seen. induction ls as [|x ls IH]; intros seen Hn Hs; simpl; [done|].
  inversion Hn as [|? ? Hx Hn']; subst.
  rewrite bool_decide_false by (apply Hs; by left). f_equal. apply IH; [done|].
  intros l Hl. assert (Hl' : l ∈ x :: ls) by (by right). specialize (Hs l Hl').
  assert (l ≠ x) by (by intros ->).
  rewrite elem_of_union, elem_of_singleton. tauto.
Qed.

(** the links of [get_links_from_page]: not empty, and not the page *)
Lemma filter_links_others u hrefs acc st :
  (∀ l, l ∈ acc → l ≠ u ∧ l ≠ "") →
  post (filter_links net cfg u hrefs acc st)
    (fun ls _ => ∀ l, l ∈ ls → l ≠ u ∧ l ≠ "")
    (fun _ _ => True).
Proof.
  revert acc st. induction hrefs as [|href hrefs IH]; intros acc st Hacc; simpl.
  - done.
  - unfold bind at 1, urljoin. destruct (Urllib.valid href); simpl; [|done].
    destruct (_ && _) eqn:Ec; [|by apply IH].
    apply andb_true_iff in Ec as [Ht Hne].
    unfold bind at 1.
    destruct (is_valid_url net cfg (clean href) st) as [valid st1|e st1];
      simpl; [|done].
    destruct valid; [|by apply IH].
    unfold bind at 1.
    destruct (is_same_domain cfg (clean href) st1) as [same st2|e st2];
      simpl; [|done].
    apply IH. destruct same; [|done].
    intros l [?| ->%list_elem_of_singleton]%elem_of_app; [by apply Hacc|].
    split.
    + intros E. rewrite E in Hne. by rewrite String.eqb_refl in Hne.
    + intros E. by rewrite E in Ht.
Qed.

End Pages.

(** ** One turn of the loop *)

Section Turns.

Context (net : network) (cfg : config).

Lemma grows_quiet st st' :
  grows cfg no_event st st' → sent st' = sent st.
Proof. by intros [_ _ [_ _ (new & E & ->%no_new_events) _]]. Qed.

Lemma visit_evolves u d fr st :
  evolves cfg any_event st (final (visit net cfg u d fr st)).
Proof.
  apply (visit_respects net cfg (evolves cfg any_event));
    eauto with footprint;
    try (intros; apply evolves_grows; eauto with footprint; fail);
    try (intros; apply evolves_grows, grows_sending; done);
    try (intros; apply get_robots_parser_evolves).
Qed.

Lemma page_of_evolves P st st' u p :
  evolves cfg P st st' → page_of cfg st u p → page_of cfg st' u p.
Proof.
  intros Ev [? ? ? ? Hs]. split; [done..|].
  intros l Hl. eapply in_scope_evolves; [exact Ev|by apply Hs].
Qed.

(** the state [harvest] ends in *)
Lemma harvest_final u d fr last data st :
  final (harvest net cfg u d fr last data st) =
  match data with
  | Some p =>
      let st' := with_scraped (fun l => (l ++ [p])%list) st in
      if d <? max_depth cfg then final (get_links_from_page net cfg u st')
      else st'
  | None => st
  end.
Proof.
  unfold harvest. destruct data as [p|]; simpl; [|done].
  unfold bind at 1, modify. destruct (d <? max_depth cfg); [|done].
  unfold bind. by destruct (get_links_from_page _ _ _ _).
Qed.

(** what a visit leaves behind: the URL is visited; unless the wait
    raises, its request is sent, and after that at most the request of
    link extraction and requests for robots.txt; at most one page is
    recorded, the page of the URL *)
Lemma visit_spec u d fr st :
  ∃ t data robots,
    let st' := final (visit net cfg u d fr st) in
    visited_urls st' = visited_urls st ∪ {[ u ]} ∧
    scraped_data st' = (scraped_data st ++ option_list data)%list ∧
    (∀ p, data = Some p → page_of cfg st' u p) ∧
    Forall robots_event robots ∧
    ((visit net cfg u d fr st = Raise OverflowError st' ∧ data = None ∧
      sent st' = sent st ∧
      is_Some (last_request_time fr !! netloc_of u)) ∨
     sent st' = scrape_request t u :: sent st ∨
     (is_Some data ∧ d < max_depth cfg ∧
      ∃ t', sent st' =
            (robots ++ links_request t' u :: scrape_request t u :: sent st)%list)).
Proof.
  destruct (visit_unfold net cfg u d fr st)
    as [(E & _ & t & Ht & _)|(last & st2 & data & st3 & G2 & _ & E3 & Ev)].
  { exists 0%Q, None, []. rewrite E. simpl. rewrite app_nil_r.
    repeat split_and; try done. left. by split. }
  pose proof (grows_quiet _ _ G2) as En2. destruct G2 as [Ev2 Es2 _].
  simpl in Ev2, Es2, En2.
  pose proof (scrape_url_grows net cfg u st2) as [Ev3 Es3 _].
  pose proof (scrape_url_page net cfg u st2) as P3.
  pose proof (scrape_url_sends_one net cfg u st2) as En3.
  rewrite E3 in Ev3, Es3, P3, En3. simpl in Ev3, Es3, P3, En3.
  rewrite En2 in En3. rewrite Ev2 in Ev3. rewrite Es2 in Es3.
  pose proof (harvest_evolves net cfg u d fr last data st3) as Ev4.
  rewrite Ev. clear Ev E3. cbv zeta.
  remember (final (harvest net cfg u d fr last data st3)) as stf eqn:Ef.
  rewrite harvest_final in Ef.
  exists (now st2), data.
  destruct data as [p|]; simpl in Ef.
  2: { subst stf. exists []. rewrite app_nil_r. repeat split_and; try done.
       right. by left. }
  set (st4 := with_scraped _ st3) in *.
  destruct (Z.ltb_spec d (max_depth cfg)) as [Hd|Hd].
  2: { subst stf. exists []. simpl. rewrite Es3. repeat split_and; try done.
       - intros ? [= <-]. eapply page_of_evolves; [|by apply P3].
         apply (evolves_with_scraped cfg any_event).
       - right. by left. }
  pose proof (get_links_from_page_grows net cfg u st4) as [Ev5 Es5 _].
  destruct (get_links_from_page_sends net cfg u st4) as (robots & En5 & Fr).
  rewrite <- Ef in Ev5, Es5, En5. simpl in Ev5, Es5, En5.
  exists robots. rewrite Ev5, Es5. simpl. rewrite Ev3, Es3.
  repeat split_and; try done.
  - intros ? [= <-]. eapply page_of_evolves; [exact Ev4|by apply P3].
  - right. right. split; [done|]. split; [done|]. exists (now st3).
    by rewrite En5, <- En3.
Qed.

(** an entry is skipped, or it is new, within the depth and in scope,
    and is visited; the scope guard may have admitted its domain *)
Lemma crawl_step_cases u d fr st :
  ∃ st1,
    grows cfg no_event st st1 ∧
    (crawl_step net cfg u d fr st = Ret fr st1 ∨
     ((u ∉ visited_urls st1) ∧ d ≤ max_depth cfg ∧ in_scope cfg st1 u ∧
      crawl_step net cfg u d fr st = visit net cfg u d fr st1)).
Proof.
  destruct (decide (u ∈ visited_urls st)) as [Hv|Hv].
  { exists st. split; [reflexivity|left]. apply crawl_step_skips. by left. }
  destruct (Z.lt_ge_cases (max_depth cfg) d) as [Hd|Hd].
  { exists st. split; [reflexivity|left]. apply crawl_step_skips. by right. }
  assert (E : crawl_step net cfg u d fr st =
              bind (is_same_domain cfg u)
                (fun same => if same then visit net cfg u d fr else ret fr) st).
  { unfold crawl_step, skip_entry. unfold bind at 1 2, get.
    rewrite bool_decide_false by done.
    destruct (Z.ltb_spec (max_depth cfg) d); [lia|].
    unfold bind. destruct (is_same_domain cfg u st) as [[|] ?|]; done. }
  rewrite E. unfold bind.
  pose proof (is_same_domain_grows cfg u st) as G.
  pose proof (is_same_domain_in_scope cfg u st) as Hs.
  destruct (is_same_domain cfg u st) as [same st1|e st1]; simpl in G, Hs; [|done].
  exists st1. split; [done|]. destruct same; [right|by left].
  split; [by destruct G as [-> _ _]|]. split; [done|]. split; [by apply Hs|done].
Qed.

(** an invariant of the loop holds of what the crawl returns, whatever
    the fuel; [N] is for the return before the loop, [E] for the
    exceptions *)
Lemma crawl_post (I : frontier → state → Prop) (N : state → Prop)
    (E : exn → state → Prop) :
  post (check_start_url net cfg (init cfg))
    (fun go st =>
       if go
       then I {| queue := [(start_url cfg, 0)]; last_request_time := ∅ |} st
       else N st)
    E →
  (∀ u d rest last st,
     I {| queue := (u, d) :: rest; last_request_time := last |} st →
     post (crawl_step net cfg u d
             {| queue := rest; last_request_time := last |} st)
       I E) →
  ∀ fuel,
    post (crawl net cfg fuel (init cfg))
      (fun r st => match r with Some fr => I fr st | None => N st end)
      E.
Proof.
  intros Hstart Hstep fuel. unfold crawl. unfold bind at 1.
  destruct (check_start_url net cfg (init cfg)) as [go st1|e st1];
    simpl in Hstart |- *; [|done].
  destruct go; simpl; [|done].
  assert (Hloop : ∀ fuel fr st, I fr st →
            post (crawl_loop net cfg fuel fr st) I E).
  { intros fuel0. induction fuel0 as [|fuel0 IH]; intros fr st Hi; simpl.
    - done.
    - destruct fr as [q last]. simpl. destruct q as [|[u d] rest]; simpl; [done|].
      apply post_bind. eapply post_mono; [by apply Hstep| |done].
      intros fr' st' Hi'. by apply IH. }
  specialize (Hloop fuel _ _ Hstart). unfold bind.
  by destruct (crawl_loop _ _ _ _ _) as [fr st|e st].
Qed.

(** an invariant of the loop holds when the crawl ends, however it
    ends and whatever the fuel *)
Lemma crawl_ind (I : frontier → state → Prop) (E : state → Prop) :
  (∀ fr st, I fr st → E st) →
  post (check_start_url net cfg (init cfg))
    (fun go st =>
       if go
       then I {| queue := [(start_url cfg, 0)]; last_request_time := ∅ |} st
       else E st)
    (fun _ st => E st) →
  (∀ u d rest last st,
     I {| queue := (u, d) :: rest; last_request_time := last |} st →
     post (crawl_step net cfg u d
             {| queue := rest; last_request_time := last |} st)
       I (fun _ st' => E st')) →
  ∀ fuel, E (final (crawl net cfg fuel (init cfg))).
Proof.
  intros HE Hstart Hstep fuel.
  pose proof (crawl_post I E (fun _ st => E st) Hstart Hstep fuel) as H.
  destruct (crawl net cfg fuel (init cfg)) as [[fr|] st|e st]; simpl in *;
    [by eapply HE|done|done].
Qed.

End Turns.

(** ** The books of a crawl *)

Section Ledger.

Context (net : network) (cfg : config).

Lemma post_final {A} (r : Result A) (K : state → Prop) :
  K (final r) → post r (fun _ st => K st) (fun _ st => K st).
Proof. by destruct r. Qed.

Lemma urls_for_cons why e evs :
  urls_for why (e :: evs) =
  if decide (ev_purpose e = why)
  then req_url (ev_request e) :: urls_for why evs
  else urls_for why evs.
Proof. unfold urls_for. rewrite filter_cons. by destruct (decide _). Qed.

Lemma urls_for_app why evs evs' :
  urls_for why (evs ++ evs') = (urls_for why evs ++ urls_for why evs')%list.
Proof. unfold urls_for. by rewrite filter_app, fmap_app. Qed.

Lemma urls_for_others why evs :
  Forall (fun e => ev_purpose e ≠ why) evs → urls_for why evs = [].
Proof.
  induction 1 as [|e evs He _ IH]; [done|].
  rewrite urls_for_cons. by destruct (decide _).
Qed.

Lemma links_follow_others evs evs' :
  Forall (fun e => ev_purpose e ≠ Links) evs →
  links_follow evs' → links_follow (evs ++ evs').
Proof. induction 1 as [|e evs He _ IH]; simpl; [done|]. intros H. by split; [|apply IH]. Qed.

(** a step that sends nothing and records nothing keeps the books *)
Lemma ledger_quiet st st' :
  grows cfg no_event st st' → ledger cfg st → ledger cfg st'.
Proof.
  intros G [H1 H2 H3 H4 H5 H6 H7]. pose proof (grows_quiet cfg _ _ G) as En.
  destruct G as [Ev Es G]. unfold requested in *.
  split; unfold requested; rewrite ?En, ?Ev, ?Es; try done.
  intros p Hp. eapply page_of_evolves; [exact G|by apply H6].
Qed.

Lemma ledger_start st :
  grows cfg probe_event (init cfg) st → ledger cfg st.
Proof.
  intros [Ev Es [_ _ (new & En & Fn) _]]. simpl in Ev, Es, En.
  rewrite app_nil_r in En.
  assert (Hs : requested Scrape st = []).
  { unfold requested. rewrite En. apply urls_for_others.
    eapply Forall_impl; [exact Fn|]. intros e [He|He]; by rewrite He. }
  assert (Hl : requested Links st = []).
  { unfold requested. rewrite En. apply urls_for_others.
    eapply Forall_impl; [exact Fn|]. intros e [He|He]; by rewrite He. }
  split.
  - rewrite Hs. constructor.
  - intros u. rewrite Hs. by inversion 1.
  - rewrite Hl. constructor.
  - intros u. rewrite Hl. by inversion 1.
  - intros p. rewrite Es. by inversion 1.
  - intros p. rewrite Es. by inversion 1.
  - rewrite En. rewrite <- (app_nil_r new). apply links_follow_others; [|done].
    eapply Forall_impl; [exact Fn|]. intros e [He|He]; by rewrite He.
Qed.

Lemma ledger_visit u d fr st :
  u ∉ visited_urls st → ledger cfg st →
  ledger cfg (final (visit net cfg u d fr st)).
Proof.
  intros Hnew [H1 H2 H3 H4 H5 H6 H7].
  pose proof (visit_evolves net cfg u d fr st) as Ev.
  destruct (visit_spec net cfg u d fr st)
    as (t & data & robots & Hv & Hs & Hp & Fr & Hsent).
  cbv zeta in *. set (st' := final (visit net cfg u d fr st)) in *.
  assert (Fs : Forall (fun e => ev_purpose e ≠ Scrape) robots).
  { eapply Forall_impl; [exact Fr|]. intros e He. by rewrite He. }
  assert (Fl : Forall (fun e => ev_purpose e ≠ Links) robots).
  { eapply Forall_impl; [exact Fr|]. intros e He. by rewrite He. }
  assert (Hu : u ∉ requested Scrape st) by (by intros ?%H2).
  assert (Hul : u ∉ requested Links st).
  { intros (p & Eu & Hin)%H4%list_elem_of_fmap. apply Hnew. rewrite Eu. by apply H5. }
  assert (Es : requested Scrape st' = requested Scrape st ∨
               requested Scrape st' = u :: requested Scrape st).
  { unfold requested.
    destruct Hsent as [(_ & _ & -> & _)|[->|(_ & _ & t' & ->)]];
      [by left|by right|right].
    by rewrite urls_for_app, (urls_for_others _ _ Fs). }
  assert (Hold : ∀ p, p ∈ scraped_data st → page_of cfg st' (url p) p).
  { intros p Hin. eapply page_of_evolves; [exact Ev|by apply H6]. }
  split.
  - destruct Es as [->| ->]; [done|by constructor].
  - intros x. rewrite Hv, elem_of_union, elem_of_singleton.
    destruct Es as [->| ->]; [by left; apply H2|].
    intros [->|?]%elem_of_cons; [by right|by left; apply H2].
  - unfold requested.
    destruct Hsent as [(_ & _ & -> & _)|[->|(_ & _ & t' & ->)]]; [done|done|].
    rewrite urls_for_app, (urls_for_others _ _ Fl). simpl. by constructor.
  - intros x. rewrite Hs, fmap_app, elem_of_app. unfold requested.
    destruct Hsent as [(_ & _ & -> & _)|[->|([p ->] & _ & t' & ->)]];
      [by left; apply H4|by left; apply H4|].
    rewrite urls_for_app, (urls_for_others _ _ Fl). simpl.
    intros [->|?]%elem_of_cons; [right|by left; apply H4].
    destruct (Hp p eq_refl) as [-> _ _ _ _]. simpl. by left.
  - intros p. rewrite Hs, Hv, elem_of_app, elem_of_union, elem_of_singleton.
    intros [Hin|Hin]; [left; by apply H5|right].
    destruct data as [q|]; simpl in Hin; [|by inversion Hin].
    apply list_elem_of_singleton in Hin as ->. by destruct (Hp q eq_refl).
  - intros p. rewrite Hs, elem_of_app. intros [Hin|Hin]; [by apply Hold|].
    destruct data as [q|]; simpl in Hin; [|by inversion Hin].
    apply list_elem_of_singleton in Hin as ->.
    destruct (Hp q eq_refl) as [Eu ? ? ? ?]. rewrite Eu. by apply Hp.
  - destruct Hsent as [(_ & _ & -> & _)|[->|(_ & _ & t' & ->)]];
      [done|by split|].
    apply links_follow_others; [done|]. simpl. split; [by exists t|by split].
Qed.

(** a visit scrapes the URL it marks visited, unless the wait raises *)
Lemma all_scraped_visit u d fr st :
  all_scraped st →
  post (visit net cfg u d fr st)
    (fun _ st' => all_scraped st')
    (fun _ st' => all_scraped_but_one st').
Proof.
  intros Ha.
  destruct (visit_spec net cfg u d fr st)
    as (t & data & robots & Hv & _ & _ & Fr & Hsent).
  cbv zeta in *.
  assert (Fs : Forall (fun e => ev_purpose e ≠ Scrape) robots).
  { eapply Forall_impl; [exact Fr|]. intros e He. by rewrite He. }
  assert (Hall : requested Scrape (final (visit net cfg u d fr st))
                 = u :: requested Scrape st →
                 all_scraped (final (visit net cfg u d fr st))).
  { intros Es x. rewrite Hv, Es, elem_of_union, elem_of_singleton, elem_of_cons.
    intros [?%Ha| ->]; [by right|by left]. }
  destruct Hsent as [(E & _ & En & _)|Hsent].
  - rewrite E in Hv, En |- *. simpl in *. exists u. intros x.
    unfold requested. rewrite Hv, En, elem_of_union, elem_of_singleton.
    intros [?%Ha|?]; [by left|by right].
  - assert (Es : requested Scrape (final (visit net cfg u d fr st))
                 = u :: requested Scrape st).
    { unfold requested. destruct Hsent as [->|(_ & _ & t' & ->)]; [done|].
      by rewrite urls_for_app, (urls_for_others _ _ Fs). }
    specialize (Hall Es).
    destruct (visit net cfg u d fr st) as [fr' st'|e st']; simpl in *; [done|].
    exists u. intros x Hx. left. by apply Hall.
Qed.

(** the books are kept, whatever the fuel and however the crawl ends *)
Lemma ledger_kept fuel : ledger cfg (final (crawl net cfg fuel (init cfg))).
Proof.
  apply (crawl_ind net cfg (fun _ st => ledger cfg st)); [done| |].
  - pose proof (check_start_url_grows net cfg (init cfg)) as G.
    destruct (check_start_url net cfg (init cfg)) as [[|] st|e st];
      simpl in *; by apply ledger_start.
  - intros u d rest last st Hl.
    destruct (crawl_step_cases net cfg u d
                {| queue := rest; last_request_time := last |} st)
      as (st1 & G & [->|(Hv & _ & _ & ->)]).
    + simpl. by eapply ledger_quiet.
    + apply post_final. apply ledger_visit; [done|]. by eapply ledger_quiet.
Qed.

(** every visited URL has been scraped when the crawl returns; when
    it raises, all but one at most *)
Lemma all_scraped_kept fuel :
  post (crawl net cfg fuel (init cfg))
    (fun _ st => all_scraped st)
    (fun _ st => all_scraped_but_one st).
Proof.
  eapply post_mono;
    [apply (crawl_post net cfg (fun _ st => all_scraped st) all_scraped
              (fun _ st => all_scraped_but_one st))| |done].
  - pose proof (check_start_url_grows net cfg (init cfg)) as [Ev _ _].
    assert (Ha : all_scraped (final (check_start_url net cfg (init cfg)))).
    { intros u. rewrite Ev. simpl. by intros ?%elem_of_empty. }
    destruct (check_start_url net cfg (init cfg)) as [[|] st|e st];
      simpl in *; try done.
    exists (start_url cfg). intros u Hu. left. by apply Ha.
  - intros u d rest last st Ha.
    destruct (crawl_step_cases net cfg u d
                {| queue := rest; last_request_time := last |} st)
      as (st1 & G & Hstep).
    assert (Ha1 : all_scraped st1).
    { intros x. unfold requested. rewrite (grows_quiet cfg _ _ G).
      destruct G as [-> _ _]. apply Ha. }
    destruct Hstep as [->|(_ & _ & _ & ->)]; [done|].
    by apply all_scraped_visit.
  - by intros [fr|] st.
Qed.

End Ledger.

(** ** The loop comes to an end *)

Section Termination.

Context (net : network) (cfg : config).

(** a turn of the loop adds to the end of the queue, and only entries of
    the next depth, within the limit *)
Lemma harvest_queue u d fr last data st :
  post (harvest net cfg u d fr last data st)
    (fun fr' _ =>
       ∃ new, queue fr' = (queue fr ++ new)%list ∧
              ∀ x dx, (x, dx) ∈ new → dx = d + 1 ∧ d < max_depth cfg)
    (fun _ _ => True).
Proof.
  assert (Hnone : ∃ new : list (string * Z),
            queue fr = (queue fr ++ new)%list ∧
            ∀ x dx, (x, dx) ∈ new → dx = d + 1 ∧ d < max_depth cfg).
  { exists []. rewrite app_nil_r. split; [done|]. intros x dx. by inversion 1. }
  unfold harvest. destruct data as [data|]; simpl; [|done].
  unfold bind at 1, modify.
  destruct (Z.ltb_spec d (max_depth cfg)) as [Hd|Hd]; simpl; [|done].
  unfold bind at 1.
  destruct (get_links_from_page _ _ _ _) as [ls st'|e st']; simpl; [|done].
  eexists. split; [reflexivity|].
  intros x dx (l & [= -> ->] & _)%list_elem_of_fmap. done.
Qed.

Lemma crawl_step_queue u d fr st :
  post (crawl_step net cfg u d fr st)
    (fun fr' _ =>
       ∃ new, queue fr' = (queue fr ++ new)%list ∧
              ∀ x dx, (x, dx) ∈ new → dx = d + 1 ∧ d < max_depth cfg)
    (fun _ _ => True).
Proof.
  destruct (crawl_step_cases net cfg u d fr st)
    as (st1 & _ & [->|(_ & _ & _ & ->)]).
  - simpl. exists []. rewrite app_nil_r. split; [done|].
    intros x dx. by inversion 1.
  - destruct (visit_unfold net cfg u d fr st1)
      as [[-> _]|(last & st2 & data & st3 & _ & _ & _ & ->)]; [done|].
    apply harvest_queue.
Qed.

(** once the loop has come to its end, more fuel changes nothing *)
Lemma crawl_loop_more fuel k fr st :
  emptied (crawl_loop net cfg fuel fr st) →
  crawl_loop net cfg (fuel + k) fr st = crawl_loop net cfg fuel fr st.
Proof.
  revert fr st. induction fuel as [|fuel IH]; intros fr st; simpl.
  - intros Hq. destruct k; simpl; [done|]. by rewrite Hq.
  - destruct (queue fr) as [|[u d] rest]; [done|]. unfold bind.
    destruct (crawl_step _ _ _ _ _ _) as [fr' st'|e st']; [apply IH|done].
Qed.

(** a queue of entries beyond the depth limit is skipped to its end *)
Lemma crawl_loop_ends_0 q last st :
  (∀ x dx, (x, dx) ∈ q → (levels_left cfg dx ≤ 0)%nat) →
  ∃ fuel, emptied (crawl_loop net cfg fuel
                     {| queue := q; last_request_time := last |} st).
Proof.
  induction q as [|[u d] q IH]; intros Hq.
  - by exists 0%nat.
  - destruct IH as (fuel & Hf).
    { intros x dx Hx. apply (Hq x dx). by right. }
    exists (S fuel). simpl. unfold bind.
    rewrite crawl_step_skips; [done|]. right.
    specialize (Hq u d (list_elem_of_here _ _)). unfold levels_left in Hq. lia.
Qed.

Lemma crawl_loop_ends_S n :
  (∀ q last st,
     (∀ x dx, (x, dx) ∈ q → (levels_left cfg dx ≤ n)%nat) →
     ∃ fuel, emptied (crawl_loop net cfg fuel
                        {| queue := q; last_request_time := last |} st)) →
  ∀ q1 q2 last st,
    (∀ x dx, (x, dx) ∈ q1 → (levels_left cfg dx ≤ S n)%nat) →
    (∀ x dx, (x, dx) ∈ q2 → (levels_left cfg dx ≤ n)%nat) →
    ∃ fuel, emptied (crawl_loop net cfg fuel
                       {| queue := (q1 ++ q2)%list;
                          last_request_time := last |} st).
Proof.
  intros Hn q1. induction q1 as [|[u d] q1 IH]; intros q2 last st H1 H2.
  - by apply Hn.
  - pose proof (crawl_step_queue u d
                  {| queue := (q1 ++ q2)%list; last_request_time := last |} st)
      as Hstep.
    destruct (crawl_step net cfg u d
                {| queue := (q1 ++ q2)%list; last_request_time := last |} st)
      as [[q' last'] st'|e st'] eqn:Es; simpl in Hstep.
    + destruct Hstep as (new & -> & Hnew).
      destruct (IH (q2 ++ new)%list last' st') as (fuel & Hf).
      { intros x dx Hx. apply (H1 x dx). by right. }
      { intros x dx [Hx|Hx]%elem_of_app; [by apply (H2 x dx)|].
        destruct (Hnew x dx Hx) as [-> Hd].
        specialize (H1 u d (list_elem_of_here _ _)).
        unfold levels_left in *. lia. }
      exists (S fuel). simpl. unfold bind. rewrite Es.
      by rewrite <- app_assoc.
    + exists 1%nat. simpl. unfold bind. by rewrite Es.
Qed.

Lemma crawl_loop_ends n q last st :
  (∀ x dx, (x, dx) ∈ q → (levels_left cfg dx ≤ n)%nat) →
  ∃ fuel, emptied (crawl_loop net cfg fuel
                     {| queue := q; last_request_time := last |} st).
Proof.
  revert q last st. induction n as [|n IH]; intros q last st Hq.
  - by apply crawl_loop_ends_0.
  - rewrite <- (app_nil_r q). apply (crawl_loop_ends_S n IH); [done|].
    intros x dx. by inversion 1.
Qed.

End Termination.

(** ** The scope guard's books

    A relation on the count of hops and the set of admitted domains
    that the scope guard's one step respects is respected by a crawl. *)

Section ScopeOnly.

Context (net : network) (cfg : config).
Context (R : state → state → Prop) `{!Reflexive R} `{!Transitive R}.

Hypothesis R_scope : ∀ st d,
  allow_exit cfg = true → d ≠ start_domain cfg → d ∉ current_domains st →
  max_external_hops st < external_links_depth cfg →
  R st (with_scope (max_external_hops st + 1) (current_domains st ∪ {[ d ]}) st).

Hypothesis R_same : ∀ st st',
  max_external_hops st' = max_external_hops st →
  current_domains st' = current_domains st → R st st'.

Lemma scope_only_robots domain : respects R (get_robots_parser net cfg domain).
Proof.
  apply (get_robots_parser_respects net cfg R); intros; by apply R_same.
Qed.

Lemma scope_only_crawl_loop fuel fr : respects R (crawl_loop net cfg fuel fr).
Proof.
  apply (crawl_loop_respects net cfg R);
    try done; try apply scope_only_robots; intros; by apply R_same.
Qed.

Lemma scope_only_crawl fuel : respects R (crawl net cfg fuel).
Proof.
  apply (crawl_respects net cfg R);
    try done; try apply scope_only_robots; intros; by apply R_same.
Qed.

End ScopeOnly.

Section ScopeBooks.

Context (net : network) (cfg : config).

Lemma counted_crawl fuel : counted cfg (final (crawl net cfg fuel (init cfg))).
Proof.
  set (R := fun st st' : state => counted cfg st → counted cfg st').
  assert (Hr : Reflexive R) by (intros st H; exact H).
  assert (Ht : Transitive R) by (intros a b c Hab Hbc Ha; by apply Hbc, Hab).
  assert (H : R (init cfg) (final (crawl net cfg fuel (init cfg)))).
  { apply (scope_only_crawl net cfg R).
    - intros st d _ _ Hd _ [Hs Hc].
      split; cbn [with_scope current_domains max_external_hops].
      + apply elem_of_union_l, Hs.
      + rewrite size_union by (by apply disjoint_singleton_r).
        rewrite size_singleton. lia.
    - intros st st' Eh Ed [Hs Hc]. split; by rewrite ?Ed, ?Eh. }
  apply H. unfold init. split; cbn [current_domains max_external_hops].
  - by apply elem_of_singleton.
  - by rewrite size_singleton.
Qed.

Global Instance frozen_refl : Reflexive (frozen cfg).
Proof. by intros st _. Qed.

Global Instance frozen_trans : Transitive (frozen cfg).
Proof.
  intros a b c Hab Hbc Ha. destruct (Hab Ha) as [E1 E2].
  destruct Hbc as [E3 E4]; [lia|]. split; congruence.
Qed.

Lemma frozen_crawl_loop fuel fr st :
  frozen cfg st (final (crawl_loop net cfg fuel fr st)).
Proof.
  apply (scope_only_crawl_loop net cfg (frozen cfg)).
  - intros st0 d _ _ _ Hlt Hge. lia.
  - intros st0 st' Eh Ed _. done.
Qed.

End ScopeBooks.

(** ** The robots cache's books

    Requests for robots.txt are sent by [get_robots_parser] alone: a
    relation that it respects, and that the other steps of the crawl
    with the requests for pages respect, is respected by a crawl. *)

Section Purposes.

Context (net : network) (cfg : config).
Context (R : state → state → Prop) `{!Reflexive R} `{!Transitive R}.

Hypothesis R_scope : ∀ st d,
  allow_exit cfg = true → d ≠ start_domain cfg → d ∉ current_domains st →
  max_external_hops st < external_links_depth cfg →
  R st (with_scope (max_external_hops st + 1) (current_domains st ∪ {[ d ]}) st).
Hypothesis R_robots : ∀ domain, respects R (get_robots_parser net cfg domain).
Hypothesis R_sleep : ∀ st secs,
  (0 <= secs)%Q → R st (with_world (now st + secs) (sent st) st).
Hypothesis R_visited : ∀ st u, R st (with_visited (fun v => v ∪ {[ u ]}) st).
Hypothesis R_scraped : ∀ st d, R st (with_scraped (fun l => (l ++ [d])%list) st).
Hypothesis R_page : ∀ st why r, why ≠ Robots → R st (sending net why r st).

Lemma harvest_closed u depth fr last data :
  respects R (harvest net cfg u depth fr last data).
Proof.
  unfold harvest. destruct data as [data|]; [|by apply respects_ret].
  apply respects_bind; [done|intros st; apply R_scraped|]. intros _.
  destruct (_ <? _); [|by apply respects_ret].
  apply respects_bind; [done| |].
  - apply get_links_from_page_respects; try done. intros. by apply R_page.
  - intros ls. apply respects_bind; [done|by apply respects_get|].
    intros; by apply respects_ret.
Qed.

Lemma visit_closed u depth fr : respects R (visit net cfg u depth fr).
Proof.
  unfold visit.
  apply respects_bind; [done|intros st; apply R_visited|]. intros _.
  apply respects_bind; [done|by apply get_crawl_delay_respects|]. intros cd.
  apply respects_bind; [done|by apply rate_limit_respects|]. intros last.
  apply respects_bind; [done| |intros data; apply harvest_closed].
  apply scrape_url_respects; try done. intros. by apply R_page.
Qed.

Lemma crawl_step_closed u depth fr : respects R (crawl_step net cfg u depth fr).
Proof.
  unfold crawl_step. apply respects_bind; [done|by apply skip_entry_respects|].
  intros skip. destruct skip; [by apply respects_ret|apply visit_closed].
Qed.

Lemma crawl_loop_closed fuel fr : respects R (crawl_loop net cfg fuel fr).
Proof.
  revert fr. induction fuel as [|fuel IH]; intros fr; simpl.
  - by apply respects_ret.
  - destruct (queue fr) as [|[u d] rest]; [by apply respects_ret|].
    apply respects_bind; [done|apply crawl_step_closed|]. intros fr'. apply IH.
Qed.

Lemma crawl_closed fuel : respects R (crawl net cfg fuel).
Proof.
  unfold crawl. apply respects_bind; [done| |].
  - apply check_start_url_respects; try done. intros. by apply R_page.
  - intros go. destruct go; [|by apply respects_ret].
    apply respects_bind; [done|apply crawl_loop_closed|].
    intros; by apply respects_ret.
Qed.

End Purposes.

Section RobotsBook.

Context (net : network) (cfg : config).

Lemma length_append (a t : string) :
  String.length (a +:+ t) = (String.length a + String.length t)%nat.
Proof.
  induction a as [|c a IH]; rewrite ?append_nil_l, ?append_cons; simpl; [done|].
  by rewrite IH.
Qed.

Lemma append_inj_r (a b t : string) : a +:+ t = b +:+ t → a = b.
Proof.
  revert b. induction a as [|c a IH]; intros [|c' b];
    rewrite ?append_nil_l, ?append_cons; intros E.
  - done.
  - apply (f_equal String.length) in E. simpl in E. rewrite length_append in E. lia.
  - apply (f_equal String.length) in E. simpl in E. rewrite length_append in E. lia.
  - injection E as -> E. f_equal. by apply IH.
Qed.

(** the robots.txt of two domains are two URLs *)
Lemma robots_url_inj d d' : robots_url cfg d = robots_url cfg d' → d = d'.
Proof.
  unfold robots_url. intros E.
  apply (inj (String.app _)) in E. apply (inj (String.app _)) in E.
  by apply append_inj_r in E.
Qed.

Lemma robots_book_same st st' :
  sent st' = sent st → robots_cache st' = robots_cache st →
  domain_delays st' = domain_delays st →
  robots_book cfg st → robots_book cfg st'.
Proof.
  intros En Ec Ed [H1 H2 H3 H4].
  split; unfold requested in *; rewrite ?En, ?Ec, ?Ed; done.
Qed.

Lemma robots_book_page st why r :
  why ≠ Robots → robots_book cfg st → robots_book cfg (sending net why r st).
Proof.
  intros Hw [H1 H2 H3 H4].
  assert (E : requested Robots (sending net why r st) = requested Robots st).
  { unfold requested. simpl. rewrite urls_for_cons. simpl.
    by destruct (decide (why = Robots)). }
  split; rewrite ?E; done.
Qed.

Lemma robots_book_robots d st :
  robots_book cfg st →
  robots_book cfg (final (get_robots_parser net cfg d st)).
Proof.
  intros Hb. destruct (respect_robots cfg) eqn:Hrr.
  2: { unfold get_robots_parser. by rewrite Hrr. }
  destruct (robots_cache st !! d) as [rp|] eqn:Hc.
  { unfold get_robots_parser. rewrite Hrr. simpl. unfold bind, get.
    by rewrite Hc. }
  destruct (get_robots_parser_miss net cfg d st Hrr Hc) as (policy & ->).
  destruct Hb as [H1 H2 H3 H4]. simpl.
  set (st' := with_robots _ _ _).
  assert (E : requested Robots st' = robots_url cfg d :: requested Robots st).
  { unfold requested. simpl. by rewrite urls_for_cons. }
  split.
  - rewrite E. constructor; [|done].
    intros (d' & ->%robots_url_inj & Hd')%H2. rewrite Hc in Hd'.
    by destruct Hd'.
  - intros u. rewrite E, elem_of_cons, H2. simpl. split.
    + intros [->|(d' & -> & Hd')].
      * exists d. split; [done|]. by rewrite lookup_insert_eq.
      * exists d'. split; [done|]. rewrite lookup_insert_is_Some. 
        destruct (decide (d = d')); [by left|by right].
    + intros (d' & -> & Hd'). apply lookup_insert_is_Some in Hd' as [->|[_ Hd']].
      * by left.
      * right. by exists d'.
  - intros d'. simpl. destruct (decide (d' = d)) as [->|Hne].
    + rewrite lookup_insert_eq. simpl.
      destruct (declared_delay cfg policy) as [q|]; [by rewrite lookup_insert_eq|].
      by rewrite H3, Hc.
    + rewrite (lookup_insert_ne (robots_cache st)) by done. rewrite <- H3.
      destruct (declared_delay cfg policy) as [q|]; [|done].
      by rewrite lookup_insert_ne.
  - intros Hoff. congruence.
Qed.

Lemma robots_book_init : robots_book cfg (init cfg).
Proof.
  split; unfold requested; simpl.
  - constructor.
  - intros u. split; [by inversion 1|]. intros (d & _ & Hd).
    rewrite lookup_empty in Hd. by destruct Hd.
  - intros d. by rewrite !lookup_empty.
  - done.
Qed.

(** the books of the robots cache are kept throughout a crawl *)
Lemma robots_book_kept fuel :
  robots_book cfg (final (crawl net cfg fuel (init cfg))).
Proof.
  set (R := fun st st' : state => robots_book cfg st → robots_book cfg st').
  assert (Hr : Reflexive R) by (intros st H; exact H).
  assert (Ht : Transitive R) by (intros a b c Hab Hbc Ha; by apply Hbc, Hab).
  assert (H : R (init cfg) (final (crawl net cfg fuel (init cfg)))).
  { apply (crawl_closed net cfg R).
    - intros st d _ _ _ _ Hb. by apply (robots_book_same st).
    - intros d st Hb. by apply robots_book_robots.
    - intros st secs _ Hb. by apply (robots_book_same st).
    - intros st u Hb. by apply (robots_book_same st).
    - intros st d Hb. by apply (robots_book_same st).
    - intros st why r Hw Hb. by apply robots_book_page. }
  apply H, robots_book_init.
Qed.

End RobotsBook.

(** ** Where a crawl goes *)

Section Reach.

Context (net : network) (cfg : config).

Lemma in_scope_domain st u :
  start_domain cfg ∈ current_domains st → in_scope cfg st u →
  netloc_of u ∈ current_domains st.
Proof. intros Hs [->|[_ ?]]; done. Qed.

Lemma seed_in_scope st : in_scope cfg st (start_url cfg).
Proof. by left. Qed.

(** the page requests of a crawl and its results are in scope *)
Lemma crawl_in_scope fuel :
  let st := final (crawl net cfg fuel (init cfg)) in
  (∀ e, e ∈ sent st → page_request e →
        in_scope cfg st (req_url (ev_request e))) ∧
  (∀ p, p ∈ scraped_data st → in_scope cfg st (url p)).
Proof.
  destruct (crawl_inv_final net cfg fuel) as [_ _ Hr Hs]. cbv zeta. split.
  - intros e He Hp. destruct (Hs e He Hp) as [_ [->|[_ _ _ ?]]];
      [apply seed_in_scope|done].
  - intros p Hp. destruct (Hr p Hp) as [->|[_ _ _ ?]];
      [apply seed_in_scope|done].
Qed.

(** without [allow_exit] the scope guard's state stays as it is *)
Lemma scope_closed fuel :
  allow_exit cfg = false →
  let st := final (crawl net cfg fuel (init cfg)) in
  max_external_hops st = 0 ∧ current_domains st = {[ start_domain cfg ]}.
Proof.
  intros Hoff.
  set (R := fun st st' : state =>
              max_external_hops st' = max_external_hops st ∧
              current_domains st' = current_domains st).
  assert (Hr : Reflexive R) by (by intros st).
  assert (Ht : Transitive R).
  { intros a b c [E1 E2] [E3 E4]. split; congruence. }
  apply (scope_only_crawl net cfg R).
  - intros st d Hon. congruence.
  - by intros st st' ? ?.
Qed.

Lemma hops_within_budget fuel :
  0 ≤ external_links_depth cfg →
  max_external_hops (final (crawl net cfg fuel (init cfg)))
  ≤ external_links_depth cfg.
Proof.
  intros Hb.
  destruct (ev_scope _ _ _ _ (crawl_evolves net cfg fuel (init cfg)))
    as [_ Hbound _].
  by apply Hbound.
Qed.

End Reach.

Section Figures.

Context (net : network) (cfg : config).

Lemma total_links_bound (ps : list page_data) :
  (∀ p, p ∈ ps → (length (links p) ≤ 50)%nat) →
  (foldr (fun item n => (length (links item) + n)%nat) 0%nat ps
   ≤ 50 * length ps)%nat.
Proof.
  induction ps as [|p ps IH]; intros H; simpl; [lia|].
  specialize (H p (list_elem_of_here _ _)) as Hp.
  assert (IH' := IH (fun q Hq => H q (list_elem_of_further _ _ _ Hq))). lia.
Qed.

Lemma results_within_visited fuel :
  let st := final (crawl net cfg fuel (init cfg)) in
  (length (scraped_data st) ≤ size (visited_urls st))%nat.
Proof.
  destruct (crawl_inv_final net cfg fuel) as [Hn Hv _ _]. cbv zeta.
  rewrite <- (length_fmap url).
  rewrite <- (size_list_to_set (C := gset string)) by done.
  apply subseteq_size. intros u (p & -> & Hp)%elem_of_list_to_set%list_elem_of_fmap.
  by apply Hv.
Qed.

Lemma no_delays_without_robots fuel :
  respect_robots cfg = false →
  domain_delays (final (crawl net cfg fuel (init cfg))) = ∅.
Proof.
  intros Hrr. destruct (robots_book_kept net cfg fuel) as [_ _ Hd Hoff].
  apply map_empty. intros d. by rewrite Hd, (Hoff Hrr), lookup_empty.
Qed.

End Figures.

(** ** Decisions stand *)

Section Decisions.

Context (net : network) (cfg : config).

Lemma is_same_domain_final u st b st1 st2 :
  is_same_domain cfg u st = Ret b st1 →
  evolves cfg any_event st1 st2 → frozen cfg st1 st2 →
  is_same_domain cfg u st2 = Ret b st2.
Proof.
  intros E Ev Fr. destruct b.
  - apply in_scope_passes. eapply in_scope_evolves; [exact Ev|].
    pose proof (is_same_domain_in_scope cfg u st) as Hs. rewrite E in Hs.
    by apply Hs.
  - unfold is_same_domain in *.
    destruct (String.eqb (netloc_of u) (start_domain cfg)); [done|].
    destruct (allow_exit cfg); [|done].
    unfold bind, get in *.
    destruct (bool_decide_reflect (netloc_of u ∈ current_domains st))
      as [|Hnin]; [done|].
    simpl in E.
    destruct (Z.ltb_spec (max_external_hops st) (external_links_depth cfg))
      as [|Hge]; [done|].
    simpl in E. injection E as <-.
    destruct (Fr Hge) as [-> ->].
    rewrite bool_decide_false by done. simpl.
    by destruct (Z.ltb_spec (max_external_hops st) (external_links_depth cfg));
      [lia|].
Qed.

Lemma can_fetch_final u st ok st1 st2 :
  can_fetch net cfg u st = Ret ok st1 →
  robots_cache st1 ⊆ robots_cache st2 →
  can_fetch net cfg u st2 = Ret ok st2.
Proof.
  unfold can_fetch. destruct (respect_robots cfg) eqn:Hrr; simpl.
  2: { by intros [= <- <-] _. }
  unfold bind at 1.
  pose proof (get_robots_parser_cached net cfg (netloc_of u) st Hrr) as Hc.
  destruct (get_robots_parser net cfg (netloc_of u) st) as [policy st'|e st'];
    simpl in Hc; [|done].
  intros E Hsub.
  assert (E1 : st' = st1) by (by destruct policy; injection E).
  subst st'.
  assert (Hc2 : robots_cache st2 !! netloc_of u = Some policy)
    by (by eapply lookup_weaken).
  unfold bind, get_robots_parser. rewrite Hrr. simpl. unfold bind, get.
  rewrite Hc2. simpl. destruct policy; by injection E as <-.
Qed.

End Decisions.


(** ** The contracts of the two fetches *)

Section Contracts.

Context (net : network) (cfg : config).

Lemma scrape_url_cache u st :
  robots_cache (final (scrape_url net cfg u st)) = robots_cache st ∧
  domain_delays (final (scrape_url net cfg u st)) = domain_delays st.
Proof.
  set (R := fun st st' : state =>
              robots_cache st' = robots_cache st ∧
              domain_delays st' = domain_delays st).
  assert (Hr : Reflexive R) by (by intros a).
  assert (Ht : Transitive R).
  { intros a b c [E1 E2] [E3 E4]. split; congruence. }
  by apply (scrape_url_respects net cfg R).
Qed.

Lemma get_links_from_page_others u st :
  post (get_links_from_page net cfg u st)
    (fun ls _ => NoDup ls ∧ (u ∉ ls) ∧ ("" ∉ ls))
    (fun e _ => is_RequestException e = false).
Proof.
  assert (Hnil : NoDup (@nil string) ∧ (u ∉ @nil string) ∧ ("" ∉ @nil string)).
  { split; [constructor|]. split; by inversion 1. }
  unfold get_links_from_page. apply post_try.
  apply post_mono with
    (K := fun ls (_ : state) => NoDup ls ∧ (u ∉ ls) ∧ ("" ∉ ls))
    (E := fun _ _ => True); [|done|].
  2: { intros e st' _. by destruct (is_RequestException e). }
  apply post_bind. unfold send. destruct (outcome _) as [e|resp]; simpl; [done|].
  apply post_bind. unfold raise_for_status.
  destruct (_ && _); simpl; [done|].
  destruct (negb _); simpl; [done|].
  apply post_bind.
  eapply post_mono; [apply filter_links_others; intros l; by inversion 1| |done].
  intros ls st' Hls. simpl. split; [apply unique_NoDup|].
  split; intros Hin%unique_subset; by destruct (Hls _ Hin).
Qed.

End Contracts.

(** ** How a crawl can end early *)

Section Endings.

Context (net : network) (cfg : config).

Lemma can_fetch_refuses u st :
  post (can_fetch net cfg u st)
    (fun ok st' => ok = false → robots_disallows cfg st' u)
    (fun _ _ => False).
Proof.
  unfold can_fetch. destruct (respect_robots cfg) eqn:Hrr; simpl; [|done].
  apply post_bind.
  eapply post_mono; [by apply get_robots_parser_cached| |done].
  intros [rp|] st' Hc; simpl; [|done].
  intros Hno. split; [done|]. by exists rp.
Qed.

Lemma check_start_url_false st st1 :
  check_start_url net cfg st = Ret false st1 →
  robots_disallows cfg st1 (start_url cfg) ∧
  ∃ status st0, test_start_url net cfg st = Ret status st0.
Proof.
  unfold check_start_url, try_except. unfold bind at 1.
  destruct (test_start_url net cfg st) as [status st0|e st0]; [|done].
  unfold bind.
  pose proof (can_fetch_refuses (start_url cfg) st0) as Hcf.
  destruct (can_fetch net cfg (start_url cfg) st0) as [ok st'|e st'];
    simpl in Hcf; [|done].
  destruct ok; simpl; [done|].
  destruct (respect_robots cfg); [|done].
  intros [= <-]. split; [by apply Hcf|by eauto].
Qed.




End Endings.

(** ** At the depth limit *)

Section Shallow.

Context (net : network) (cfg : config).

Hypothesis Hdepth : max_depth cfg ≤ 0.

(** with a depth limit of zero or less the queue never holds more than
    the seed, and its links are never asked for *)
Lemma shallow_crawl fuel :
  let st := final (crawl net cfg fuel (init cfg)) in
  (∀ u, u ∈ visited_urls st → u = start_url cfg) ∧
  requested Links st = [] ∧
  (max_depth cfg < 0 → visited_urls st = ∅ ∧ requested Scrape st = []).
Proof.
  set (E := fun st : state =>
              (∀ u, u ∈ visited_urls st → u = start_url cfg) ∧
              requested Links st = [] ∧
              (max_depth cfg < 0 →
               visited_urls st = ∅ ∧ requested Scrape st = [])).
  set (I := fun (fr : frontier) (st : state) =>
              (∀ x dx, (x, dx) ∈ queue fr → x = start_url cfg ∧ dx = 0) ∧
              (start_url cfg ∉ visited_urls st → last_request_time fr = ∅) ∧
              E st).
  assert (Hquiet : ∀ st st', grows cfg no_event st st' → E st → E st').
  { intros st st' G (H1 & H2 & H3). pose proof (grows_quiet cfg _ _ G) as En.
    destruct G as [Ev _ _]. unfold E, requested. by rewrite En, Ev. }
  apply (crawl_ind net cfg I E).
  - by intros fr st (_ & _ & ?).
  - pose proof (check_start_url_grows net cfg (init cfg)) as G.
    assert (H0 : E (final (check_start_url net cfg (init cfg)))).
    { destruct G as [Ev _ [_ _ (new & En & Fn) _]]. simpl in Ev, En.
      rewrite app_nil_r in En. unfold E, requested. rewrite Ev, En.
      assert (Hp : ∀ why, why = Scrape ∨ why = Links → urls_for why new = []).
      { intros why Hw. apply urls_for_others.
        eapply Forall_impl; [exact Fn|].
        intros e [He|He]; rewrite He; by destruct Hw as [->| ->]. }
      split; [intros u Hu; by apply elem_of_empty in Hu|].
      split; [apply Hp; by right|]. intros _. split; [done|apply Hp; by left]. }
    destruct (check_start_url net cfg (init cfg)) as [[|] st1|e st1];
      simpl in *; try done.
    split; [|done]. by intros x dx [= -> ->]%list_elem_of_singleton.
  - intros u d rest last st (Hq & Hlast & He).
    destruct (Hq u d) as [-> ->]; [by left|].
    set (fr := {| queue := rest; last_request_time := last |}).
    pose proof (crawl_step_queue net cfg (start_url cfg) 0 fr st) as Hnew.
    assert (Hrest : ∀ x dx, (x, dx) ∈ rest → x = start_url cfg ∧ dx = 0).
    { intros x dx Hx. apply Hq. by right. }
    destruct (crawl_step_cases net cfg (start_url cfg) 0 fr st)
      as (st1 & G & [Es|(Hv1 & Hd & _ & Es)]); rewrite Es in Hnew |- *.
    + simpl. split; [done|]. split; [|by eapply Hquiet].
      destruct G as [-> _ _]. done.
    + assert (E1 : E st1) by (by eapply Hquiet).
      destruct E1 as (H1 & H2 & _).
      assert (Hl1 : last = ∅).
      { apply Hlast. destruct G as [Ev _ _]. by rewrite <- Ev. }
      destruct (visit_spec net cfg (start_url cfg) 0 fr st1)
        as (t & data & robots & Hv & _ & _ & _ & Hsent).
      cbv zeta in *.
      destruct Hsent as [(_ & _ & _ & [x Hx])|[Hsent|(_ & Hlt & _)]]; [|clear Hlast|lia].
      { simpl in Hx. by rewrite Hl1, lookup_empty in Hx. }
      assert (E' : E (final (visit net cfg (start_url cfg) 0 fr st1))).
      { unfold E, requested. rewrite Hv, Hsent. split; [|split].
        - intros u [?| ->%elem_of_singleton]%elem_of_union; [by apply H1|done].
        - by rewrite urls_for_cons.
        - intros ?. lia. }
      destruct (visit net cfg (start_url cfg) 0 fr st1) as [fr' st'|e st'];
        simpl in *; [|done].
      split; [|split; [|done]].
      * destruct Hnew as (new & -> & Hn).
        intros x dx [?|Hx]%elem_of_app; [by apply Hrest|].
        destruct (Hn x dx Hx). lia.
      * intros Hno. exfalso. apply Hno. rewrite Hv.
        apply elem_of_union_r. by apply elem_of_singleton.
Qed.

End Shallow.

(** ** Wildcards *)

Section Wildcards.

Lemma match_here_star ic re s :
  Re.match_here ic (Re.DotStar :: re) s =
  Re.match_here ic re s
  || match s with
     | String _ s' => Re.match_here ic (Re.DotStar :: re) s'
     | EmptyString => false
     end.
Proof. by destruct s. Qed.

Lemma single_match_lower x a :
  Re.single_match true x (Str.lower_char a) = Re.single_match true x a.
Proof.
  destruct x as [|c| |negate items]; simpl; try done.
  - unfold Re.char_eq. by rewrite lower_char_idem.
  - by rewrite lower_char_idem.
Qed.

Lemma fixed_match_lower f s :
  Re.fixed_match true f (Str.lower s) = Str.lower <$> Re.fixed_match true f s.
Proof.
  revert s. induction f as [|x f IH]; intros s; simpl; [done|].
  destruct s as [|a s]; simpl; [done|]. rewrite single_match_lower.
  by destruct (Re.single_match true x a).
Qed.

Lemma match_here_lower re s :
  Re.match_here true re (Str.lower s) = Re.match_here true re s.
Proof.
  revert s. induction re as [|a re IH]; intros s.
  - by destruct s.
  - destruct a as [x|f|].
    + destruct s as [|c s]; simpl; [done|].
      by rewrite single_match_lower, IH.
    + induction s as [|c s IHs].
      * done.
      * rewrite (match_here_lazy true f re (String c s)).
        rewrite (match_here_lazy true f re (Str.lower (String c s))).
        rewrite fixed_match_lower.
        destruct (Re.fixed_match true f (String c s)) as [rest|]; simpl.
        -- apply IH.
        -- apply IHs.
    + induction s as [|c s IHs].
      * done.
      * rewrite (match_here_star true re (String c s)).
        rewrite (match_here_star true re (Str.lower (String c s))).
        rewrite IH. simpl Str.lower. cbv iota. by rewrite IHs.
Qed.

End Wildcards.

(** ** The canonicalizer *)

Section Urls.

Lemma contains_cons c a s :
  Str.contains c (String a s) = Ascii.eqb a c || Str.contains c s.
Proof.
  unfold Str.contains. simpl. destruct (Ascii.eqb a c); [done|].
  by destruct (Str.find c s).
Qed.

Lemma contains_append c a b :
  Str.contains c (a +:+ b) = Str.contains c a || Str.contains c b.
Proof.
  induction a as [|x a IH]; rewrite ?append_nil_l, ?append_cons; [done|].
  by rewrite !contains_cons, IH, orb_assoc.
Qed.

Lemma contains_take c n s :
  Str.contains c s = false → Str.contains c (Str.take n s) = false.
Proof.
  revert s. induction n as [|n IH]; intros [|a s]; simpl; try done.
  rewrite !contains_cons. intros [-> ?]%orb_false_iff. by rewrite IH.
Qed.

Lemma contains_drop c n s :
  Str.contains c s = false → Str.contains c (Str.drop n s) = false.
Proof.
  revert s. induction n as [|n IH]; intros [|a s]; simpl; try done.
  rewrite contains_cons. intros [_ ?]%orb_false_iff. by apply IH.
Qed.

Lemma all_contains (f : ascii → bool) s c :
  Str.all f s = true → f c = false → Str.contains c s = false.
Proof.
  intros Hs Hc. induction s as [|a s IH]; [done|]. simpl in Hs.
  apply andb_true_iff in Hs as [Ha Hs]. rewrite contains_cons, IH by done.
  destruct (Ascii.eqb_spec a c) as [->|]; [congruence|done].
Qed.

Lemma all_lower s :
  Str.all Urllib.scheme_char s = true →
  Str.all Urllib.scheme_char (Str.lower s) = true.
Proof.
  induction s as [|a s IH]; simpl; [done|].
  intros [Ha Hs]%andb_true_iff. rewrite IH by done. rewrite andb_true_r.
  revert Ha. by destruct a as [[] [] [] [] [] [] [] []].
Qed.

(** [s.split(c, 1)] *)
Lemma split1_spec c s :
  match Str.split1 c s with
  | Some (l, r) => s = l +:+ String c r ∧ Str.contains c l = false
  | None => Str.contains c s = false
  end.
Proof.
  induction s as [|a s IH]; simpl; [done|].
  destruct (Ascii.eqb_spec a c) as [->|Hne].
  - by rewrite append_nil_l.
  - destruct (Str.split1 c s) as [[l r]|]; simpl.
    + destruct IH as [-> Hl]. rewrite append_cons. split; [done|].
      rewrite contains_cons, Hl. by destruct (Ascii.eqb_spec a c).
    + rewrite contains_cons, IH. by destruct (Ascii.eqb_spec a c).
Qed.

Lemma split_by_spec c s :
  let '(l, r) := Urllib.split_by c s in
  Str.contains c l = false ∧
  (∀ c', Str.contains c' s = false →
         Str.contains c' l = false ∧ Str.contains c' r = false).
Proof.
  unfold Urllib.split_by. pose proof (split1_spec c s) as H.
  destruct (Str.split1 c s) as [[l r]|].
  - destruct H as [-> Hl]. split; [done|]. intros c'.
    rewrite contains_append, contains_cons.
    intros [? [_ ?]%orb_false_iff]%orb_false_iff. done.
  - split; [done|]. by intros c' ->.
Qed.

Lemma span_until_spec stop s :
  let '(l, r) := Str.span_until stop s in
  s = l +:+ r ∧
  (∀ c, c ∈ stop → Str.contains c l = false) ∧
  (r = "" ∨ ∃ c r', r = String c r' ∧ c ∈ stop).
Proof.
  induction s as [|a s IH]; simpl.
  - split; [done|]. split; [done|by left].
  - case_bool_decide as Ha.
    + split; [done|]. split; [done|]. right. by exists a, s.
    + destruct (Str.span_until stop s) as [l r]. destruct IH as (-> & Hl & Hr).
      rewrite append_cons. split; [done|]. split; [|done].
      intros c Hc. rewrite contains_cons, (Hl c Hc).
      destruct (Ascii.eqb_spec a c) as [->|]; done.
Qed.

Lemma split_by_free c s :
  Str.contains c s = false → Urllib.split_by c s = (s, "").
Proof.
  intros Hs. unfold Urllib.split_by. pose proof (split1_spec c s) as H.
  destruct (Str.split1 c s) as [[l r]|]; [|done].
  destruct H as [E _]. rewrite E, contains_append, contains_cons in Hs.
  rewrite Ascii.eqb_refl in Hs. simpl in Hs. by rewrite orb_true_r in Hs.
Qed.

(** the scheme is made of letters, digits and [+-.]; what follows it is
    the end of the URL *)
Lemma split_scheme_spec u :
  let '(sch, rest) := Urllib.split_scheme u in
  Str.all Urllib.scheme_char sch = true ∧
  ∃ n, rest = Str.drop n u.
Proof.
  unfold Urllib.split_scheme.
  destruct (Str.find ":" u) as [i|]; [|split; [done|by exists 0%nat]].
  destruct u as [|c0 u]; [split; [done|by exists 0%nat]|].
  destruct (_ && _) eqn:E; [|split; [done|by exists 0%nat]].
  apply andb_true_iff in E as [_ E]. split; [by apply all_lower|].
  by exists (S i).
Qed.

Lemma urlsplit_free u c :
  Urllib.scheme_char c = false → c ∈ ["?"; "#"]%char →
  let '(sch, loc, pth, _, _) := Urllib.urlsplit u in
  Str.contains c sch = false ∧ Str.contains c loc = false ∧
  Str.contains c pth = false.
Proof.
  intros Hc Hin. unfold Urllib.urlsplit.
  pose proof (split_scheme_spec u) as Hs.
  destruct (Urllib.split_scheme u) as [sch url1]. destruct Hs as [Hsch _].
  assert (Hloc : ∀ loc url2,
            (if String.prefix "//" url1 then Urllib.splitnetloc url1
             else ("", url1)) = (loc, url2) →
            Str.contains c loc = false).
  { intros loc url2. destruct (String.prefix "//" url1); [|by intros [= <- _]].
    unfold Urllib.splitnetloc.
    pose proof (span_until_spec ["/"; "?"; "#"]%char (Str.drop 2 url1)) as Hsp.
    destruct (Str.span_until _ _) as [l r]. intros [= <- _].
    destruct Hsp as (_ & Hl & _). apply Hl.
    apply elem_of_cons. right. exact Hin. }
  destruct (if String.prefix "//" url1 then _ else _) as [loc url2] eqn:El.
  specialize (Hloc loc url2 eq_refl).
  pose proof (split_by_spec "#" url2) as H3.
  destruct (Urllib.split_by "#" url2) as [url3 frag]. destruct H3 as [H3 _].
  pose proof (split_by_spec "?" url3) as H4.
  destruct (Urllib.split_by "?" url3) as [url4 qry]. destruct H4 as [H4 H4'].
  split; [by eapply all_contains|]. split; [done|].
  apply elem_of_cons in Hin as [->|Hin]; [done|].
  apply list_elem_of_singleton in Hin as ->. by apply H4'.
Qed.

Lemma rfind_spec c s k :
  Urllib.rfind c s = Some k →
  s = Str.take k s +:+ Str.drop k s ∧
  ∃ r, Str.drop k s = String c r ∧ Str.contains c r = false.
Proof.
  revert k. induction s as [|a s IH]; intros k; simpl; [done|].
  destruct (Urllib.rfind c s) as [i|] eqn:Er.
  - intros [= <-]. destruct (IH i eq_refl) as (E & r & Ed & Hr). simpl.
    rewrite append_cons, <- E. split; [done|]. by exists r.
  - destruct (Ascii.eqb_spec a c) as [->|]; [|done]. intros [= <-]. simpl.
    rewrite append_nil_l. split; [done|]. exists s. split; [done|].
    clear IH. induction s as [|b s IH]; [done|]. simpl in Er.
    destruct (Urllib.rfind c s); [done|].
    rewrite contains_cons. destruct (Ascii.eqb b c); [done|]. by apply IH.
Qed.

Lemma splitparams_free c s :
  Str.contains c s = false →
  let '(p, r) := Urllib.splitparams s in
  Str.contains c p = false ∧ Str.contains c r = false.
Proof.
  intros Hs. unfold Urllib.splitparams.
  destruct (Urllib.rfind "/" s) as [k|].
  - pose proof (split1_spec ";" (Str.drop k s)) as H.
    destruct (Str.split1 ";" (Str.drop k s)) as [[l r]|]; [|done].
    destruct H as [E _].
    pose proof (contains_drop c k s Hs) as Hd.
    rewrite E, contains_append, contains_cons in Hd.
    apply orb_false_iff in Hd as [Hl [_ Hr]%orb_false_iff].
    by rewrite contains_append, contains_take, Hl.
  - pose proof (split_by_spec ";" s) as H.
    destruct (Urllib.split_by ";" s) as [p r]. destruct H as [_ H]. by apply H.
Qed.

(** neither [?] nor [#] is in the scheme, the network location, the
    path or the parameters of a URL *)
Lemma urlparse_free u c :
  Urllib.scheme_char c = false → c ∈ ["?"; "#"]%char →
  let p := Urllib.urlparse u in
  Str.contains c (Urllib.scheme p) = false ∧
  Str.contains c (Urllib.netloc p) = false ∧
  Str.contains c (Urllib.path p) = false ∧
  Str.contains c (Urllib.params p) = false.
Proof.
  intros Hc Hin. unfold Urllib.urlparse.
  pose proof (urlsplit_free u c Hc Hin) as H.
  destruct (Urllib.urlsplit u) as [[[[sch loc] pth] qry] frag].
  destruct H as (H1 & H2 & H3).
  pose proof (splitparams_free c pth H3) as H4.
  destruct (_ && _); [destruct (Urllib.splitparams pth) as [pth' prm]|];
    simpl; tauto.
Qed.

Lemma urlunsplit_free c sch loc url :
  c ∈ ["?"; "#"]%char →
  Str.contains c sch = false → Str.contains c loc = false →
  Str.contains c url = false →
  Str.contains c (Urllib.urlunsplit sch loc url "" "") = false.
Proof.
  intros Hin H1 H2 H3. unfold Urllib.urlunsplit. simpl.
  assert (Hs : Ascii.eqb "/" c = false ∧ Ascii.eqb ":" c = false).
  { apply elem_of_cons in Hin as [->|Hin]; [done|].
    by apply list_elem_of_singleton in Hin as ->. }
  destruct Hs as [Hs Hcol].
  repeat match goal with
         | |- context [if ?b then _ else _] => destruct b
         end;
    by rewrite ?contains_append, ?contains_cons, ?Hs, ?Hcol, ?H1, ?H2, ?H3.
Qed.

(** a canonical URL has neither [?] nor [#] in it *)
Lemma clean_free u c :
  c ∈ ["?"; "#"]%char → Str.contains c (clean u) = false.
Proof.
  intros Hin.
  assert (Hc : Urllib.scheme_char c = false).
  { apply elem_of_cons in Hin as [->|Hin']; [done|].
    by apply list_elem_of_singleton in Hin' as ->. }
  destruct (urlparse_free u c Hc Hin) as (H1 & H2 & H3 & H4).
  unfold clean, Urllib.urlunparse. simpl.
  apply urlunsplit_free; try done.
  destruct (Str.truthy _); [|done].
  rewrite !contains_append, !contains_cons, H3, H4.
  apply elem_of_cons in Hin as [->|Hin']; [done|].
  by apply list_elem_of_singleton in Hin' as ->.
Qed.

(** a URL with neither [?] nor [#] in it has no query and no fragment *)
Lemma urlsplit_plain u :
  Str.contains "?" u = false → Str.contains "#" u = false →
  let '(_, _, _, qry, frag) := Urllib.urlsplit u in qry = "" ∧ frag = "".
Proof.
  intros Hq Hf. unfold Urllib.urlsplit.
  pose proof (split_scheme_spec u) as Hs.
  destruct (Urllib.split_scheme u) as [sch url1]. destruct Hs as [_ [n ->]].
  assert (H1 : ∀ c, Str.contains c u = false →
            Str.contains c (Str.drop n u) = false)
    by (intros; by apply contains_drop).
  assert (H2 : ∀ loc url2,
            (if String.prefix "//" (Str.drop n u)
             then Urllib.splitnetloc (Str.drop n u)
             else ("", Str.drop n u)) = (loc, url2) →
            ∀ c, Str.contains c u = false → Str.contains c url2 = false).
  { intros loc url2. destruct (String.prefix "//" (Str.drop n u)).
    - unfold Urllib.splitnetloc.
      pose proof (span_until_spec ["/"; "?"; "#"]%char
                    (Str.drop 2 (Str.drop n u))) as Hsp.
      destruct (Str.span_until _ _) as [l r]. intros [= <- <-] c Hc.
      destruct Hsp as (E & _ & _).
      pose proof (contains_drop c 2 _ (H1 c Hc)) as Hd.
      rewrite E, contains_append in Hd. by apply orb_false_iff in Hd as [_ ?].
    - intros [= <- <-]. exact H1. }
  destruct (if String.prefix "//" (Str.drop n u) then _ else _)
    as [loc url2] eqn:El.
  specialize (H2 loc url2 eq_refl).
  rewrite (split_by_free "#" url2) by (by apply H2).
  by rewrite (split_by_free "?" url2) by (by apply H2).
Qed.

End Urls.

(** *** Parsing what was unparsed *)

Section RoundTrip.

Lemma take_append_length (a b : string) :
  Str.take (String.length a) (a +:+ b) = a.
Proof.
  induction a as [|x a IH]; rewrite ?append_nil_l, ?append_cons; simpl.
  - by destruct b.
  - by rewrite IH.
Qed.

Lemma drop_append_length (a b : string) :
  Str.drop (String.length a) (a +:+ b) = b.
Proof.
  induction a as [|x a IH]; rewrite ?append_nil_l, ?append_cons; simpl.
  - by destruct b.
  - by rewrite IH.
Qed.

Lemma find_append c a r :
  Str.contains c a = false →
  Str.find c (a +:+ String c r) = Some (String.length a).
Proof.
  induction a as [|x a IH]; rewrite ?append_nil_l, ?append_cons; simpl.
  - by rewrite Ascii.eqb_refl.
  - rewrite contains_cons. intros [-> Ha]%orb_false_iff. by rewrite IH.
Qed.

Lemma rfind_none c s : Str.contains c s = false → Urllib.rfind c s = None.
Proof.
  induction s as [|x s IH]; simpl; [done|]. rewrite contains_cons.
  intros [-> Hs]%orb_false_iff. by rewrite IH.
Qed.

Lemma rfind_append c a r :
  Str.contains c r = false →
  Urllib.rfind c (a +:+ String c r) = Some (String.length a).
Proof.
  intros Hr. induction a as [|x a IH]; rewrite ?append_nil_l, ?append_cons; simpl.
  - by rewrite rfind_none, Ascii.eqb_refl.
  - by rewrite IH.
Qed.

Lemma lower_idem s : Str.lower (Str.lower s) = Str.lower s.
Proof. induction s as [|a s IH]; simpl; [done|]. by rewrite lower_char_idem, IH. Qed.

Lemma span_until_append stop l r :
  (∀ c, c ∈ stop → Str.contains c l = false) →
  (r = "" ∨ ∃ c r', r = String c r' ∧ c ∈ stop) →
  Str.span_until stop (l +:+ r) = (l, r).
Proof.
  intros Hl Hr. induction l as [|a l IH]; rewrite ?append_nil_l, ?append_cons.
  - destruct Hr as [->|(c & r' & -> & Hc)]; [done|]. simpl.
    by rewrite bool_decide_true.
  - simpl. rewrite bool_decide_false.
    + rewrite IH; [done|]. intros c Hc. specialize (Hl c Hc).
      rewrite contains_cons in Hl. by apply orb_false_iff in Hl as [_ ?].
    + intros Ha. specialize (Hl a Ha). rewrite contains_cons in Hl.
      by rewrite Ascii.eqb_refl in Hl.
Qed.

Lemma drop_S_append (a : string) c b :
  Str.drop (S (String.length a)) (a +:+ String c b) = b.
Proof.
  induction a as [|x a IH]; rewrite ?append_nil_l, ?append_cons; simpl.
  - by destruct b.
  - exact IH.
Qed.

Lemma split_scheme_cases u :
  let '(sch, rest) := Urllib.split_scheme u in
  (sch = "" ∧ rest = u) ∨ is_scheme sch.
Proof.
  unfold Urllib.split_scheme.
  destruct (Str.find ":" u) as [i|]; [|by left].
  destruct u as [|c0 u]; [by left|].
  destruct (_ && _) eqn:E; [right|by left].
  apply andb_true_iff in E as [[Hi Ha]%andb_true_iff Hall].
  apply bool_decide_eq_true in Hi. destruct i as [|i]; [lia|].
  split; [|split].
  - simpl. eexists _, _. split; [done|].
    revert Ha. by destruct c0 as [[] [] [] [] [] [] [] []].
  - by apply all_lower.
  - apply lower_idem.
Qed.

Lemma split_scheme_of_scheme sch rest :
  is_scheme sch →
  Urllib.split_scheme (sch +:+ String ":" rest) = (sch, rest).
Proof.
  intros ((c0 & s0 & E & Ha) & Hall & Hlow). unfold Urllib.split_scheme.
  rewrite find_append by (by eapply all_contains).
  rewrite take_append_length, drop_S_append, Hall, Hlow.
  rewrite E at 1. rewrite append_cons, Ha.
  rewrite bool_decide_true; [done|]. rewrite E. simpl. lia.
Qed.

Lemma split_scheme_slash s :
  Urllib.split_scheme (String "/" s) = ("", String "/" s).
Proof.
  unfold Urllib.split_scheme. destruct (Str.find ":" _); [|done].
  by destruct (bool_decide _).
Qed.

(** the part before the first [c] starts as the string starts *)
Lemma split_by_head c a s :
  let '(l, _) := Urllib.split_by c (String a s) in
  (a = c ∧ l = "") ∨ (a ≠ c ∧ ∃ l', l = String a l').
Proof.
  unfold Urllib.split_by. simpl. destruct (Ascii.eqb_spec a c) as [->|Hne].
  - by left.
  - destruct (Str.split1 c s) as [[l r]|]; right; split; by eauto.
Qed.

Lemma split1_none c s : Str.contains c s = false → Str.split1 c s = None.
Proof.
  intros Hs. pose proof (split1_spec c s) as H.
  destruct (Str.split1 c s) as [[l r]|]; [|done].
  destruct H as [E _]. rewrite E, contains_append, contains_cons in Hs.
  rewrite Ascii.eqb_refl in Hs. simpl in Hs. by rewrite orb_true_r in Hs.
Qed.

(** the parameters come back when the path is put together with them and
    split again; what is put together is the path as it was, but for a
    [;] at its end *)
Lemma params_round_trip (b : bool) (url : string) :
  let '(pth, prm) :=
    if b && Str.contains ";" url then Urllib.splitparams url else (url, "") in
  let x := if Str.truthy prm then pth +:+ ";" +:+ prm else pth in
  (if b && Str.contains ";" x then Urllib.splitparams x else (x, ""))
  = (pth, prm) ∧
  (x = url ∨ url = x +:+ ";").
Proof.
  destruct b; simpl; [|by auto].
  destruct (Str.contains ";" url) eqn:Hc; [|simpl; rewrite Hc; by auto].
  unfold Urllib.splitparams at 1.
  destruct (Urllib.rfind "/" url) as [k|] eqn:Er.
  - destruct (rfind_spec _ _ _ Er) as (Eu & r0 & Ed & Hr0).
    pose proof (split1_spec ";" (Str.drop k url)) as Hs.
    destruct (Str.split1 ";" (Str.drop k url)) as [[l r]|] eqn:Es.
    + destruct Hs as [El Hl].
      assert (Eurl : url = (Str.take k url +:+ l) +:+ ";" +:+ r).
      { rewrite append_assoc, append_cons, append_nil_l. by rewrite <- El. }
      destruct r as [|c r]; simpl.
      * assert (Hl0 : ∃ l0, l = String "/" l0 ∧ Str.contains "/" l0 = false).
        { rewrite Ed in El. destruct l as [|a l0].
          - rewrite append_nil_l in El. by injection El.
          - rewrite append_cons in El. injection El as <- ->. exists l0.
            split; [done|]. rewrite contains_append in Hr0.
            by apply orb_false_iff in Hr0 as [? _]. }
        destruct Hl0 as (l0 & -> & Hl0). split; [|by right].
        assert (Hsp : Urllib.splitparams (Str.take k url +:+ String "/" l0)
                      = (Str.take k url +:+ String "/" l0, "")).
        { unfold Urllib.splitparams. rewrite rfind_append by done.
          rewrite drop_append_length. by rewrite split1_none. }
        rewrite Hsp.
        by destruct (Str.contains ";" (Str.take k url +:+ String "/" l0)).
      * rewrite <- Eurl. split; [|by left]. rewrite Hc.
        unfold Urllib.splitparams. by rewrite Er, Es.
    + simpl. split; [|by left]. rewrite Hc. unfold Urllib.splitparams.
      by rewrite Er, Es.
  - unfold Urllib.split_by. pose proof (split1_spec ";" url) as Hs.
    destruct (Str.split1 ";" url) as [[l r]|] eqn:Es.
    + destruct Hs as [El Hl]. destruct r as [|c r]; simpl.
      * split; [by rewrite Hl|by right].
      * change (";" +:+ String c r) with (String ";" (String c r)).
        rewrite <- El. split; [|by left]. rewrite Hc.
        unfold Urllib.splitparams, Urllib.split_by. by rewrite Er, Es.
    + simpl. split; [|by left]. rewrite Hc.
      unfold Urllib.splitparams, Urllib.split_by. by rewrite Er, Es.
Qed.

(** the parts of a URL with a network location *)
Lemma urlsplit_located u :
  let '(sch, loc, pth, _, _) := Urllib.urlsplit u in
  loc ≠ "" →
  (sch = "" ∨ is_scheme sch) ∧
  (∀ c, c ∈ ["/"; "?"; "#"]%char → Str.contains c loc = false) ∧
  (pth = "" ∨ ∃ r, pth = String "/" r).
Proof.
  unfold Urllib.urlsplit.
  pose proof (split_scheme_cases u) as Hs.
  destruct (Urllib.split_scheme u) as [sch url1].
  assert (Hsch : sch = "" ∨ is_scheme sch) by (destruct Hs as [[? _]|?]; auto).
  destruct (String.prefix "//" url1).
  2: { by destruct (Urllib.split_by "#" url1) as [url3 frag],
                  (Urllib.split_by "?" url3) as [url4 qry]. }
  unfold Urllib.splitnetloc.
  pose proof (span_until_spec ["/"; "?"; "#"]%char (Str.drop 2 url1)) as Hsp.
  destruct (Str.span_until _ _) as [loc url2]. destruct Hsp as (_ & Hl & Hr).
  destruct Hr as [->|(c & r' & -> & Hc)].
  { by split; [|split; [|left]]. }
  pose proof (split_by_head "#" c r') as H3.
  destruct (Urllib.split_by "#" (String c r')) as [url3 frag].
  destruct H3 as [[-> ->]|[Hne (l' & ->)]].
  { by split; [|split; [|left]]. }
  pose proof (split_by_head "?" c l') as H4.
  destruct (Urllib.split_by "?" (String c l')) as [url4 qry].
  destruct H4 as [[-> ->]|[Hne' (l'' & ->)]].
  { by split; [|split; [|left]]. }
  intros _. split; [done|]. split; [done|]. right. exists l''.
  apply elem_of_cons in Hc as [->|Hc]; [done|].
  apply elem_of_cons in Hc as [->|Hc]; [done|].
  by apply list_elem_of_singleton in Hc as ->.
Qed.

(** [urlsplit] after [urlunsplit], for a URL with a network location
    and neither query nor fragment *)
Lemma urlsplit_unsplit sch loc x :
  loc ≠ "" → sch = "" ∨ is_scheme sch →
  (∀ c, c ∈ ["/"; "?"; "#"]%char → Str.contains c loc = false) →
  x = "" ∨ (∃ r, x = String "/" r) →
  Str.contains "?" x = false → Str.contains "#" x = false →
  Urllib.urlsplit (Urllib.urlunsplit sch loc x "" "") = (sch, loc, x, "", "").
Proof.
  intros Hloc Hsch Hl Hx Hq Hf.
  assert (E : Urllib.urlunsplit sch loc x "" "" =
              if Str.truthy sch then sch +:+ String ":" ("//" +:+ loc +:+ x)
              else String "/" (String "/" (loc +:+ x))).
  { assert (Ex : (if Str.truthy x && negb (String.eqb (Str.take 1 x) "/")
                  then "/" +:+ x else x) = x).
    { destruct Hx as [->|[r ->]]; [done|]. simpl. by destruct r. }
    unfold Urllib.urlunsplit. rewrite Ex.
    destruct loc as [|a loc]; [done|]. cbn [Str.truthy orb].
    by destruct (Str.truthy sch). }
  assert (Hrest : ∀ sch', Urllib.split_scheme
                     (if Str.truthy sch
                      then sch +:+ String ":" ("//" +:+ loc +:+ x)
                      else String "/" (String "/" (loc +:+ x)))
                   = (sch', String "/" (String "/" (loc +:+ x))) →
            sch' = sch →
            Urllib.urlsplit (Urllib.urlunsplit sch loc x "" "")
            = (sch, loc, x, "", "")).
  { intros sch' Es ->. rewrite E. unfold Urllib.urlsplit. rewrite Es.
    cbn [String.prefix].
    destruct (ascii_dec "/" "/") as [_|]; [|done].
    assert (Hp : ∀ s, String.prefix "" s = true) by (by intros []).
    rewrite Hp. unfold Urllib.splitnetloc. cbn [Str.drop].
    rewrite (span_until_append _ loc x); [|done|].
    - cbv beta iota. rewrite (split_by_free "#" x) by done. cbv beta iota.
      by rewrite (split_by_free "?" x).
    - destruct Hx as [->|[r ->]]; [by left|right].
      exists "/"%char, r. split; [done|]. by left. }
  destruct Hsch as [->|Hs].
  - apply (Hrest ""); [|done]. simpl. apply split_scheme_slash.
  - apply (Hrest sch); [|done].
    assert (Ht : Str.truthy sch = true).
    { by destruct Hs as [(c0 & s0 & -> & _) _]. }
    rewrite Ht. by apply split_scheme_of_scheme.
Qed.

(** the canonical form of a URL with a network location parses into the
    parts of the URL, without its query and its fragment *)
Lemma clean_parse u :
  netloc_of u ≠ "" →
  Urllib.urlparse (clean u) = Urllib.strip_query_fragment (Urllib.urlparse u).
Proof.
  unfold netloc_of, clean. unfold Urllib.urlparse at 1 3 4.
  pose proof (urlsplit_located u) as HL.
  pose proof (urlsplit_free u "?" eq_refl) as Hq.
  pose proof (urlsplit_free u "#" eq_refl) as Hf.
  destruct (Urllib.urlsplit u) as [[[[sch loc] pth0] qry] frag].
  pose proof (params_round_trip (bool_decide (sch ∈ Urllib.uses_params)) pth0)
    as HP.
  destruct (if _ && _ then _ else _) as [pth prm]. simpl. intros Hloc.
  destruct (HL Hloc) as (Hsch & Hl & Hp0).
  destruct Hq as (_ & _ & Hq); [by left|].
  destruct Hf as (_ & _ & Hf); [by right; left|].
  destruct HP as [HP Hx].
  unfold Urllib.urlunparse. simpl.
  set (x := if Str.truthy prm then pth +:+ ";" +:+ prm else pth) in *.
  assert (Hfree : ∀ c, Str.contains c pth0 = false → Str.contains c x = false).
  { intros c Hc. destruct Hx as [->|E]; [done|].
    rewrite E, contains_append in Hc. by apply orb_false_iff in Hc as [? _]. }
  assert (Hshape : x = "" ∨ ∃ r, x = String "/" r).
  { destruct Hx as [->|E]; [done|]. destruct Hp0 as [->|[r ->]].
    - destruct x; rewrite ?append_nil_l, ?append_cons in E; done.
    - destruct x as [|a x']; rewrite ?append_nil_l, ?append_cons in E; [done|].
      injection E as <- _. right. by exists x'. }
  unfold Urllib.urlparse. rewrite urlsplit_unsplit by auto. by rewrite HP.
Qed.

End RoundTrip.

(** ** The order of the queue *)

Section Order.

Context (net : network) (cfg : config).

(** what holds of the queue between two turns holds of the queue a
    crawl returns, whatever the fuel *)
Lemma crawl_queue_ind (I : list (string * Z) → Prop) :
  I [(start_url cfg, 0)] →
  (∀ u d rest new,
     I ((u, d) :: rest) →
     (∀ x dx, (x, dx) ∈ new → dx = d + 1 ∧ d < max_depth cfg) →
     I (rest ++ new)%list) →
  ∀ fuel,
    post (crawl net cfg fuel (init cfg))
      (fun r _ => ∀ fr, r = Some fr → I (queue fr))
      (fun _ _ => True).
Proof.
  intros H0 Hstep fuel.
  assert (Hloop : ∀ fuel fr st, I (queue fr) →
            post (crawl_loop net cfg fuel fr st)
              (fun fr' _ => I (queue fr')) (fun _ _ => True)).
  { intros fuel0. induction fuel0 as [|fuel0 IH]; intros fr st Hi; simpl.
    - done.
    - destruct fr as [q last]. simpl in *.
      destruct q as [|[u d] rest]; simpl; [done|].
      apply post_bind.
      eapply post_mono; [apply crawl_step_queue| |done].
      intros fr' st' (new & E & Hnew). simpl in E. apply IH. rewrite E.
      by eapply Hstep. }
  unfold crawl. unfold bind at 1.
  destruct (check_start_url net cfg (init cfg)) as [[|] st1|e st1]; simpl;
    [|done|done].
  apply post_bind. eapply post_mono; [by apply Hloop| |done].
  intros fr st Hi. simpl. by intros ? [= <-].
Qed.

Lemma sorted_all {A} (R : A → A → Prop) (l : list A) :
  (∀ a b, a ∈ l → b ∈ l → R a b) → StronglySorted R l.
Proof.
  induction l as [|x l IH]; intros H; constructor.
  - apply IH. intros a b Ha Hb. apply H; by right.
  - apply Forall_forall. intros b Hb. apply H; [by left|by right].
Qed.

Lemma sorted_app {A} (R : A → A → Prop) (l1 l2 : list A) :
  StronglySorted R l1 → StronglySorted R l2 →
  (∀ a b, a ∈ l1 → b ∈ l2 → R a b) →
  StronglySorted R (l1 ++ l2).
Proof.
  intros H1 H2 H. induction H1 as [|x l1 H1 IH Hx]; simpl; [done|].
  constructor.
  - apply IH. intros a b Ha Hb. apply H; [by right|done].
  - apply Forall_app. split; [done|]. apply Forall_forall. intros b Hb.
    apply H; [by left|done].
Qed.

Lemma breadth_first_step u d rest new :
  breadth_first cfg ((u, d) :: rest) →
  (∀ x dx, (x, dx) ∈ new → dx = d + 1 ∧ d < max_depth cfg) →
  breadth_first cfg (rest ++ new).
Proof.
  intros [Hs Hl Hm] Hnew.
  apply StronglySorted_inv in Hs as [Hs Hhd]. rewrite Forall_forall in Hhd.
  assert (Hd : 0 ≤ d).
  { destruct (Hm (u, d)) as [?|?]; [by left|simpl in *; lia..]. }
  assert (Hrest : ∀ a, a ∈ rest → d ≤ a.2 ≤ d + 1).
  { intros a Ha. split; [by apply (Hhd a)|].
    apply (Hl (u, d) a); [by left|by right]. }
  assert (Hn : ∀ a, a ∈ new → a.2 = d + 1 ∧ d < max_depth cfg).
  { intros [x dx] Ha. by apply (Hnew x dx). }
  split.
  - apply sorted_app; [done| |].
    + apply sorted_all. intros a b Ha Hb.
      destruct (Hn a Ha) as [-> _]. destruct (Hn b Hb) as [-> _]. lia.
    + intros a b Ha Hb. destruct (Hn b Hb) as [-> _]. by apply Hrest.
  - intros a b [Ha|Ha]%elem_of_app [Hb|Hb]%elem_of_app.
    + apply Hl; by right.
    + destruct (Hn b Hb) as [-> _]. destruct (Hrest a Ha). lia.
    + destruct (Hn a Ha) as [-> _]. destruct (Hrest b Hb). lia.
    + destruct (Hn a Ha) as [-> _]. destruct (Hn b Hb) as [-> _]. lia.
  - intros a [Ha|Ha]%elem_of_app.
    + apply Hm. by right.
    + destruct (Hn a Ha) as [-> ?]. right. lia.
Qed.

End Order.


(** ** The delay that is applied *)

Section Applied.

Context (net : network) (cfg : config).




End Applied.

(** ** The start URL *)

Section Seed.

Context (net : network) (cfg : config).



End Seed.

(** * The properties of the crawl *)

(** C1: between the starts of two consecutive requests to a domain at
    least the effective delay of the domain is to pass, also between the
    scrape of a page and the fetch of the same page by
    [get_links_from_page].  The code does not wait before that fetch: it
    sends it as soon as the scrape has returned.  Here the default delay
    of one second applies to the domain, and the two requests start a
    tenth of a second apart.  (What the loop does keep apart are the
    scrapes: [scrapes_spaced].) *)
Theorem link_fetch_not_rate_limited :
  let cfg := basic_config "http://a.example/" in
  let st := final (crawl quick_site cfg 10 (init cfg)) in
  get_crawl_delay cfg "http://a.example/" st = Ret (Fin 1) st ∧
  ∃ e1 e2,
    rev (sent st) !! 2%nat = Some e1 ∧ rev (sent st) !! 3%nat = Some e2 ∧
    ev_purpose e1 = Scrape ∧ ev_purpose e2 = Links ∧
    req_url (ev_request e1) = "http://a.example/" ∧
    req_url (ev_request e2) = "http://a.example/" ∧
    (ev_time e2 - ev_time e1 < 1)%Q.
Proof.
  split; [by vm_compute|].
  eexists _, _. split; [vm_compute; reflexivity|].
  split; [vm_compute; reflexivity|]. by vm_compute.
Qed.

(** C2: the hop budget is to be spent only on URLs that passed the
    robots check and the pattern filter, as [get_links_from_page] does
    it.  [extract_data] runs the scope guard on the anchors of the page
    as they are.  Here the one hop of the budget goes to the domain of
    an excluded link while the page is scraped, and the allowed external
    link that follows finds the budget spent. *)
Theorem excluded_link_spends_hop :
  let cfg := one_hop_no_ads in
  let scraped := final (scrape_url ads_site cfg (start_url cfg) (init cfg)) in
  let st := final (crawl ads_site cfg 10 (init cfg)) in
  pattern_filter cfg "http://ads.example/track" = false ∧
  pattern_filter cfg "http://b.example/" = true ∧
  max_external_hops scraped = 1 ∧
  ("ads.example" ∈ current_domains scraped) ∧
  max_external_hops st = 1 ∧
  ("b.example" ∉ current_domains st) ∧
  ("http://b.example/" ∉ visited_urls st).
Proof.
  repeat split_and; try (by vm_compute);
    apply (bool_decide_unpack _); by vm_compute.
Qed.

(** C3, amended: with robots compliance on, every request for a page
    other than the start URL is for a URL that the robots policy of its
    domain, cached before the URL was queued, allows; the start URL is
    probed before its robots check, and when the probe returns and
    robots.txt disallows the start URL the crawl ends there, before the
    queue is made. *)
Theorem robots_checked_when_found (net : network) (cfg : config) (fuel : nat) :
  let r := crawl net cfg fuel (init cfg) in
  (∀ e, e ∈ sent (final r) → page_request e →
        req_url (ev_request e) ≠ start_url cfg →
        cleared cfg (final r) (req_url (ev_request e)) ∧
        ¬ robots_disallows cfg (final r) (req_url (ev_request e))) ∧
  ((∃ status st0, test_start_url net cfg (init cfg) = Ret status st0) →
   robots_disallows cfg (final r) (start_url cfg) →
   ∃ st, r = Ret None st ∧ visited_urls st = ∅ ∧ scraped_data st = [] ∧
         ∀ e, e ∈ sent st → ¬ page_request e).
Proof.
  split.
  - destruct (crawl_inv_final net cfg fuel) as [_ _ _ Hs].
    intros e He Hp Hne. destruct (Hs e He Hp) as [_ [?|[_ _ Hc _]]]; [done|].
    split; [done|by apply cleared_not_disallowed].
  - apply seed_disallowed_aborts.
Qed.

Lemma robots_checked_when_found_witness :
  ∃ st, crawl forbidden_site (basic_config "http://a.example/") 10
          (init (basic_config "http://a.example/")) = Ret None st ∧
        visited_urls st = ∅ ∧ scraped_data st = [] ∧
        ∀ e, e ∈ sent st → ¬ page_request e.
Proof.
  apply (robots_checked_when_found forbidden_site
           (basic_config "http://a.example/") 10).
  - eexists _, _. vm_compute. reflexivity.
  - split; [reflexivity|]. exists disallow_all. split; [|reflexivity].
    vm_compute. reflexivity.
Defined.

(** C3 as stated fails: the start URL is requested, by HEAD and then
    by GET, before robots.txt is read, and robots.txt disallows it *)
Lemma disallowed_seed_is_probed :
  let cfg := basic_config "http://a.example/" in
  let st := final (crawl forbidden_site cfg 10 (init cfg)) in
  robots_disallows cfg st (start_url cfg) ∧
  ∃ e, rev (sent st) !! 1%nat = Some e ∧
       req_method (ev_request e) = GET ∧
       req_url (ev_request e) = start_url cfg.
Proof.
  split.
  - split; [reflexivity|]. exists disallow_all. split; [|reflexivity].
    vm_compute. reflexivity.
  - eexists. split; [vm_compute; reflexivity|]. by vm_compute.
Qed.

(** when the probe raises, the robots check of the start URL is not
    made at all, and the page is scraped and recorded *)
Lemma disallowed_seed_scraped_after_failed_probe :
  let cfg := basic_config "http://a.example/" in
  let st := final (crawl flaky_forbidden_site cfg 10 (init cfg)) in
  robots_disallows cfg st (start_url cfg) ∧
  url <$> scraped_data st = [start_url cfg].
Proof.
  split.
  - split; [reflexivity|]. exists disallow_all. split; [|reflexivity].
    vm_compute. reflexivity.
  - by vm_compute.
Qed.




(** C5, amended: in every session each step leaves the count of
    external hops no smaller and the set of admitted domains no smaller,
    and a URL of a domain that is already admitted changes nothing; the
    count is never negative, it is the number of admitted domains beside
    the start domain, and when the configured budget is not negative it
    stays within the budget throughout a crawl. *)
Theorem scope_monotone (net : network) (cfg : config) :
  (∀ fuel,
     let st := final (crawl net cfg fuel (init cfg)) in
     0 ≤ max_external_hops st ∧
     counted cfg st ∧
     (0 ≤ external_links_depth cfg →
      max_external_hops st ≤ external_links_depth cfg)) ∧
  (∀ u st, scope_le cfg st (final (is_same_domain cfg u st))) ∧
  (∀ u depth fr st, scope_le cfg st (final (crawl_step net cfg u depth fr st))) ∧
  (∀ fuel fr st, scope_le cfg st (final (crawl_loop net cfg fuel fr st))) ∧
  (∀ fuel st, scope_le cfg st (final (crawl net cfg fuel st))) ∧
  (∀ u st, netloc_of u ∈ current_domains st →
           final (is_same_domain cfg u st) = st).
Proof.
  repeat split_and.
  - intros fuel st.
    destruct (ev_scope _ _ _ _ (crawl_evolves net cfg fuel (init cfg)))
      as [Hle Hb _].
    subst st. simpl in Hle, Hb. split; [lia|]. split; [apply counted_crawl|].
    intros Hbudget. by apply Hb.
  - intros. apply is_same_domain_scope.
  - intros. eapply ev_scope, crawl_step_evolves.
  - intros. eapply ev_scope, crawl_loop_evolves.
  - intros. eapply ev_scope, crawl_evolves.
  - intros. by apply is_same_domain_known.
Qed.

(** with a budget of one hop and a page with links to two other
    domains, the one hop is taken and the count stays at one *)
Lemma scope_monotone_witness :
  let st := final (crawl ads_site one_hop_no_ads 10 (init one_hop_no_ads)) in
  max_external_hops st = 1 ∧
  0 ≤ max_external_hops st ∧
  max_external_hops st ≤ external_links_depth one_hop_no_ads.
Proof.
  split; [by vm_compute|].
  destruct (scope_monotone ads_site one_hop_no_ads) as (H & _).
  destruct (H 10%nat) as (H0 & _ & Hb).
  split; [exact H0|]. apply Hb. simpl. lia.
Defined.

(** C5 as stated fails for a budget below zero: the count starts at 0 *)
Lemma scope_bound_negative_budget :
  let st := final (crawl lone_site negative_budget 5 (init negative_budget)) in
  ¬ (max_external_hops st ≤ external_links_depth negative_budget).
Proof. vm_compute. intros H. by apply H. Qed.

(** C6, amended: the results carry pairwise different URLs, the URLs as
    they were taken from the queue; each is the start URL as it was
    given or came out of the canonicalizer. *)
Theorem results_distinct (net : network) (cfg : config) (fuel : nat) :
  let st := final (crawl net cfg fuel (init cfg)) in
  NoDup (url <$> scraped_data st) ∧
  ∀ d, d ∈ scraped_data st → url d = start_url cfg ∨ canonical (url d).
Proof.
  destruct (crawl_inv_final net cfg fuel) as [Hn _ Hr _]. split; [done|].
  intros d Hd. destruct (Hr d Hd) as [?|[? _ _ _]]; [by left|by right].
Qed.

(** C6 as stated fails: a start URL with a query is recorded as given,
    and so is the canonical form of a link to the same page *)
Lemma two_results_one_canonical_form :
  let st := final (crawl paged_site paged_config 10 (init paged_config)) in
  url <$> scraped_data st = ["http://a.example/?page=1"; "http://a.example/"] ∧
  clean <$> (url <$> scraped_data st) = ["http://a.example/"; "http://a.example/"].
Proof. by vm_compute. Qed.

(** C7, amended: [is_valid_url] asks robots first and then the pattern
    filter; the filter rejects a URL that an exclude pattern matches,
    and otherwise allows it when no include pattern is configured or
    one of them matches.  A pattern matches by [search].  A wildcard of
    the command line, with its [*], [?] and bracket expressions, becomes
    a case-insensitive expression anchored at the end of the URL only:
    for a wildcard and a URL of ASCII characters it matches when some
    suffix of the URL matches the wildcard. *)
Theorem pattern_filter_by_search (net : network) (cfg : config) :
  (∀ u st,
     is_valid_url net cfg u st =
     bind (can_fetch net cfg u) (fun ok => ret (ok && pattern_filter cfg u)) st) ∧
  (∀ u,
     pattern_filter cfg u = true ↔
     (∀ p, p ∈ exclude_patterns cfg → Re.search p u = false) ∧
     (include_patterns cfg = [] ∨
      ∃ p, p ∈ include_patterns cfg ∧ Re.search p u = true)) ∧
  (∀ pat u,
     Str.is_ascii pat = true → Str.is_ascii u = true →
     (Re.search (wildcard_to_regex pat) u = true ↔
      ∃ pre suf, u = pre +:+ suf ∧ glob_match (Fnmatch.scan pat) suf)).
Proof.
  split; [|split].
  - apply is_valid_url_eq.
  - apply pattern_filter_spec.
  - intros pat u _ _. apply wildcard_search.
Qed.

(** C7 as stated fails: the wildcard [/private] does not match the whole
    of [http://a.example/private], yet its pattern is found in it and
    the URL is rejected *)
Lemma wildcard_not_anchored :
  let pat := "/private" in
  let u := "http://a.example/private" in
  ¬ glob_match (Fnmatch.scan pat) u ∧
  Re.search (wildcard_to_regex pat) u = true ∧
  ∃ st, is_valid_url lone_site exclude_private u (init exclude_private)
        = Ret false st.
Proof.
  intros pat u. split; [|split].
  - rewrite <- translate_match. by vm_compute.
  - by vm_compute.
  - eexists. vm_compute. reflexivity.
Qed.



(** and the second page of the site is requested five seconds after
    the first *)
Lemma crawl_delay_five_is_waited :
  let st := final (crawl slow_site slow_config 10 (init slow_config)) in
  ∃ e1 e2,
    rev (sent st) !! 2%nat = Some e1 ∧ rev (sent st) !! 4%nat = Some e2 ∧
    e1 = scrape_request (ev_time e1) "http://slow.example/" ∧
    e2 = scrape_request (ev_time e2) "http://slow.example/b" ∧
    (ev_time e2 - ev_time e1 == 5)%Q.
Proof.
  eexists _, _. split; [vm_compute; reflexivity|].
  split; [vm_compute; reflexivity|]. by vm_compute.
Qed.


(** C9: every exception raised while a page is processed is to be
    caught at the page and to cost that page only, as [scrape_url] does
    it.  [get_links_from_page] catches [requests.RequestException] only,
    and the loop has no handler.  Here the fifty-first anchor of the
    start page does not parse; the scrape reads fifty anchors and
    succeeds, link extraction reads all of them, and the [ValueError]
    ends the crawl, the links found before it unvisited. *)
Theorem link_extraction_error_ends_crawl :
  let cfg := basic_config "http://a.example/" in
  ∃ st, crawl long_page_site cfg 10 (init cfg) = Raise ValueError st ∧
        url <$> scraped_data st = ["http://a.example/"] ∧
        ("http://a.example/p" ∉ visited_urls st).
Proof.
  eexists. split; [vm_compute; reflexivity|].
  split; [by vm_compute|]. apply (bool_decide_unpack _). by vm_compute.
Qed.




(** * More properties of the crawl *)

(** X1: the crawl comes to an end on every site, from every state: with
    enough fuel the loop has emptied its queue (or the crawl has returned
    before the loop, or has been ended by an exception), and more fuel
    changes nothing.  The depth limit does it: a page adds only finitely
    many entries, all one level deeper, and none beyond the limit. *)
Theorem crawl_terminates (net : network) (cfg : config) (st : state) :
  ∃ fuel,
    finished (crawl net cfg fuel st) ∧
    ∀ fuel', (fuel ≤ fuel')%nat →
             crawl net cfg fuel' st = crawl net cfg fuel st.
Proof.
  unfold crawl, bind.
  destruct (check_start_url net cfg st) as [[|] st1|e st1].
  - destruct (crawl_loop_ends net cfg (levels_left cfg 0)
                [(start_url cfg, 0)] ∅ st1) as (fuel & Hf).
    { by intros x dx [= _ ->]%list_elem_of_singleton. }
    exists fuel. split.
    + by destruct (crawl_loop _ _ _ _ _).
    + intros fuel' Hle. replace fuel' with (fuel + (fuel' - fuel))%nat by lia.
      by rewrite crawl_loop_more.
  - by exists 0%nat.
  - by exists 0%nat.
Qed.

(** X2: in every crawl each URL is requested by [scrape_url] at most
    once, and only when it has been marked visited.  When the crawl
    returns, the visited URLs are the URLs of the scrape requests, and
    there are as many of the one as of the other; when an exception
    ends it, every visited URL but one at most has been scraped, the
    one whose wait raised. *)
Theorem each_url_scraped_once (net : network) (cfg : config) (fuel : nat) :
  let r := crawl net cfg fuel (init cfg) in
  let st := final r in
  NoDup (requested Scrape st) ∧
  (∀ u, u ∈ requested Scrape st → u ∈ visited_urls st) ∧
  post r
    (fun _ _ =>
       (∀ u, u ∈ visited_urls st ↔ u ∈ requested Scrape st) ∧
       length (requested Scrape st) = size (visited_urls st))
    (fun _ _ =>
       ∃ missed, ∀ u, u ∈ visited_urls st → u ∈ requested Scrape st ∨ u = missed).
Proof.
  destruct (ledger_kept net cfg fuel) as [Hn Hv _ _ _ _ _]. cbv zeta.
  split; [done|]. split; [done|].
  pose proof (all_scraped_kept net cfg fuel) as Ha.
  destruct (crawl net cfg fuel (init cfg)) as [r st|e st]; simpl in *; [|done].
  assert (Hiff : ∀ u, u ∈ visited_urls st ↔ u ∈ requested Scrape st).
  { intros u. split; [apply Ha|apply Hv]. }
  split; [done|].
  rewrite <- (size_list_to_set (C := gset string)) by done.
  f_equal. apply set_eq. intros u. by rewrite elem_of_list_to_set, Hiff.
Qed.

(** X3: link extraction is requested at most once for a URL, only for a
    page that was recorded, and directly after the scrape of that page:
    in the history the request before a request of
    [get_links_from_page] is the request of [scrape_url] for the same
    URL. *)
Theorem links_fetched_after_scrape (net : network) (cfg : config) (fuel : nat) :
  let st := final (crawl net cfg fuel (init cfg)) in
  NoDup (requested Links st) ∧
  (∀ u, u ∈ requested Links st → u ∈ url <$> scraped_data st) ∧
  (∀ later e earlier,
     sent st = (later ++ e :: earlier)%list → ev_purpose e = Links →
     ∃ t rest, earlier = scrape_request t (req_url (ev_request e)) :: rest).
Proof.
  destruct (ledger_kept net cfg fuel) as [_ _ Hn Hr _ _ Hf]. cbv zeta.
  split; [done|]. split; [done|].
  intros later e earlier E He. rewrite E in Hf. clear E.
  induction later as [|x later IH]; simpl in Hf.
  - destruct Hf as [Hf _]. destruct (Hf He) as (t & Hh).
    destruct earlier as [|e' rest]; [done|]. simpl in Hh. exists t, rest.
    by simplify_eq.
  - apply IH. by destruct Hf.
Qed.

(** X4: [scrape_url] never raises, whatever the site answers.  It sends
    one request, a GET for the URL as given, and leaves the visited
    set, the results and the robots cache alone.  A page it returns
    carries the URL it was given and its domain, a status that is not an
    HTTP error, and at most fifty links, all passed by the scope
    guard. *)
Theorem scrape_url_contract (net : network) (cfg : config)
    (u : string) (st : state) :
  ∃ r st',
    scrape_url net cfg u st = Ret r st' ∧
    sent st' = scrape_request (now st) u :: sent st ∧
    visited_urls st' = visited_urls st ∧
    scraped_data st' = scraped_data st ∧
    robots_cache st' = robots_cache st ∧
    ∀ p, r = Some p →
         url p = u ∧ domain p = netloc_of u ∧
         (∃ c, status p = Some c ∧ (c < 400 ∨ 600 ≤ c)) ∧
         (length (links p) ≤ 50)%nat ∧
         ∀ l, l ∈ links p → in_scope cfg st' l.
Proof.
  pose proof (scrape_url_page net cfg u st) as Hp.
  pose proof (scrape_url_sends_one net cfg u st) as Hs.
  pose proof (scrape_url_grows net cfg u st) as [Hv Hd _].
  destruct (scrape_url_cache net cfg u st) as [Hc _].
  destruct (scrape_url net cfg u st) as [r st'|e st']; simpl in *; [|done].
  exists r, st'. repeat split_and; try done.
  intros p Er. by destruct (Hp p Er).
Qed.

(** X5: the figures [print_summary] prints after a crawl: no more pages
    than visited URLs, at most fifty links a page, domains that were all
    admitted, and no custom delays with robots compliance off; it prints
    nothing only when nothing was scraped. *)
Theorem summary_figures (net : network) (cfg : config) (fuel : nat) :
  let st := final (crawl net cfg fuel (init cfg)) in
  match print_summary cfg st with
  | Some s =>
      (pages_scraped s ≤ urls_visited s)%nat ∧
      (total_links s ≤ 50 * pages_scraped s)%nat ∧
      domains_scraped s ⊆ current_domains st ∧
      (respect_robots cfg = false → custom_delays s = None)
  | None => scraped_data st = []
  end.
Proof.
  cbv zeta. unfold print_summary.
  pose proof (results_within_visited net cfg fuel) as Hlen.
  destruct (counted_crawl net cfg fuel) as [Hs _].
  destruct (crawl_in_scope net cfg fuel) as [_ Hres].
  destruct (ledger_kept net cfg fuel) as [_ _ _ _ _ Hpages _].
  pose proof (no_delays_without_robots net cfg fuel) as Hoff.
  cbv zeta in Hlen.
  destruct (scraped_data _) as [|p ps] eqn:E; [done|].
  cbn -[list_to_set foldr size length Nat.mul fmap].
  repeat split_and.
  - done.
  - apply (total_links_bound (p :: ps)). intros q Hq.
    by destruct (Hpages q Hq).
  - intros d (q & -> & Hq)%elem_of_list_to_set%list_elem_of_fmap.
    destruct (Hpages q Hq) as [_ -> _ _ _].
    apply (in_scope_domain cfg); [done|]. by apply Hres.
  - intros Hrr. by rewrite (Hoff Hrr), decide_True.
Qed.

(** X6: in every crawl the count of external hops is the number of
    admitted domains beside the start domain, which is always among
    them. *)
Theorem hops_count_domains (net : network) (cfg : config) (fuel : nat) :
  let st := final (crawl net cfg fuel (init cfg)) in
  start_domain cfg ∈ current_domains st ∧
  Z.of_nat (size (current_domains st)) = max_external_hops st + 1.
Proof. apply counted_crawl. Qed.

(** X7: without [allow_exit] a crawl stays on the start domain: every
    request for a page goes to it, every recorded page is of it and
    lists links to it only, and the scope guard's state stays as the
    constructor made it. *)
Theorem stays_on_start_domain (net : network) (cfg : config) (fuel : nat) :
  allow_exit cfg = false →
  let st := final (crawl net cfg fuel (init cfg)) in
  (∀ e, e ∈ sent st → page_request e → event_domain e = start_domain cfg) ∧
  (∀ p, p ∈ scraped_data st →
        domain p = start_domain cfg ∧
        ∀ l, l ∈ links p → netloc_of l = start_domain cfg) ∧
  max_external_hops st = 0 ∧
  current_domains st = {[ start_domain cfg ]}.
Proof.
  intros Hoff. cbv zeta.
  assert (Hin : ∀ st u, in_scope cfg st u → netloc_of u = start_domain cfg).
  { intros st u [?|[? _]]; [done|congruence]. }
  destruct (crawl_in_scope net cfg fuel) as [Hreq Hres].
  destruct (ledger_kept net cfg fuel) as [_ _ _ _ _ Hpages _].
  destruct (scope_closed net cfg fuel Hoff) as [Hh Hd].
  repeat split_and; try done.
  - intros e He Hp. eapply Hin. by apply Hreq.
  - intros p Hp. destruct (Hpages p Hp) as [_ Edom _ _ Hl]. split.
    + rewrite Edom. eapply Hin. by apply Hres.
    + intros l Hin'. eapply Hin. by apply Hl.
Qed.

Lemma stays_on_start_domain_witness :
  let cfg := basic_config "http://a.example/" in
  let st := final (crawl quick_site cfg 10 (init cfg)) in
  (∀ e, e ∈ sent st → page_request e → event_domain e = start_domain cfg) ∧
  (∀ p, p ∈ scraped_data st →
        domain p = start_domain cfg ∧
        ∀ l, l ∈ links p → netloc_of l = start_domain cfg) ∧
  max_external_hops st = 0 ∧
  current_domains st = {[ start_domain cfg ]}.
Proof.
  exact (stays_on_start_domain quick_site (basic_config "http://a.example/") 10
           eq_refl).
Defined.

(** X8: a crawl asks for pages of admitted domains only, and with a
    budget that is not negative there are at most one more of them than
    the budget: the start domain and one for each hop. *)
Theorem domains_bounded (net : network) (cfg : config) (fuel : nat) :
  0 ≤ external_links_depth cfg →
  let st := final (crawl net cfg fuel (init cfg)) in
  (∀ e, e ∈ sent st → page_request e → event_domain e ∈ current_domains st) ∧
  (∀ p, p ∈ scraped_data st → domain p ∈ current_domains st) ∧
  Z.of_nat (size (current_domains st)) ≤ external_links_depth cfg + 1.
Proof.
  intros Hb. cbv zeta.
  destruct (counted_crawl net cfg fuel) as [Hs Hc].
  destruct (crawl_in_scope net cfg fuel) as [Hreq Hres].
  destruct (ledger_kept net cfg fuel) as [_ _ _ _ _ Hpages _].
  pose proof (hops_within_budget net cfg fuel Hb) as Hh.
  repeat split_and.
  - intros e He Hp. apply (in_scope_domain cfg); [done|]. by apply Hreq.
  - intros p Hp. destruct (Hpages p Hp) as [_ -> _ _ _].
    apply (in_scope_domain cfg); [done|]. by apply Hres.
  - lia.
Qed.

Lemma domains_bounded_witness :
  let st := final (crawl ads_site one_hop_no_ads 10 (init one_hop_no_ads)) in
  (∀ e, e ∈ sent st → page_request e → event_domain e ∈ current_domains st) ∧
  (∀ p, p ∈ scraped_data st → domain p ∈ current_domains st) ∧
  Z.of_nat (size (current_domains st)) ≤ 1 + 1.
Proof.
  apply (domains_bounded ads_site one_hop_no_ads 10). simpl. lia.
Defined.

(** X9: what the scope guard has decided of a URL stands for the rest of
    the session: after any number of turns of the loop it gives the
    same answer, and changes nothing in giving it.  A URL that was let
    through is of an admitted domain, and these stay admitted; one that
    was turned away found the budget spent, and it stays spent. *)
Theorem scope_decisions_final (net : network) (cfg : config)
    (u : string) (st st1 : state) (b : bool) :
  is_same_domain cfg u st = Ret b st1 →
  ∀ fuel fr,
    let st2 := final (crawl_loop net cfg fuel fr st1) in
    is_same_domain cfg u st2 = Ret b st2.
Proof.
  intros E fuel fr. cbv zeta.
  eapply is_same_domain_final; [exact E| |].
  - apply crawl_loop_evolves.
  - apply frozen_crawl_loop.
Qed.

Lemma scope_decisions_final_witness :
  let cfg := one_hop_no_ads in
  let fr := {| queue := [(start_url cfg, 0)]; last_request_time := ∅ |} in
  let st1 := final (scrape_url ads_site cfg (start_url cfg) (init cfg)) in
  let st2 := final (crawl_loop ads_site cfg 5 fr st1) in
  is_same_domain cfg "http://b.example/" st2 = Ret false st2.
Proof.
  apply (scope_decisions_final ads_site one_hop_no_ads "http://b.example/"
           (final (scrape_url ads_site one_hop_no_ads
                     (start_url one_hop_no_ads) (init one_hop_no_ads)))
           _ false).
  vm_compute. reflexivity.
Defined.

(** X10: in every crawl the robots.txt of a domain is requested at most
    once, whether the request succeeds or not, and it is requested for
    exactly the domains in the cache; with robots compliance off it is
    never requested. *)
Theorem robots_txt_requested_once (net : network) (cfg : config) (fuel : nat) :
  let st := final (crawl net cfg fuel (init cfg)) in
  NoDup (requested Robots st) ∧
  (∀ d, robots_url cfg d ∈ requested Robots st ↔
        is_Some (robots_cache st !! d)) ∧
  (respect_robots cfg = false → requested Robots st = []).
Proof.
  destruct (robots_book_kept net cfg fuel) as [Hn Hc _ Hoff]. cbv zeta.
  split; [done|]. split.
  - intros d. rewrite Hc. split.
    + by intros (d' & ->%robots_url_inj & Hd).
    + intros Hd. by exists d.
  - intros Hrr. destruct (requested Robots _) as [|u us] eqn:E; [done|].
    destruct (proj1 (Hc u)) as (d & _ & Hd); [by left|].
    rewrite (Hoff Hrr), lookup_empty in Hd. by destruct Hd.
Qed.

(** X11: in every crawl the delay on record for a domain is the
    crawl-delay that the cached robots.txt of the domain declares for
    the user agent, when it declares one that is not zero; no other
    delay is ever on record, and none at all with robots compliance
    off. *)
Theorem delays_from_robots (net : network) (cfg : config) (fuel : nat) :
  let st := final (crawl net cfg fuel (init cfg)) in
  (∀ d, domain_delays st !! d =
        policy ← robots_cache st !! d; declared_delay cfg policy) ∧
  (respect_robots cfg = false → domain_delays st = ∅).
Proof.
  destruct (robots_book_kept net cfg fuel) as [_ _ Hd Hoff]. cbv zeta.
  split; [done|]. intros Hrr. apply map_empty. intros d.
  by rewrite Hd, (Hoff Hrr), lookup_empty.
Qed.

(** X12: what robots.txt has said of a URL stands for the rest of the
    session: the policy of a domain is read once, so after any number
    of turns of the loop [can_fetch] gives the same answer, and
    [is_valid_url] that answer and the pattern filter's, without a
    request and without a change of state. *)
Theorem robots_decisions_final (net : network) (cfg : config)
    (u : string) (st st1 : state) (ok : bool) :
  can_fetch net cfg u st = Ret ok st1 →
  ∀ fuel fr,
    let st2 := final (crawl_loop net cfg fuel fr st1) in
    can_fetch net cfg u st2 = Ret ok st2 ∧
    is_valid_url net cfg u st2 = Ret (ok && pattern_filter cfg u) st2.
Proof.
  intros E fuel fr. cbv zeta.
  assert (E2 : can_fetch net cfg u (final (crawl_loop net cfg fuel fr st1))
               = Ret ok (final (crawl_loop net cfg fuel fr st1))).
  { eapply can_fetch_final; [exact E|].
    apply (ev_robots _ _ _ _ (crawl_loop_evolves net cfg fuel fr st1)). }
  split; [done|]. rewrite is_valid_url_eq. unfold bind. by rewrite E2.
Qed.

Lemma robots_decisions_final_witness :
  let cfg := basic_config "http://a.example/" in
  let fr := {| queue := [(start_url cfg, 0)]; last_request_time := ∅ |} in
  let st1 := final (can_fetch forbidden_site cfg "http://a.example/more"
                      (init cfg)) in
  let st2 := final (crawl_loop forbidden_site cfg 5 fr st1) in
  can_fetch forbidden_site cfg "http://a.example/more" st2 = Ret false st2 ∧
  is_valid_url forbidden_site cfg "http://a.example/more" st2 = Ret false st2.
Proof.
  apply (robots_decisions_final forbidden_site
           (basic_config "http://a.example/") "http://a.example/more"
           (init (basic_config "http://a.example/")) _ false).
  vm_compute. reflexivity.
Defined.

(** X13: the links [get_links_from_page] returns are pairwise different,
    none is the empty string and none is the URL of the page itself.
    An exception of the request, the HTTP error of [raise_for_status]
    among them, never leaves it: what it raises is no request
    exception.  Its own request is the first it sends, and after it it
    sends requests for robots.txt only. *)
Theorem get_links_from_page_contract (net : network) (cfg : config)
    (u : string) (st : state) :
  post (get_links_from_page net cfg u st)
    (fun ls _ => NoDup ls ∧ (u ∉ ls) ∧ ("" ∉ ls))
    (fun e _ => is_RequestException e = false) ∧
  ∃ robots,
    sent (final (get_links_from_page net cfg u st)) =
    (robots ++ links_request (now st) u :: sent st)%list ∧
    Forall robots_event robots.
Proof.
  split; [apply get_links_from_page_others|apply get_links_from_page_sends].
Qed.

(** X14: the deduplication of [get_links_from_page] keeps the first of
    each link, in order: the result has no duplicates and the elements
    of the list, it is a sublist of it, the result for a list continued
    is the result for the list continued, and a list without duplicates
    comes back as it is. *)
Theorem unique_keeps_first (ls ls' : list string) :
  NoDup (unique ∅ ls) ∧
  (∀ l, l ∈ unique ∅ ls ↔ l ∈ ls) ∧
  unique ∅ ls `sublist_of` ls ∧
  unique ∅ (ls ++ ls') = (unique ∅ ls ++ unique (list_to_set ls) ls')%list ∧
  (NoDup ls → unique ∅ ls = ls) ∧
  unique ∅ (unique ∅ ls) = unique ∅ ls.
Proof.
  assert (Happ : ∀ seen (l1 l2 : list string),
            unique seen (l1 ++ l2) =
            (unique seen l1 ++ unique (seen ∪ list_to_set l1) l2)%list).
  { intros seen l1. revert seen.
    induction l1 as [|x l1 IH]; intros seen l2; simpl.
    - by rewrite (right_id_L ∅ (∪)).
    - case_bool_decide as Hx.
      + rewrite IH. do 2 f_equal. apply set_eq. intros y.
        rewrite !elem_of_union, elem_of_singleton. split; [tauto|].
        intros [?|[->|?]]; tauto.
      + simpl. rewrite IH. do 3 f_equal. apply set_eq. intros y.
        rewrite !elem_of_union, elem_of_singleton. tauto. }
  repeat split_and.
  - apply unique_NoDup.
  - intros l. rewrite unique_elem_of. split; [by intros [? _]|].
    intros ?. split; [done|]. apply not_elem_of_empty.
  - apply unique_sublist.
  - rewrite Happ. by rewrite (left_id_L ∅ (∪)).
  - intros Hn. apply unique_id; [done|]. intros l _. apply not_elem_of_empty.
  - apply unique_id; [apply unique_NoDup|]. intros l _. apply not_elem_of_empty.
Qed.


(** X16: a crawl is given up before the loop only when robots.txt
    disallows the start URL, with robots compliance on: the probe of the
    start URL has returned then, whatever the status it found, nothing
    is visited, and nothing but the probe and requests for robots.txt
    has been sent.  A start URL that cannot be reached does not stop
    the crawl. *)
Theorem crawl_abandoned_only_by_robots (net : network) (cfg : config)
    (fuel : nat) (st : state) :
  crawl net cfg fuel (init cfg) = Ret None st →
  robots_disallows cfg st (start_url cfg) ∧
  (∃ status st0, test_start_url net cfg (init cfg) = Ret status st0) ∧
  visited_urls st = ∅ ∧ scraped_data st = [] ∧
  ∀ e, e ∈ sent st → probe_event e.
Proof.
  unfold crawl. unfold bind at 1.
  pose proof (check_start_url_grows net cfg (init cfg)) as G.
  destruct (check_start_url net cfg (init cfg)) as [go st1|e st1] eqn:Ec;
    [|done].
  destruct go.
  { unfold bind. by destruct (crawl_loop _ _ _ _ _). }
  intros [= <-]. destruct (check_start_url_false net cfg _ _ Ec) as [Hd Ht].
  destruct G as [Ev Es [_ _ (new & En & Fn) _]]. simpl in *.
  repeat split_and; try done.
  rewrite En, app_nil_r. by apply Forall_forall.
Qed.

Lemma crawl_abandoned_only_by_robots_witness :
  let cfg := basic_config "http://a.example/" in
  let st := final (crawl forbidden_site cfg 10 (init cfg)) in
  robots_disallows cfg st (start_url cfg) ∧
  (∃ status st0, test_start_url forbidden_site cfg (init cfg) = Ret status st0) ∧
  visited_urls st = ∅ ∧ scraped_data st = [] ∧
  ∀ e, e ∈ sent st → probe_event e.
Proof.
  apply (crawl_abandoned_only_by_robots forbidden_site
           (basic_config "http://a.example/") 10).
  vm_compute. reflexivity.
Defined.



(** X18: with a depth limit of zero the crawl scrapes the start URL and
    nothing else, and does not ask for its links; with a limit below
    zero it scrapes nothing at all. *)
Theorem depth_zero_scrapes_seed_only (net : network) (cfg : config)
    (fuel : nat) :
  max_depth cfg ≤ 0 →
  let st := final (crawl net cfg fuel (init cfg)) in
  (∀ u, u ∈ visited_urls st → u = start_url cfg) ∧
  requested Links st = [] ∧
  (length (scraped_data st) ≤ 1)%nat ∧
  (max_depth cfg < 0 →
   visited_urls st = ∅ ∧ scraped_data st = [] ∧ requested Scrape st = []).
Proof.
  intros Hd. cbv zeta.
  destruct (shallow_crawl net cfg Hd fuel) as (Hv & Hl & Hneg).
  pose proof (results_within_visited net cfg fuel) as Hlen. cbv zeta in Hlen.
  repeat split_and; try done.
  - etransitivity; [exact Hlen|].
    rewrite <- (size_singleton (C := gset string) (start_url cfg)).
    apply subseteq_size. intros u Hu. apply elem_of_singleton. by apply Hv.
  - intros Hlt. destruct (Hneg Hlt) as [Ev Es]. split; [done|]. split; [|done].
    rewrite Ev, size_empty in Hlen.
    destruct (scraped_data _); [done|simpl in Hlen; lia].
Qed.

Lemma depth_zero_scrapes_seed_only_witness :
  let cfg := depth_zero "http://a.example/" in
  let st := final (crawl quick_site cfg 10 (init cfg)) in
  (∀ u, u ∈ visited_urls st → u = start_url cfg) ∧
  requested Links st = [] ∧
  (length (scraped_data st) ≤ 1)%nat ∧
  (max_depth cfg < 0 →
   visited_urls st = ∅ ∧ scraped_data st = [] ∧ requested Scrape st = []).
Proof.
  apply (depth_zero_scrapes_seed_only quick_site
           (depth_zero "http://a.example/") 10).
  simpl. lia.
Defined.

(** X19: when the default delay is not negative, the scrapes of pages of
    one domain are spaced: between the start of one and the start of a
    later one at least the effective delay of the domain passes, the
    default delay or the crawl-delay of its robots.txt if greater. *)
Theorem scrape_requests_spaced (net : network) (cfg : config) (fuel : nat)
    (later earlier : list event) (e1 e2 : event) :
  Float.le (Fin 0) (delay cfg) →
  let st := final (crawl net cfg fuel (init cfg)) in
  sent st = (later ++ e2 :: earlier)%list → e1 ∈ earlier →
  ev_purpose e1 = Scrape → ev_purpose e2 = Scrape →
  event_domain e1 = event_domain e2 →
  Float.le (Float.add (Fin (ev_time e1))
              (effective_delay cfg st (event_domain e2)))
    (Fin (ev_time e2)).
Proof.
  intros Hd st Es Hin H1 H2 Hdom.
  by destruct (scrapes_spaced net cfg Hd fuel later e2 earlier e1 Es Hin H1 H2 Hdom).
Qed.

Lemma scrape_requests_spaced_witness :
  let cfg := basic_config "http://a.example/" in
  let st := final (crawl quick_site cfg 10 (init cfg)) in
  ∃ e1 e2,
    sent st !! 3%nat = Some e1 ∧ sent st !! 1%nat = Some e2 ∧
    req_url (ev_request e1) = "http://a.example/" ∧
    req_url (ev_request e2) = "http://a.example/b" ∧
    Float.le (Float.add (Fin (ev_time e1)) (effective_delay cfg st "a.example"))
      (Fin (ev_time e2)).
Proof.
  intros cfg st.
  destruct (sent st !! 3%nat) as [e1|] eqn:E1; [|by vm_compute in E1].
  destruct (sent st !! 1%nat) as [e2|] eqn:E2; [|by vm_compute in E2].
  exists e1, e2. split; [done|]. split; [done|].
  vm_compute in E1, E2. injection E1 as <-. injection E2 as <-.
  split; [reflexivity|]. split; [reflexivity|].
  apply (scrape_requests_spaced quick_site cfg 10
           (take 1 (sent st)) (drop 2 (sent st))).
  - vm_compute. discriminate.
  - vm_compute. reflexivity.
  - apply (list_elem_of_lookup_2 _ 1%nat). vm_compute. reflexivity.
  - reflexivity.
  - reflexivity.
  - reflexivity.
Defined.

(** X20: the canonical form that [get_links_from_page] makes of a link
    has neither a query nor a fragment: there is no [?] and no [#] in
    it, and parsed again its query and its fragment are empty. *)
Theorem canonical_has_no_query (u : string) :
  Str.contains "?" (clean u) = false ∧
  Str.contains "#" (clean u) = false ∧
  Urllib.query (Urllib.urlparse (clean u)) = "" ∧
  Urllib.fragment (Urllib.urlparse (clean u)) = "".
Proof.
  assert (Hq : Str.contains "?" (clean u) = false)
    by (apply clean_free; by left).
  assert (Hf : Str.contains "#" (clean u) = false)
    by (apply clean_free; right; by left).
  split; [done|]. split; [done|].
  unfold Urllib.urlparse. pose proof (urlsplit_plain (clean u) Hq Hf) as H.
  destruct (Urllib.urlsplit (clean u)) as [[[[sch loc] pth] qry] frag].
  destruct H as [-> ->]. by destruct (if _ && _ then _ else _).
Qed.

(** X21: for a URL with a network location the canonical form is
    stable: parsed again it gives the parts of the URL without the query
    and the fragment, the network location among them, and made
    canonical again it stays as it is. *)
Theorem canonical_form_is_stable (u : string) :
  netloc_of u ≠ "" →
  Urllib.urlparse (clean u) = Urllib.strip_query_fragment (Urllib.urlparse u) ∧
  netloc_of (clean u) = netloc_of u ∧
  clean (clean u) = clean u.
Proof.
  intros Hloc. pose proof (clean_parse u Hloc) as E. split; [done|]. split.
  - unfold netloc_of. by rewrite E.
  - unfold clean at 1. by rewrite E.
Qed.

Lemma canonical_form_is_stable_witness :
  let u := "HTTP://a.example/b;x?page=2#top" in
  Urllib.urlparse (clean u) = Urllib.strip_query_fragment (Urllib.urlparse u) ∧
  netloc_of (clean u) = netloc_of u ∧
  clean (clean u) = clean u.
Proof.
  apply (canonical_form_is_stable "HTTP://a.example/b;x?page=2#top").
  vm_compute. discriminate.
Defined.

(** X22: a wildcard that begins with a star filters by the whole URL:
    for a wildcard and a URL of ASCII characters, its pattern is found
    in the URL exactly when the wildcard matches the URL as a whole. *)
Theorem leading_star_matches_whole (p u : string) :
  Str.is_ascii p = true → Str.is_ascii u = true →
  Re.search (wildcard_to_regex (String "*" p)) u = true ↔
  glob_match (Fnmatch.scan (String "*" p)) u.
Proof.
  intros _ _. rewrite wildcard_search.
  destruct (scan_star p) as (ps & ->). split.
  - intros (pre & suf & -> & (pre' & suf' & -> & H)%glob_match_star).
    apply glob_match_star. exists (pre +:+ pre'), suf'.
    by rewrite append_assoc.
  - intros H. by exists "", u.
Qed.

Lemma leading_star_matches_whole_witness :
  Re.search (wildcard_to_regex "*/[pq]?") "http://a.example/p1" = true ↔
  glob_match (Fnmatch.scan "*/[pq]?") "http://a.example/p1".
Proof.
  apply (leading_star_matches_whole "/[pq]?" "http://a.example/p1").
  - reflexivity.
  - reflexivity.
Defined.

(** X23: the patterns made of wildcards take no notice of the case of
    the URL: for a wildcard and a URL of ASCII characters, the URL in
    lower case is matched exactly when the URL is. *)
Theorem wildcards_ignore_case (p u : string) :
  Str.is_ascii p = true → Str.is_ascii u = true →
  Re.search (wildcard_to_regex p) (Str.lower u) =
  Re.search (wildcard_to_regex p) u.
Proof.
  intros _ _. unfold wildcard_to_regex, Re.compile. cbn [Re.search].
  induction u as [|x u IH]; simpl.
  - done.
  - rewrite IH. f_equal. apply (match_here_lower _ (String x u)).
Qed.

Lemma wildcards_ignore_case_witness :
  Re.search (wildcard_to_regex "*/[a-c]dmin") (Str.lower "http://a.example/Admin") =
  Re.search (wildcard_to_regex "*/[a-c]dmin") "http://a.example/Admin".
Proof.
  apply (wildcards_ignore_case "*/[a-c]dmin" "http://a.example/Admin").
  - reflexivity.
  - reflexivity.
Defined.

(** X24: the queue of a crawl is in breadth-first order at every turn of
    the loop: along the queue the depths do not go down, they differ by
    one at most, and every entry but the seed at depth 0 lies within the
    depth limit. *)
Theorem queue_breadth_first (net : network) (cfg : config) (fuel : nat) :
  post (crawl net cfg fuel (init cfg))
    (fun r _ => ∀ fr, r = Some fr → breadth_first cfg (queue fr))
    (fun _ _ => True).
Proof.
  apply (crawl_queue_ind net cfg (breadth_first cfg)).
  - split.
    + apply sorted_all. by intros a b ->%list_elem_of_singleton
                                       ->%list_elem_of_singleton.
    + intros a b ->%list_elem_of_singleton ->%list_elem_of_singleton. simpl. lia.
    + intros a ->%list_elem_of_singleton. by left.
  - intros u d rest new. apply breadth_first_step.
Qed.

(** X25: when the server answers 429 and the default delay is a
    number of seconds from zero to a third of 10^9, [scrape_url] waits
    three times the default delay, whatever the delay of the domain, and
    returns nothing; it sends nothing more. *)
Theorem too_many_requests_costs_three_delays (net : network) (cfg : config)
    (u : string) (st : state) (resp : response) (d : Q) :
  outcome (net (length (sent st))
             {| req_method := GET; req_url := u; req_timeout := 15 |})
  = inr resp →
  status_code resp = 429 →
  delay cfg = Fin d → (0 <= d)%Q → (d * 3 <= 1000000000)%Q →
  scrape_url net cfg u st =
  Ret None
    (with_world
       (now st
        + elapsed (net (length (sent st))
                     {| req_method := GET; req_url := u; req_timeout := 15 |})
        + d * 3)
       (scrape_request (now st) u :: sent st) st).
Proof.
  intros Ho Hs Ed Hd Hfit. unfold scrape_url. rewrite try_bind_send, Ho.
  unfold try_except, bind. rewrite Hs, Ed. simpl. unfold sleep.
  destruct (Qlt_le_dec time_max (d * 3)) as [H|_].
  { exfalso. assert (1000000000 < time_max)%Q by done. lra. }
  destruct (Qlt_le_dec (d * 3) time_min) as [H|_].
  { exfalso. assert (time_min < 0)%Q by done. lra. }
  destruct (Qlt_le_dec (d * 3) 0) as [Hneg|_]; [exfalso; lra|done].
Qed.

Lemma too_many_requests_costs_three_delays_witness :
  let cfg := basic_config "http://a.example/" in
  let st := init cfg in
  let r := {| req_method := GET; req_url := "http://a.example/";
              req_timeout := 15 |} in
  scrape_url busy_site cfg "http://a.example/" st =
  Ret None
    (with_world
       (now st + elapsed (busy_site (length (sent st)) r) + 1 * 3)
       (scrape_request (now st) "http://a.example/" :: sent st) st).
Proof.
  apply (too_many_requests_costs_three_delays busy_site
           (basic_config "http://a.example/") "http://a.example/"
           (init (basic_config "http://a.example/"))
           {| status_code := 429; content_type := "text/html";
              content := {| anchors := []; robots := Some allow_all |} |}).
  - reflexivity.
  - reflexivity.
  - reflexivity.
  - vm_compute. discriminate.
  - vm_compute. discriminate.
Defined.

(** X26: a robots.txt that cannot be had allows everything: for a URL
    that parses, when the request for the robots.txt of its domain fails
    or is answered with a status other than 200, [can_fetch] returns
    true, and the lack of a policy goes to the cache, with no delay, so
    that the domain is not asked again. *)
Theorem robots_failure_allows_all (net : network) (cfg : config)
    (u : string) (st : state) :
  Urllib.valid u = true →
  respect_robots cfg = true →
  robots_cache st !! netloc_of u = None →
  match outcome (net (length (sent st))
                   {| req_method := GET;
                      req_url := robots_url cfg (netloc_of u);
                      req_timeout := 5 |}) with
  | inl _ => True
  | inr resp => status_code resp ≠ 200
  end →
  can_fetch net cfg u st =
  Ret true
    (with_robots (<[netloc_of u := None]> (robots_cache st)) (domain_delays st)
       (sending net Robots
          {| req_method := GET; req_url := robots_url cfg (netloc_of u);
             req_timeout := 5 |} st)).
Proof.
  intros _ Hrr Hc Ho. unfold can_fetch, get_robots_parser. rewrite Hrr. simpl.
  unfold bind at 1 2, get. rewrite Hc.
  unfold try_except, bind, send.
  destruct (outcome _) as [e|resp]; simpl; [done|].
  by destruct (Z.eqb_spec (status_code resp) 200).
Qed.

Lemma robots_failure_allows_all_witness :
  let cfg := basic_config "http://a.example/" in
  let st := init cfg in
  can_fetch lone_site cfg "http://a.example/x" st =
  Ret true
    (with_robots (<[ "a.example" := None ]> (robots_cache st)) (domain_delays st)
       (sending lone_site Robots
          {| req_method := GET; req_url := "http://a.example/robots.txt";
             req_timeout := 5 |} st)).
Proof.
  apply (robots_failure_allows_all lone_site (basic_config "http://a.example/")
           "http://a.example/x" (init (basic_config "http://a.example/"))).
  - reflexivity.
  - reflexivity.
  - reflexivity.
  - vm_compute. discriminate.
Defined.
